(** * Audio translation client and relay: a shallow embedding

    The browser client (frontend/src/App.tsx) is embedded function by
    function: the PCM conversion, the base64 encoder, the one-shot upload
    flow [processAudio] and the handlers of the streaming WebSocket.  The
    relay that sits behind the WebSocket (reconciler, chunker, redundancy
    filter, translation output queue) is modelled from its specification. *)

From Stdlib Require Import ZArith QArith List String Ascii Lia Bool.
From Stdlib Require Import DecimalString.
From stdpp Require Import base list gmap strings.
From Equations Require Import Equations.

Local Open Scope Z_scope.
Local Open Scope string_scope.
Local Open Scope list_scope.

(** ** Part I: definitions *)

(** *** PCM conversion: [floatTo16BitPCM] *)
Module Pcm.

(** A JavaScript number as it occurs in [floatTo16BitPCM].  The elements of
    a Float32Array are binary32 values: NaN, the two infinities, or a dyadic
    rational with a 24-bit significand (the sign of zero plays no role
    below).  The products [sample * 0x8000] and [sample * 0x7fff] of such a
    value with a 15/16-bit integer have at most 40 significant bits, so the
    binary64 arithmetic of the engine computes them exactly; exact rational
    arithmetic is therefore the code's arithmetic on this domain. *)
Inductive number : Type :=
| NaN
| Infinity (negative : bool)
| Finite (q : Q).

Definition of_Z (z : Z) : number := Finite (inject_Z z).

(** [x < y] of the language: false as soon as one side is NaN. *)
Definition js_lt (x y : number) : bool :=
  match x, y with
  | NaN, _ | _, NaN => false
  | Infinity true, Infinity true => false
  | Infinity true, _ => true
  | _, Infinity true => false
  | Infinity false, _ => false
  | _, Infinity false => true
  | Finite p, Finite q => negb (Qle_bool q p)
  end.

Definition Math_min (a b : number) : number :=
  match a, b with
  | NaN, _ | _, NaN => NaN
  | _, _ => if js_lt b a then b else a
  end.

Definition Math_max (a b : number) : number :=
  match a, b with
  | NaN, _ | _, NaN => NaN
  | _, _ => if js_lt a b then b else a
  end.

Definition is_zero (q : Q) : bool := Qeq_bool q 0.
Definition is_neg (q : Q) : bool := negb (Qle_bool 0 q).

(** [x * y] of the language. *)
Definition js_mul (x y : number) : number :=
  match x, y with
  | NaN, _ | _, NaN => NaN
  | Finite p, Finite q => Finite (p * q)
  | Infinity s, Finite q | Finite q, Infinity s =>
      if is_zero q then NaN else Infinity (xorb s (is_neg q))
  | Infinity s, Infinity t => Infinity (xorb s t)
  end.

(** Truncation toward zero; NaN and the infinities go to 0, as in the
    integer conversions of the language. *)
Definition trunc (x : number) : Z :=
  match x with
  | Finite q => Z.quot (Qnum q) (Z.pos (Qden q))
  | _ => 0
  end.

(** Reduction modulo 2^16 into the signed 16-bit range. *)
Definition wrap16 (z : Z) : Z := (z + 32768) mod 65536 - 32768.

(** The conversion applied by a store into an Int16Array. *)
Definition ToInt16 (x : number) : Z := wrap16 (trunc x).

(** [Math.max(-1, Math.min(1, input[i]))] *)
Definition clamp (x : number) : number :=
  Math_max (of_Z (-1)) (Math_min (of_Z 1) x).

(** [sample < 0 ? sample * 0x8000 : sample * 0x7fff] *)
Definition scale (sample : number) : number :=
  if js_lt sample (of_Z 0) then js_mul sample (of_Z 0x8000)
  else js_mul sample (of_Z 0x7fff).

(** What the loop stores for the sample [x]. *)
Definition convert (x : number) : Z := ToInt16 (scale (clamp x)).

(** One iteration of the loop body: [output[i] = ...].  An index past the
    end of [input] reads [undefined], which arithmetic turns into NaN. *)
Definition body (input : list number) (output : list Z) (i : nat) : list Z :=
  <[i := convert (default NaN (input !! i))]> output.

(** [new Int16Array(input.length)] is zero-filled; the loop runs over
    [i = 0 .. input.length - 1]. *)
Definition floatTo16BitPCM (input : list number) : list Z :=
  fold_left (body input) (seq 0 (length input))
            (replicate (length input) 0).

Definition in_int16 (z : Z) : Prop := -32768 <= z <= 32767.

(** [-1 <= x <= 1] for a number that is not NaN. *)
Definition in_unit (x : number) : Prop :=
  match x with
  | Finite q => (-1 <= q)%Q /\ (q <= 1)%Q
  | _ => False
  end.

End Pcm.

(** *** Base64 encoding: [encodeBase64] *)
Module Base64.

(** Bytes are kept as integers in [0, 256). *)
Definition byte_of (z : Z) : Z := Z.land z 0xff.

(** The bytes of one Int16Array element in the (little-endian) buffer. *)
Definition int16_bytes (v : Z) : list Z :=
  [byte_of v; byte_of (Z.shiftr v 8)].

(** [new Uint8Array(input.buffer)] for an array that owns its buffer, as the
    arrays allocated by [floatTo16BitPCM] do. *)
Definition buffer_bytes (input : list Z) : list Z :=
  concat (map int16_bytes input).

Definition char_of (b : Z) : ascii := ascii_of_N (Z.to_N (byte_of b)).
Definition code_of (c : ascii) : Z := Z.of_N (N_of_ascii c).

(** [String.fromCharCode(...bytes)] *)
Definition fromCharCode (bytes : list Z) : string :=
  string_of_list_ascii (map char_of bytes).

(** [bytes.subarray(b, e)], for [b <= e]. *)
Definition subarray (bytes : list Z) (b e : nat) : list Z :=
  take (e - b) (drop b bytes).

Definition alphabet : string :=
  "ABCDEFGHIJKLMNOPQRSTUVWXYZabcdefghijklmnopqrstuvwxyz0123456789+/".

Definition digit (n : Z) : ascii :=
  default "="%char (String.get (Z.to_nat (Z.land n 63)) alphabet).

(** The base64 encoding of a byte sequence (RFC 4648, with padding). *)
Fixpoint encode (bs : list Z) : list ascii :=
  match bs with
  | [] => []
  | [a] =>
      [digit (Z.shiftr a 2); digit (Z.shiftl (Z.land a 3) 4);
       "="%char; "="%char]
  | [a; b] =>
      [digit (Z.shiftr a 2);
       digit (Z.lor (Z.shiftl (Z.land a 3) 4) (Z.shiftr b 4));
       digit (Z.shiftl (Z.land b 15) 2); "="%char]
  | a :: b :: c :: rest =>
      digit (Z.shiftr a 2)
      :: digit (Z.lor (Z.shiftl (Z.land a 3) 4) (Z.shiftr b 4))
      :: digit (Z.lor (Z.shiftl (Z.land b 15) 2) (Z.shiftr c 6))
      :: digit c
      :: encode rest
  end.

(** [btoa(binary)]: every character of a binary string is one byte. *)
Definition btoa (binary : string) : string :=
  string_of_list_ascii (encode (map code_of (list_ascii_of_string binary))).

Section Chunked.
(** The slice length [chunkSize] of the source is positive; the loop is
    written for [chunkSize = S pred_chunk]. *)
Variable pred_chunk : nat.

(** The loop [for (i = 0; i < bytes.length; i += chunkSize)], started at
    index [i] with the accumulator [binary]. *)
Equations? loop (bytes : list Z) (i : nat) (binary : string) : string
  by wf (length bytes - i)%nat lt :=
  loop bytes i binary with decide (i < length bytes)%nat := {
    | left _ =>
        loop bytes (i + S pred_chunk)
             (binary ++ fromCharCode (subarray bytes i (i + S pred_chunk)))
    | right _ => binary
  }.
Proof. lia. Qed.
End Chunked.

(** [chunkSize = 0x8000], written as the successor of 0x7fff. *)
Definition chunkSize_pred : nat := Z.to_nat 0x7fff.

Definition encodeBase64 (input : list Z) : string :=
  btoa (loop chunkSize_pred (buffer_bytes input) 0 "").

(** The reference the chunked encoder is compared with: the base64
    encoding of the whole byte buffer, taken in one piece. *)
Definition encode_whole (input : list Z) : string :=
  string_of_list_ascii (encode (buffer_bytes input)).

End Base64.

(** *** JavaScript values, as far as the client inspects them *)
Module Js.

(** A value produced by [JSON.parse] or read from an object.  A number is
    kept by its decimal rendering (what string concatenation shows of it);
    zero renders as 0. *)
#[warnings="-register-all"]
Inductive value : Type :=
| Undefined
| Null
| Bool (b : bool)
| Num (repr : string)
| Str (s : string)
| Arr (elems : list value)
| Obj (props : list (string * value)).

(** Conversion to string, as done by [+] with a string operand and by
    [FormData.append]. *)
Fixpoint to_string (v : value) : string :=
  match v with
  | Undefined => "undefined"
  | Null => "null"
  | Bool true => "true"
  | Bool false => "false"
  | Num repr => repr
  | Str s => s
  | Arr elems =>
      String.concat ","
        (List.map (fun e => match e with
                            | Undefined | Null => ""
                            | _ => to_string e
                            end) elems)
  | Obj _ => "[object Object]"
  end.

Definition truthy (v : value) : bool :=
  match v with
  | Undefined | Null => false
  | Bool b => b
  | Num repr => negb (String.eqb repr "0")
  | Str s => negb (String.eqb s "")
  | Arr _ | Obj _ => true
  end.

(** [a || b] *)
Definition or (a b : value) : value := if truthy a then a else b.

(** [s || t] on strings. *)
Definition or_str (s t : string) : string :=
  if String.eqb s "" then t else s.

Fixpoint assoc (k : string) (props : list (string * value)) : option value :=
  match props with
  | [] => None
  | (k', v) :: rest => if String.eqb k k' then Some v else assoc k rest
  end.

(** [v.k] for the keys the client reads (type, text, message), none of
    which exists on a primitive or an array.  [None] is the TypeError of a
    property read on null or undefined. *)
Definition get (v : value) (k : string) : option value :=
  match v with
  | Undefined | Null => None
  | Obj props => Some (default Undefined (assoc k props))
  | _ => Some Undefined
  end.

Definition prop (v : value) (k : string) : value :=
  default Undefined (get v k).

(** [v === s] for a string literal [s]. *)
Definition is_str (v : value) (s : string) : bool :=
  match v with
  | Str t => String.eqb t s
  | _ => false
  end.

End Js.

(** *** The React component [App] *)
Module App.

Record File : Type := { file_name : string; file_type : string }.

Inductive LoadingState : Type := process | recording.

(** The [useState] cells of the component; [None] is [null]. *)
Record ui : Type := {
  audioFile : option File;
  targetLang : string;
  transcript : string;
  translation : string;
  loading : option LoadingState;
  error : string;
  status : string
}.

(** The state of a freshly mounted component. *)
Definition ui0 : ui :=
  {| audioFile := None; targetLang := "Arabic"; transcript := "";
     translation := ""; loading := None; error := ""; status := "" |}.

Definition setAudioFile (f : option File) (u : ui) : ui :=
  {| audioFile := f; targetLang := targetLang u; transcript := transcript u;
     translation := translation u; loading := loading u; error := error u;
     status := status u |}.
Definition setTranscript (f : string -> string) (u : ui) : ui :=
  {| audioFile := audioFile u; targetLang := targetLang u;
     transcript := f (transcript u); translation := translation u;
     loading := loading u; error := error u; status := status u |}.
Definition setTranslation (f : string -> string) (u : ui) : ui :=
  {| audioFile := audioFile u; targetLang := targetLang u;
     transcript := transcript u; translation := f (translation u);
     loading := loading u; error := error u; status := status u |}.
Definition setLoading (l : option LoadingState) (u : ui) : ui :=
  {| audioFile := audioFile u; targetLang := targetLang u;
     transcript := transcript u; translation := translation u;
     loading := l; error := error u; status := status u |}.
Definition setError (e : string) (u : ui) : ui :=
  {| audioFile := audioFile u; targetLang := targetLang u;
     transcript := transcript u; translation := translation u;
     loading := loading u; error := e; status := status u |}.
Definition setStatus (s : string) (u : ui) : ui :=
  {| audioFile := audioFile u; targetLang := targetLang u;
     transcript := transcript u; translation := translation u;
     loading := loading u; error := error u; status := s |}.

(** [setX(v)] with a plain value. *)
Definition put (v : string) : string -> string := fun _ => v.

(** [`${n}`] for a non-negative integer. *)
Definition show (n : N) : string :=
  DecimalString.NilZero.string_of_uint (N.to_uint n).

(** **** The REST collaborators of the upload flow *)

(** What successive [reader.read()] calls resolve to: a value with
    [done = false] (the value may be missing), the final [done = true], or
    a rejection. *)
Inductive stream : Type :=
| Done
| Failed (message : string)
| Read (value : option (list Z)) (rest : stream).

Inductive result (A : Type) : Type :=
| Ok (a : A)
| Thrown (message : string).
Arguments Ok {A} a.
Arguments Thrown {A} message.

Record response : Type := {
  ok : bool;
  status_code : N;
  text_ : result string;             (* what [res.text()] settles to *)
  reader : option stream             (* [res.body?.getReader()] *)
}.

Inductive request : Type :=
| Transcribe (audio : File)
| Translate (text target_language : string).

(** The server as seen through [fetch]. *)
Definition network : Type := request -> result response.

(** State threaded through [processAudio]: the component state and the
    requests issued so far. *)
Record world : Type := { w_ui : ui; w_requests : list request }.

(** Computations that read and write the world and may throw. *)
Definition M (A : Type) : Type := world -> result A * world.

Definition ret {A} (a : A) : M A := fun w => (Ok a, w).
Definition throw {A} (message : string) : M A := fun w => (Thrown message, w).
Definition bind {A B} (m : M A) (k : A -> M B) : M B :=
  fun w => match m w with
           | (Ok a, w') => k a w'
           | (Thrown e, w') => (Thrown e, w')
           end.
Definition lift {A} (r : result A) : M A := fun w => (r, w).
Definition update (f : ui -> ui) : M unit :=
  fun w => (Ok tt, {| w_ui := f (w_ui w); w_requests := w_requests w |}).
Definition gets {A} (f : ui -> A) : M A := fun w => (Ok (f (w_ui w)), w).

(** [try { m } catch (err) { h err.message }] *)
Definition try_catch {A} (m : M A) (h : string -> M A) : M A :=
  fun w => match m w with
           | (Ok a, w') => (Ok a, w')
           | (Thrown e, w') => h e w'
           end.

(** [try { m } finally { f }] *)
Definition try_finally {A} (m : M A) (f : M unit) : M A :=
  fun w => match m w with
           | (r, w') => match f w' with
                        | (Ok _, w'') => (r, w'')
                        | (Thrown e, w'') => (Thrown e, w'')
                        end
           end.

Declare Scope monad_scope.
Delimit Scope monad_scope with monad.
Notation "x <- m ;; k" := (bind m (fun x => k))
  (at level 100, m at next level, right associativity) : monad_scope.
Notation "m ;; k" := (bind m (fun _ => k))
  (at level 100, right associativity) : monad_scope.
Local Open Scope monad_scope.

Section Platform.
(** [JSON.parse]; [None] is a SyntaxError. *)
Variable JSON_parse : string -> option Js.value.
(** A [TextDecoder] used with [{ stream: true }]: its pending bytes, and
    the text it releases for one more chunk. *)
Variable decoder : Type.
Variable decoder_new : decoder.
Variable decode : decoder -> list Z -> string * decoder.
Variable net : network.

(** [await fetch(url, ...)], recorded. *)
Definition fetch (req : request) : M response :=
  fun w => (net req,
            {| w_ui := w_ui w; w_requests := w_requests w ++ [req] |}).

(** [const { text } = JSON.parse(s)]; the messages of the two errors are
    the engine's, one wording is fixed here. *)
Definition parse_text (s : string) : M Js.value :=
  match JSON_parse s with
  | None => throw "Unexpected token in JSON"
  | Some v =>
      match Js.get v "text" with
      | None => throw "Cannot destructure property 'text'"
      | Some text => ret text
      end
  end.

(** The [while (true)] loop over [reader.read()]. *)
Fixpoint read_all (s : stream) (d : decoder) : M unit :=
  match s with
  | Done => ret tt
  | Failed message => throw message
  | Read None rest => read_all rest d
  | Read (Some value) rest =>
      let (chunk, d') := decode d value in
      update (setTranslation (fun prev => prev +:+ chunk)) ;;
      read_all rest d'
  end.

(** The body of the [try] block of [processAudio]; [lang] is the
    [targetLang] of the render whose closure is running. *)
Definition processAudio_try (file : File) (lang : string) : M unit :=
  transcribeRes <- fetch (Transcribe file) ;;
  transcribeText <- lift (text_ transcribeRes) ;;
  if negb (ok transcribeRes) then
    throw (Js.or_str transcribeText
             ("Transcribe " ++ show (status_code transcribeRes)))
  else
    text <- parse_text transcribeText ;;
    translateRes <-
      fetch (Translate (Js.to_string (Js.or text (Js.Str ""))) lang) ;;
    if negb (ok translateRes) then
      errText <- lift (text_ translateRes) ;;
      throw (Js.or_str errText
               ("Translate " ++ show (status_code translateRes)))
    else
      match reader translateRes with
      | None =>
          fallbackText <- lift (text_ translateRes) ;;
          update (setTranslation (put (Js.or_str fallbackText ""))) ;;
          update (setStatus "")
      | Some body =>
          update (setTranslation (put "")) ;;
          read_all body decoder_new ;;
          update (setStatus "")
      end.

Definition processAudio_catch (msg : string) : M unit :=
  update (setError msg).

Definition processAudio_finally : M unit :=
  update (setLoading None) ;; update (setStatus "").

(** [processAudio] of frontend/src/App.tsx. *)
Definition processAudio (file : option File) : M unit :=
  match file with
  | None => update (setError "Record something first.")
  | Some f =>
      lang <- gets targetLang ;;
      update (setError "") ;;
      update (setTranscript (put "")) ;;
      update (setTranslation (put "")) ;;
      update (setStatus "Translating...") ;;
      update (setLoading (Some process)) ;;
      try_finally
        (try_catch (processAudio_try f lang) processAudio_catch)
        processAudio_finally
  end.

(** [processAudio] of the earlier revision of the component, which has no
    transcript cell; the [try], [catch] and [finally] blocks are the
    same text. *)
Definition processAudio_v0 (file : option File) : M unit :=
  match file with
  | None => update (setError "Record something first.")
  | Some f =>
      lang <- gets targetLang ;;
      update (setError "") ;;
      update (setTranslation (put "")) ;;
      update (setStatus "Translating...") ;;
      update (setLoading (Some process)) ;;
      try_finally
        (try_catch (processAudio_try f lang) processAudio_catch)
        processAudio_finally
  end.

(** The texts released by the decoder for the values read from a stream,
    in arrival order. *)
Fixpoint decoded (s : stream) (d : decoder) : list string :=
  match s with
  | Done | Failed _ => []
  | Read None rest => decoded rest d
  | Read (Some value) rest =>
      let (chunk, d') := decode d value in chunk :: decoded rest d'
  end.

Fixpoint completes (s : stream) : bool :=
  match s with
  | Done => true
  | Failed _ => false
  | Read _ rest => completes rest
  end.

(** The body of [ws.onmessage] once [JSON.parse(event.data)] has returned
    [payload]; [None] is the parse error, which the handler only logs, as
    it does the TypeError of reading [type] from null.  The cells are
    strings here: a [message] that is a string, as the relay sends it, is
    stored as it is; of a [message] of another type, which the component
    stores unconverted, the cell keeps the conversion to string. *)
Definition on_payload (payload : option Js.value) (u : ui) : ui :=
  match payload with
  | None => u
  | Some payload =>
      match Js.get payload "type" with
      | None => u
      | Some type =>
          if Js.is_str type "transcript_delta" then
            setTranscript
              (fun prev => prev +:+ Js.to_string (Js.prop payload "text")) u
          else if Js.is_str type "translation_delta" then
            setTranslation
              (fun prev => prev +:+ Js.to_string (Js.prop payload "text")) u
          else if Js.is_str type "status" then
            setStatus
              (Js.to_string (Js.or (Js.prop payload "message") (Js.Str ""))) u
          else if Js.is_str type "error" then
            setError
              (Js.to_string
                 (Js.or (Js.prop payload "message")
                        (Js.Str "Streaming error."))) u
          else u
      end
  end.

(** [ws.onmessage] *)
Definition ws_onmessage (data : string) (u : ui) : ui :=
  on_payload (JSON_parse data) u.

End Platform.

(** The world with [s] appended to the displayed translation. *)
Definition appended (s : string) (w : world) : world :=
  {| w_ui := setTranslation (fun prev => prev +:+ s) (w_ui w);
     w_requests := w_requests w |}.

(** Concatenation of a list of texts. *)
Definition concat_all (l : list string) : string := foldr String.append "" l.

(** What the component shows after a failed transcribe request: no further
    request, no translation, the error text, and the indicators cleared. *)
Definition transcribe_failure_shown (file : File) (res : response)
    (body : string) (w w' : world) : Prop :=
  w_requests w' = w_requests w ++ [Transcribe file]
  /\ translation (w_ui w') = ""
  /\ error (w_ui w')
     = (if String.eqb body "" then "Transcribe " +:+ show (status_code res)
        else body)
  /\ loading (w_ui w') = None
  /\ status (w_ui w') = "".

(** Modelled from the spec: the [transcript_delta] event of the server
    (backend source missing), as the object [JSON.parse] yields for it. *)
Definition transcript_delta (text : string) (is_correction : bool) : Js.value :=
  Js.Obj [("type", Js.Str "transcript_delta"); ("text", Js.Str text);
          ("is_correction", Js.Bool is_correction)].

End App.

(** *** The streaming session of the client: [startRecording],
    [stopRecording] and the handlers they install *)
Module Stream.
Import App.

Inductive ready_state : Type := CONNECTING | OPEN | CLOSING | CLOSED.

(** A WebSocket created by [startRecording].  [calls] is the list of
    [send] calls made on it, each with the [readyState] at the call. *)
Record socket : Type := {
  readyState : ready_state;
  lang : string;           (* [targetLang] in the closure of its handlers *)
  awaiting_media : bool;   (* [onopen] is suspended at [getUserMedia] *)
  calls : list (ready_state * Js.value)
}.

(** The audio graph built by one run of [onopen]: media stream, audio
    context, source node and script processor. *)
Record pipeline : Type := {
  tracks_live : bool;
  context_open : bool;
  source_connected : bool;
  processor_connected : bool
}.

(** The [useRef] cells; sockets and pipelines are named by their index. *)
Record refs : Type := {
  wsRef : option nat;
  audioContextRef : option nat;
  processorRef : option nat;
  sourceRef : option nat;
  mediaStreamRef : option nat
}.

Record client : Type := {
  c_ui : ui;
  sockets : list socket;
  pipelines : list pipeline;
  c_refs : refs
}.

Definition no_refs : refs :=
  {| wsRef := None; audioContextRef := None; processorRef := None;
     sourceRef := None; mediaStreamRef := None |}.

Definition client0 : client :=
  {| c_ui := ui0; sockets := []; pipelines := []; c_refs := no_refs |}.

Definition with_ui (f : ui -> ui) (c : client) : client :=
  {| c_ui := f (c_ui c); sockets := sockets c; pipelines := pipelines c;
     c_refs := c_refs c |}.
Definition with_sockets (f : list socket -> list socket) (c : client) : client :=
  {| c_ui := c_ui c; sockets := f (sockets c); pipelines := pipelines c;
     c_refs := c_refs c |}.
Definition with_pipelines (f : list pipeline -> list pipeline) (c : client)
  : client :=
  {| c_ui := c_ui c; sockets := sockets c; pipelines := f (pipelines c);
     c_refs := c_refs c |}.
Definition with_refs (f : refs -> refs) (c : client) : client :=
  {| c_ui := c_ui c; sockets := sockets c; pipelines := pipelines c;
     c_refs := f (c_refs c) |}.

(** The three directives, as the objects given to [JSON.stringify]. *)
Definition start_msg (target_language : string) : Js.value :=
  Js.Obj [("type", Js.Str "start"); ("target_language", Js.Str target_language)].
Definition audio_msg (data : string) : Js.value :=
  Js.Obj [("type", Js.Str "audio"); ("data", Js.Str data)].
Definition stop_msg : Js.value :=
  Js.Obj [("type", Js.Str "stop")].

(** [ws.send(msg)] on socket [id], recorded with the state it is made in.
    A call made at OPEN transmits the message; the client makes no call in
    another state (see [calls_ok]), where [send] would throw or discard. *)
Definition record_call (msg : Js.value) (s : socket) : socket :=
  {| readyState := readyState s; lang := lang s;
     awaiting_media := awaiting_media s;
     calls := calls s ++ [(readyState s, msg)] |}.
Definition send (id : nat) (msg : Js.value) : client -> client :=
  with_sockets (alter (record_call msg) id).

Definition set_state (r : ready_state) (s : socket) : socket :=
  {| readyState := r; lang := lang s; awaiting_media := awaiting_media s;
     calls := calls s |}.
Definition set_awaiting (b : bool) (s : socket) : socket :=
  {| readyState := readyState s; lang := lang s; awaiting_media := b;
     calls := calls s |}.

(** [ws.close()]: starts the closing handshake unless already closing. *)
Definition closing (s : socket) : socket :=
  match readyState s with
  | CONNECTING | OPEN => set_state CLOSING s
  | CLOSING | CLOSED => s
  end.
Definition close (id : nat) : client -> client :=
  with_sockets (alter closing id).

Definition state_of (id : nat) (c : client) : option ready_state :=
  readyState <$> sockets c !! id.

(** [ref.current?.m()] on a pipeline. *)
Definition on_ref (r : option nat) (f : pipeline -> pipeline) : client -> client :=
  match r with
  | Some p => with_pipelines (alter f p)
  | None => fun c => c
  end.

Definition disconnect_processor (p : pipeline) : pipeline :=
  {| tracks_live := tracks_live p; context_open := context_open p;
     source_connected := source_connected p; processor_connected := false |}.
Definition disconnect_source (p : pipeline) : pipeline :=
  {| tracks_live := tracks_live p; context_open := context_open p;
     source_connected := false; processor_connected := processor_connected p |}.
Definition close_context (p : pipeline) : pipeline :=
  {| tracks_live := tracks_live p; context_open := false;
     source_connected := source_connected p;
     processor_connected := processor_connected p |}.
Definition stop_tracks (p : pipeline) : pipeline :=
  {| tracks_live := false; context_open := context_open p;
     source_connected := source_connected p;
     processor_connected := processor_connected p |}.

(** [wsRef.current?.readyState === WebSocket.OPEN] *)
Definition ws_is_open (c : client) : option nat :=
  match wsRef (c_refs c) with
  | Some id => match state_of id c with
               | Some OPEN => Some id
               | _ => None
               end
  | None => None
  end.

(** [stopRecording] *)
Definition stopRecording (c : client) : client :=
  let c := match ws_is_open c with
           | Some id => send id stop_msg c
           | None => c
           end in
  let c := match wsRef (c_refs c) with
           | Some id => close id c
           | None => c
           end in
  let c := on_ref (processorRef (c_refs c)) disconnect_processor c in
  let c := on_ref (sourceRef (c_refs c)) disconnect_source c in
  let c := on_ref (audioContextRef (c_refs c)) close_context c in
  let c := on_ref (mediaStreamRef (c_refs c)) stop_tracks c in
  let c := with_refs (fun _ => no_refs) c in
  with_ui (fun u => setStatus "" (setLoading None u)) c.

(** [startRecording]; [ctor_error] is the message of the exception thrown
    by [new WebSocket(wsUrl)], if it throws. *)
Definition startRecording (ctor_error : option string) (c : client) : client :=
  let c := with_ui (fun u =>
             setLoading (Some recording)
               (setAudioFile None
                  (setTranslation (put "")
                     (setTranscript (put "")
                        (setStatus "Connecting..." (setError "" u)))))) c in
  match ctor_error with
  | None =>
      let ws := {| readyState := CONNECTING; lang := targetLang (c_ui c);
                   awaiting_media := false; calls := [] |} in
      let id := length (sockets c) in
      let c := with_sockets (fun l => l ++ [ws]) c in
      with_refs (fun r =>
        {| wsRef := Some id; audioContextRef := audioContextRef r;
           processorRef := processorRef r; sourceRef := sourceRef r;
           mediaStreamRef := mediaStreamRef r |}) c
  | Some msg =>
      stopRecording (with_ui (setError ("Mic error: " +:+ msg)) c)
  end.

(** [ws.onopen] up to [await getUserMedia]: the open event of socket [id]. *)
Definition ws_onopen (id : nat) (c : client) : client :=
  match sockets c !! id with
  | Some s =>
      let c := send id (start_msg (lang s)) c in
      with_sockets (alter (set_awaiting true) id) c
  | None => c
  end.

(** The rest of [ws.onopen] when [getUserMedia] resolves; [rate] is the
    sample rate the audio context ends up with. *)
Definition media_granted (rate : N) (c : client) : client :=
  let p := length (pipelines c) in
  let c := with_pipelines (fun l => l ++
             [{| tracks_live := true; context_open := true;
                 source_connected := true; processor_connected := true |}]) c in
  let c := with_ui (setStatus
             (if N.eqb rate 16000 then "Listening..."
              else "Using " +:+ show rate +:+ "Hz input (expected 16000Hz).")) c in
  with_refs (fun r =>
    {| wsRef := wsRef r; audioContextRef := Some p; processorRef := Some p;
       sourceRef := Some p; mediaStreamRef := Some p |}) c.

(** The [catch] block of [ws.onopen]. *)
Definition media_failed (msg : string) (c : client) : client :=
  stopRecording (with_ui (setError ("Mic error: " +:+ msg)) c).

(** [processor.onaudioprocess] with the samples of channel 0. *)
Definition onaudioprocess (input : list Pcm.number) (c : client) : client :=
  match ws_is_open c with
  | None => c
  | Some id =>
      let pcm16 := Pcm.floatTo16BitPCM input in
      let base64 := Base64.encodeBase64 pcm16 in
      send id (audio_msg base64) c
  end.

(** [ws.onerror] *)
Definition ws_onerror (c : client) : client :=
  stopRecording (with_ui (setError "WebSocket connection failed.") c).

(** [ws.onclose] *)
Definition ws_onclose (c : client) : client := stopRecording c.

(** The cleanup of the first [useEffect]. *)
Definition unmount (c : client) : client :=
  let c := match wsRef (c_refs c) with
           | Some id => close id c
           | None => c
           end in
  let c := on_ref (processorRef (c_refs c)) disconnect_processor c in
  let c := on_ref (sourceRef (c_refs c)) disconnect_source c in
  let c := on_ref (audioContextRef (c_refs c)) close_context c in
  on_ref (mediaStreamRef (c_refs c)) stop_tracks c.

(** What can happen to the component while it streams.  A setup that
    throws after [getUserMedia] has resolved and the state writes of the
    upload flow are added to these events in [Component]. *)
Inductive event : Type :=
| ClickRecord (ctor_error : option string)   (* the button runs startRecording *)
| ClickStop                                  (* the button runs stopRecording *)
| WsOpen (id : nat)                          (* open event of a socket *)
| MediaGranted (id : nat) (rate : N)         (* getUserMedia resolved *)
| MediaFailed (id : nat) (message : string)  (* getUserMedia rejected *)
| AudioProcess (p : nat) (input : list Pcm.number)
| WsMessage (id : nat) (data : string)
| WsError (id : nat)                         (* connection failed *)
| WsClose (id : nat)                         (* close event of a socket *)
| Unmount.

Section Platform.
Variable JSON_parse : string -> option Js.value.

(** One event, delivered by the browser when it can occur.  The button
    runs [startRecording] or [stopRecording] according to [loading], a cell
    the upload flow writes as well, so either handler may run at any time.
    A socket opens
    once, from CONNECTING; the continuation of [onopen] runs once; a
    processor fires while it is connected; the error and close events find
    the socket CLOSED.  An event that cannot occur leaves the state as is. *)
Definition step (c : client) (e : event) : client :=
  match e with
  | ClickRecord ctor_error => startRecording ctor_error c
  | ClickStop => stopRecording c
  | WsOpen id =>
      match state_of id c with
      | Some CONNECTING =>
          ws_onopen id (with_sockets (alter (set_state OPEN) id) c)
      | _ => c
      end
  | MediaGranted id rate =>
      match awaiting_media <$> sockets c !! id with
      | Some true =>
          media_granted rate (with_sockets (alter (set_awaiting false) id) c)
      | _ => c
      end
  | MediaFailed id message =>
      match awaiting_media <$> sockets c !! id with
      | Some true =>
          media_failed message (with_sockets (alter (set_awaiting false) id) c)
      | _ => c
      end
  | AudioProcess p input =>
      match processor_connected <$> pipelines c !! p with
      | Some true => onaudioprocess input c
      | _ => c
      end
  | WsMessage id data =>
      match state_of id c with
      | Some _ => with_ui (ws_onmessage JSON_parse data) c
      | None => c
      end
  | WsError id =>
      match state_of id c with
      | Some _ => ws_onerror (with_sockets (alter (set_state CLOSED) id) c)
      | None => c
      end
  | WsClose id =>
      match state_of id c with
      | Some _ => ws_onclose (with_sockets (alter (set_state CLOSED) id) c)
      | None => c
      end
  | Unmount => unmount c
  end.

(** The state after a sequence of events on a freshly mounted component. *)
Definition run (events : list event) : client :=
  fold_left step events client0.

End Platform.

(** The messages transmitted on a socket, in order. *)
Definition sent (s : socket) : list Js.value := (calls s).*2.

(** An audio directive for some frame of samples. *)
Definition is_audio (msg : Js.value) : Prop :=
  exists input : list Pcm.number,
    msg = audio_msg (Base64.encodeBase64 (Pcm.floatTo16BitPCM input)).

(** One of the three directives of the protocol. *)
Definition is_directive (msg : Js.value) : Prop :=
  (exists target_language, msg = start_msg target_language)
  \/ is_audio msg \/ msg = stop_msg.

(** The order of a socket's traffic: nothing at all, or one start, then
    audio frames, then at most one stop, after which nothing follows. *)
Definition ordered (target_language : string) (msgs : list Js.value) : Prop :=
  msgs = []
  \/ exists frames tail,
       msgs = start_msg target_language :: frames ++ tail
       /\ Forall is_audio frames
       /\ (tail = [] \/ tail = [stop_msg]).

(** Every call was made on an open socket with one of the directives. *)
Definition calls_ok (s : socket) : Prop :=
  Forall (fun call => call.1 = OPEN /\ is_directive call.2) (calls s).

(** The invariant of a socket: what has been sent, by ready state. *)
Definition socket_ok (s : socket) : Prop :=
  calls_ok s
  /\ match readyState s with
     | CONNECTING => calls s = []
     | OPEN => exists frames,
                 sent s = start_msg (lang s) :: frames /\ Forall is_audio frames
     | CLOSING | CLOSED => ordered (lang s) (sent s)
     end.

(** The invariant of the client: every socket it created is in order. *)
Definition client_ok (c : client) : Prop := Forall socket_ok (sockets c).

End Stream.

(** *** The relay behind the WebSocket

    The backend service (reconciler, chunker, redundancy filter and
    translation relay) is not part of the sources at hand; the definitions
    of this module follow its specification. *)
Module Relay.

Definition text : Type := list ascii.

(** **** Reconciliation *)

(** Modelled from the spec: the transcript fragment of the ASR relay
    (backend source missing).  A fragment carries its text, the flag telling
    whether it replaces a trailing portion of the running transcript, the
    length of the tail it supersedes, and the upstream sequence number. *)
Record fragment : Type := {
  frag_text : text;
  is_correction : bool;
  supersedes : nat;
  frag_seq : nat
}.

(** Modelled from the spec: the running transcript of a session with its
    frozen boundary (backend source missing). *)
Record running_transcript : Type := {
  running : text;
  frozen : nat
}.

Definition transcript0 : running_transcript := {| running := []; frozen := 0 |}.

(** Modelled from the spec: the reconciler (backend source missing).  It
    replaces exactly the superseded tail and appends the fragment's text;
    when the superseded span reaches below the frozen boundary, the part of
    the fragment that would rewrite frozen text (its conflicting prefix) is
    discarded and only the rest is applied after the boundary. *)
Definition reconcile (f : fragment) (t : running_transcript) : running_transcript :=
  let n := length (running t) in
  let span := if is_correction f then Nat.min (supersedes f) n else 0%nat in
  let start := (n - span)%nat in
  if decide (frozen t <= start)%nat then
    {| running := take start (running t) ++ frag_text f; frozen := frozen t |}
  else
    {| running := take (frozen t) (running t)
                  ++ drop (frozen t - start) (frag_text f);
       frozen := frozen t |}.

(** Modelled from the spec: the frozen boundary advances to the end offset
    of a chunk accepted by the redundancy filter (backend source missing);
    it never moves back nor past the end of the transcript. *)
Definition freeze (upto : nat) (t : running_transcript) : running_transcript :=
  {| running := running t;
     frozen := Nat.max (frozen t) (Nat.min upto (length (running t))) |}.

(** What happens to the running transcript of a session: a fragment is
    reconciled, or the boundary advances.  The list order is the sequence
    order in which the relay applies fragments. *)
Inductive transcript_op : Type :=
| Apply (f : fragment)
| Freeze (upto : nat).

Definition transcript_step (t : running_transcript) (o : transcript_op)
  : running_transcript :=
  match o with
  | Apply f => reconcile f t
  | Freeze upto => freeze upto t
  end.

Definition transcript_run (ops : list transcript_op) (t : running_transcript)
  : running_transcript :=
  fold_left transcript_step ops t.

(** The text before the frozen boundary. *)
Definition frozen_text (t : running_transcript) : text := take (frozen t) (running t).

(** **** Chunking *)

(** Modelled from the spec: the configuration surface of the relay
    (backend source missing): chunk size threshold in characters, chunk
    emission interval in seconds, minimum alphanumeric count, redundancy
    overlap ratio threshold and redundancy minimum token count. *)
Record config : Type := {
  chunk_chars : nat;
  chunk_interval : Q;
  min_alnum : nat;
  redundancy_overlap : Q;
  redundancy_min_tokens : nat
}.

Definition between (lo hi : N) (c : ascii) : bool :=
  (lo <=? N_of_ascii c)%N && (N_of_ascii c <=? hi)%N.

Definition is_alnum (c : ascii) : bool :=
  between 48 57 c || between 65 90 c || between 97 122 c.

Definition alnum_count (s : text) : nat := length (List.filter is_alnum s).

Inductive trigger : Type := BySize | ByTime | ByFlush.

(** Modelled from the spec: the trigger conditions of the chunker (backend
    source missing), first to fire wins: the size threshold with the
    minimum alphanumeric count; the interval since the last emission for a
    non-empty span with the minimum alphanumeric count; the flush request
    of the session controller, which bypasses the thresholds. *)
Definition chunk_ready (cfg : config) (span : text) (elapsed : Q)
    (flush_requested : bool) : option trigger :=
  if bool_decide (chunk_chars cfg <= length span)%nat
     && bool_decide (min_alnum cfg <= alnum_count span)%nat
  then Some BySize
  else if Qle_bool (chunk_interval cfg) elapsed
          && bool_decide (span <> [])
          && bool_decide (min_alnum cfg <= alnum_count span)%nat
  then Some ByTime
  else if flush_requested then Some ByFlush
  else None.

(** **** Redundancy filter *)

Definition exceeds (x y : Q) : bool := negb (Qle_bool x y).

Inductive verdict (token : Type) : Type :=
| Forward (c : list token)
| Dropped.
Arguments Forward {token} c.
Arguments Dropped {token}.

Section Method.
(** Modelled from the spec: the comparison method of the redundancy filter
    (backend source missing).  The spec leaves the method open (character
    n-grams or word tokens, how case and punctuation are normalized), so
    the filter is modelled for every method: any type of tokens, any
    normalized comparison [same] of two tokens, and any count [alnum] of
    the alphanumeric characters of the text a run of tokens stands for. *)
Context {token : Type}.
Variable same : token -> token -> bool.
Variable alnum : list token -> nat.

Fixpoint all_same (xs ys : list token) : bool :=
  match xs, ys with
  | [], [] => true
  | x :: xs, y :: ys => same x y && all_same xs ys
  | _, _ => false
  end.


(** The last [k] tokens of [prev] are the first [k] tokens of [cand]. *)
Definition overlaps_by (k : nat) (prev cand : list token) : bool :=
  all_same (drop (length prev - k) prev) (take k cand).

Fixpoint overlap_upto (n : nat) (prev cand : list token) : nat :=
  match n with
  | O => O
  | S n' => if overlaps_by n prev cand then n else overlap_upto n' prev cand
  end.

(** Modelled from the spec: the number of leading tokens of the candidate
    shared with the trailing tokens of the last accepted chunk (backend
    source missing): the longest such run. *)
Definition overlap (prev cand : list token) : nat :=
  overlap_upto (Nat.min (length prev) (length cand)) prev cand.

(** Shared tokens over candidate tokens. *)
Definition overlap_ratio (prev cand : list token) : Q :=
  Z.of_nat (overlap prev cand) # Pos.of_nat (length cand).

(** The condition under which the filter trims. *)
Definition redundant (cfg : config) (prev cand : list token) : bool :=
  exceeds (overlap_ratio prev cand) (redundancy_overlap cfg)
  && bool_decide (redundancy_min_tokens cfg < overlap prev cand)%nat.

(** Modelled from the spec: the redundancy filter (backend source
    missing).  When the overlap ratio exceeds the threshold and the number
    of overlapping tokens exceeds the minimum, the overlapping prefix is
    trimmed; a trimmed candidate below the minimum alphanumeric count is
    dropped. *)
Definition redundancy_filter (cfg : config) (prev cand : list token)
    : verdict token :=
  if redundant cfg prev cand then
    let trimmed := drop (overlap prev cand) cand in
    if bool_decide (alnum trimmed < min_alnum cfg)%nat then Dropped
    else Forward trimmed
  else Forward cand.

End Method.

(** A chunk as a word-based filter sees it: its whitespace-separated
    words. *)
Definition chunk : Type := list string.






(** **** Ordered release of translation fragments *)

(** What the translation engine delivers, in any interleaving. *)
Inductive upstream : Type :=
| Fragment (chunk_no : nat) (text : string)
| Completed (chunk_no : nat).

(** Modelled from the spec: the per-session output queue of the
    translation relay (backend source missing).  [next_chunk] is the chunk
    whose fragments are being released; fragments of later chunks wait in
    [pending]; [finished] holds later chunks whose response has ended;
    [emitted] is the stream of translation events sent to the client. *)
Record outq : Type := {
  next_chunk : nat;
  pending : gmap nat (list string);
  finished : gset nat;
  emitted : list (nat * string)
}.

Definition outq0 : outq :=
  {| next_chunk := 0; pending := ∅; finished := ∅; emitted := [] |}.

(** Move on to the next chunk and release what waited for it. *)
Definition open_next (q : outq) : outq :=
  let n := S (next_chunk q) in
  {| next_chunk := n;
     pending := delete n (pending q);
     finished := finished q;
     emitted := emitted q ++ map (pair n) (default [] (pending q !! n)) |}.

Definition unfinish (q : outq) : outq :=
  {| next_chunk := next_chunk q; pending := pending q;
     finished := finished q ∖ {[next_chunk q]}; emitted := emitted q |}.

(** Modelled from the spec: the release loop of the output queue (backend
    source missing): keep moving while the chunk being released has already
    ended. *)
Equations? release (q : outq) : outq by wf (size (finished q)) lt :=
  release q with decide (next_chunk q ∈ finished q) := {
    | left _ => release (open_next (unfinish q))
    | right _ => q
  }.
Proof.
  simpl. apply subset_size, subset_difference_elem_of. assumption.
Qed.

(** Modelled from the spec: what the output queue does with one upstream
    delivery (backend source missing).  A fragment of the chunk being
    released is emitted at once, a fragment of a later chunk waits, and the
    end of the chunk being released opens the next one. *)
Definition receive (q : outq) (u : upstream) : outq :=
  match u with
  | Fragment n text =>
      if decide (n = next_chunk q) then
        {| next_chunk := next_chunk q; pending := pending q;
           finished := finished q; emitted := emitted q ++ [(n, text)] |}
      else if decide (next_chunk q < n)%nat then
        {| next_chunk := next_chunk q;
           pending := <[n := default [] (pending q !! n) ++ [text]]> (pending q);
           finished := finished q; emitted := emitted q |}
      else q
  | Completed n =>
      if decide (n = next_chunk q) then release (open_next q)
      else if decide (next_chunk q < n)%nat then
        {| next_chunk := next_chunk q; pending := pending q;
           finished := finished q ∪ {[n]}; emitted := emitted q |}
      else q
  end.

Definition relay_run (arrivals : list upstream) : outq :=
  fold_left receive arrivals outq0.

(** **** Properties of the relay used in the statements below *)

(** The frozen boundary lies within the running transcript. *)
Definition bounded (t : running_transcript) : Prop :=
  (frozen t <= length (running t))%nat.

(** The configuration given in the README of the repository. *)
Definition readme_config : config :=
  {| chunk_chars := 40; chunk_interval := 7 # 10; min_alnum := 2;
     redundancy_overlap := 85 # 100; redundancy_min_tokens := 3 |}.

(** No entry of a later chunk comes before an entry of an earlier one. *)
Definition in_chunk_order (l : list (nat * string)) : Prop :=
  forall i j x y, l !! i = Some x -> l !! j = Some y -> (i < j)%nat ->
                  (x.1 <= y.1)%nat.

Definition below (n : nat) (l : list (nat * string)) : Prop :=
  Forall (fun x => (x.1 <= n)%nat) l.

Definition queue_ok (q : outq) : Prop :=
  in_chunk_order (emitted q) /\ below (next_chunk q) (emitted q).

(** The texts of chunk [n] in the emitted stream and in the arrivals. *)
Definition texts_of (n : nat) (l : list (nat * string)) : list string :=
  flat_map (fun x => if decide (x.1 = n) then [x.2] else []) l.

Definition fragments_of (n : nat) (l : list upstream) : list string :=
  flat_map (fun u => match u with
                     | Fragment m text => if decide (m = n) then [text] else []
                     | Completed _ => []
                     end) l.

(** No fragment of a chunk arrives after the end of that chunk's response;
    [closed] lists the chunks already ended. *)
Fixpoint no_late_fragment (closed : list nat) (l : list upstream) : bool :=
  match l with
  | [] => true
  | Fragment n _ :: l' => bool_decide (n ∉ closed) && no_late_fragment closed l'
  | Completed n :: l' => no_late_fragment (n :: closed) l'
  end.

(** What the queue holds, against the arrivals [seen] so far. *)
Definition tracks (seen : list upstream) (q : outq) : Prop :=
  (forall n, (n < next_chunk q)%nat -> Completed n ∈ seen)
  /\ (forall n, n ∈ finished q -> Completed n ∈ seen)
  /\ (forall n, (n <= next_chunk q)%nat -> pending q !! n = None)
  /\ (forall n, texts_of n (emitted q) ++ default [] (pending q !! n)
                = fragments_of n seen).

(** The chunks already left behind have ended, whatever arrives. *)
Definition ended_before (seen : list upstream) (q : outq) : Prop :=
  (forall n, (n < next_chunk q)%nat -> Completed n ∈ seen)
  /\ (forall n, n ∈ finished q -> Completed n ∈ seen).

End Relay.

(** *** Sample data for the concrete runs of Part II *)
Module Samples.
Import App Stream.

Definition quote : string := String (ascii_of_nat 34) "".
Definition quoted (s : string) : string := quote +:+ s +:+ quote.

(** The JSON text of an object with one string member. *)
Definition json1 (k v : string) : string :=
  "{" +:+ quoted k +:+ ":" +:+ quoted v +:+ "}".

(** The body of a successful transcribe response. *)
Definition transcribed : string := json1 "text" "good morning".

(** The JSON text of a [transcript_delta] event marked as a correction. *)
Definition correction_frame : string :=
  "{" +:+ quoted "type" +:+ ":" +:+ quoted "transcript_delta" +:+ ","
  +:+ quoted "text" +:+ ":" +:+ quoted "the mat" +:+ ","
  +:+ quoted "is_correction" +:+ ":true}".

(** The same event, not marked as a correction. *)
Definition plain_frame : string :=
  "{" +:+ quoted "type" +:+ ":" +:+ quoted "transcript_delta" +:+ ","
  +:+ quoted "text" +:+ ":" +:+ quoted "the mat" +:+ ","
  +:+ quoted "is_correction" +:+ ":false}".

(** [JSON.parse] on the texts above; any other text is taken as malformed. *)
Definition parse (s : string) : option Js.value :=
  if String.eqb s transcribed then
    Some (Js.Obj [("text", Js.Str "good morning")])
  else if String.eqb s correction_frame then
    Some (transcript_delta "the mat" true)
  else if String.eqb s plain_frame then
    Some (transcript_delta "the mat" false)
  else None.

(** A decoder for streams of ASCII bytes: nothing is ever pending. *)
Definition ascii_decode (d : unit) (bytes : list Z) : string * unit :=
  (Base64.fromCharCode bytes, d).

Definition recording_file : File :=
  {| file_name := "clip.webm"; file_type := "audio/webm" |}.

(** A translate response delivered as a stream of three reads. *)
Definition streamed : stream :=
  Read (Some [115; 97]) (Read None (Read (Some [98; 97; 104]) Done)).

Definition transcribe_ok : response :=
  {| ok := true; status_code := 200; text_ := Ok transcribed; reader := None |}.
Definition translate_streamed : response :=
  {| ok := true; status_code := 200;
     text_ := Thrown "body stream is locked"; reader := Some streamed |}.
Definition translate_whole : response :=
  {| ok := true; status_code := 200; text_ := Ok "good morning";
     reader := None |}.
Definition transcribe_unavailable : response :=
  {| ok := false; status_code := 503; text_ := Ok ""; reader := None |}.

(** A server that streams Arabic translations and returns the others in
    one piece. *)
Definition server : network :=
  fun req =>
    match req with
    | Transcribe _ => Ok transcribe_ok
    | Translate _ target_language =>
        if String.eqb target_language "Arabic" then Ok translate_streamed
        else Ok translate_whole
    end.

(** A server whose transcribe endpoint is down. *)
Definition server_down : network :=
  fun req =>
    match req with
    | Transcribe _ => Ok transcribe_unavailable
    | Translate _ _ => Ok translate_whole
    end.

Definition world0 : world := {| w_ui := ui0; w_requests := [] |}.
Definition world_en : world :=
  {| w_ui := {| audioFile := None; targetLang := "English"; transcript := "";
                translation := ""; loading := None; error := "";
                status := "" |};
     w_requests := [] |}.

(** A component that displays a transcript with a misrecognised word. *)
Definition showing : ui := setTranscript (put "the cat sat on teh") ui0.

(** A span of 35 characters. *)
Definition span35 : Relay.text :=
  list_ascii_of_string "the quick brown fox jumps over lazy".

(** A session the server ends: one audio frame, then the close event. *)
Definition closed_by_server : list event :=
  [ClickRecord None; WsOpen 0; MediaGranted 0 16000;
   AudioProcess 0 [Pcm.Finite (1 # 2)]; WsClose 0].

End Samples.

(** *** Order and rounding of samples, for the statements on
    [floatTo16BitPCM] *)
Module PcmOrder.
Import Pcm.

(** The order of samples that are numbers: from -Infinity to Infinity. *)
Definition num_le (x y : number) : Prop :=
  match x, y with
  | NaN, _ | _, NaN => False
  | Infinity true, _ => True
  | _, Infinity false => True
  | Finite p, Finite q => (p <= q)%Q
  | _, _ => False
  end.

(** The clamped value of a sample that is a number. *)
Definition clampQ (x : number) : Q :=
  match x with
  | NaN => 0
  | Infinity true => -1
  | Infinity false => 1
  | Finite q => if Qle_bool 1 q then 1 else if Qle_bool q (-1) then -1 else q
  end.

(** The exact value the loop scales a clamped sample to, before it is
    truncated by the store. *)
Definition scaledQ (q : Q) : Q :=
  if Qle_bool 0 q then (q * 32767)%Q else (q * 32768)%Q.

(** How full-scale and invalid samples are stored. *)
Definition saturates (x : number) (y : Z) : Prop :=
  match x with
  | NaN => y = 0
  | Infinity true => y = -32768
  | Infinity false => y = 32767
  | Finite q =>
      ((1 <= q)%Q -> y = 32767) /\ ((q <= -1)%Q -> y = -32768)
      /\ ((q == 0)%Q -> y = 0)
  end.

(** The stored value of a sample within [-1, 1] is its scaled value
    rounded toward zero. *)
Definition quantised (x : number) (y : Z) : Prop :=
  match x with
  | Finite q =>
      (-1 <= q)%Q -> (q <= 1)%Q ->
      if Qle_bool 0 q
      then (inject_Z y <= scaledQ q)%Q /\ (scaledQ q < inject_Z (y + 1))%Q
      else (inject_Z (y - 1) < scaledQ q)%Q /\ (scaledQ q <= inject_Z y)%Q
  | _ => True
  end.

(** Truncation toward zero of a rational. *)
Definition truncQ (q : Q) : Z := Z.quot (Qnum q) (Z.pos (Qden q)).
End PcmOrder.

(** *** Reading base64 back

    The client only encodes.  The decoder below is the inverse used to
    state that [encodeBase64] loses nothing of a frame; it is what a
    receiver of the audio directive computes. *)
Module Atob.
Import Base64.

Definition pad : ascii := "="%char.

Fixpoint index_of (c : ascii) (s : string) (i : Z) : option Z :=
  match s with
  | EmptyString => None
  | String c' s' => if Ascii.eqb c c' then Some i else index_of c s' (i + 1)
  end.

(** The six bits a base64 character stands for. *)
Definition sextet (c : ascii) : option Z := index_of c alphabet 0.

Definition byte1 (s1 s2 : Z) : Z :=
  byte_of (Z.lor (Z.shiftl s1 2) (Z.shiftr s2 4)).
Definition byte2 (s2 s3 : Z) : Z :=
  byte_of (Z.lor (Z.shiftl s2 4) (Z.shiftr s3 2)).
Definition byte3 (s3 s4 : Z) : Z := byte_of (Z.lor (Z.shiftl s3 6) s4).

(** Groups of four characters back to bytes; padding ends the text. *)
Fixpoint decode (cs : list ascii) : option (list Z) :=
  match cs with
  | [] => Some []
  | c1 :: c2 :: c3 :: c4 :: rest =>
      s1 ← sextet c1; s2 ← sextet c2;
      if Ascii.eqb c4 pad && bool_decide (rest = []) then
        if Ascii.eqb c3 pad then Some [byte1 s1 s2]
        else s3 ← sextet c3; Some [byte1 s1 s2; byte2 s2 s3]
      else
        s3 ← sextet c3; s4 ← sextet c4; bytes ← decode rest;
        Some (byte1 s1 s2 :: byte2 s2 s3 :: byte3 s3 s4 :: bytes)
  | _ => None
  end.

(** Pairs of bytes back to signed 16-bit values, low byte first. *)
Fixpoint int16s (bytes : list Z) : option (list Z) :=
  match bytes with
  | [] => Some []
  | lo :: hi :: rest =>
      vs ← int16s rest; Some (Pcm.wrap16 (lo + 256 * hi) :: vs)
  | _ => None
  end.

(** From the text of an audio directive back to the frame. *)
Definition decodeBase64 (s : string) : option (list Z) :=
  decode (list_ascii_of_string s) ≫= int16s.

(** Four characters for every three bytes, the last group padded. *)
Definition encoded_length (bytes : nat) : nat := (4 * ((bytes + 2) / 3))%nat.

(** A character of the base64 alphabet, or the padding character. *)
Definition base64_char (c : ascii) : Prop :=
  is_Some (sextet c) \/ c = pad.

Definition is_byte (b : Z) : Prop := 0 <= b < 256.

(** The integers [0 .. n-1], for checks by enumeration. *)
Definition range (n : nat) : list Z := map Z.of_nat (seq 0 n).

End Atob.

(** *** Typed arrays as views of a buffer

    An Int16Array is a view of an ArrayBuffer: [length16] elements read
    from [byteOffset] on.  [encodeBase64] reads [input.buffer], which is
    the whole buffer whatever part of it the view shows. *)
Module TypedArray.
Import Base64.

Record Int16Array : Type := {
  buffer : list Z;
  byteOffset : nat;
  length16 : nat
}.

(** [new Int16Array(n)] once its elements are stored: the array owns a
    buffer of [2 * n] bytes.  The array [floatTo16BitPCM] returns is of
    this kind. *)
Definition allocated (elements : list Z) : Int16Array :=
  {| buffer := buffer_bytes elements;
     byteOffset := 0;
     length16 := length elements |}.

(** [array.subarray(b, e)], for [b <= e <= array.length]: another view of
    the same buffer. *)
Definition subarray16 (array : Int16Array) (b e : nat) : Int16Array :=
  {| buffer := buffer array;
     byteOffset := byteOffset array + 2 * b;
     length16 := e - b |}.

(** The elements a view shows. *)
Definition elements (array : Int16Array) : option (list Z) :=
  Atob.int16s
    (take (2 * length16 array) (drop (byteOffset array) (buffer array))).

(** [new Uint8Array(input.buffer)] *)
Definition Uint8Array_of (buf : list Z) : list Z := map byte_of buf.

(** [encodeBase64] on an array that may be a view. *)
Definition encodeBase64 (input : Int16Array) : string :=
  btoa (loop chunkSize_pred (Uint8Array_of (buffer input)) 0 "").

End TypedArray.

(** *** The other entry points of the upload flow: [handleUpload] and the
    language select *)
Module Upload.
Import App.

Definition setTargetLang (l : string) (u : ui) : ui :=
  {| audioFile := audioFile u; targetLang := l; transcript := transcript u;
     translation := translation u; loading := loading u; error := error u;
     status := status u |}.

(** The rejection that ends the reads of a stream, if one does. *)
Fixpoint stream_error (s : stream) : option string :=
  match s with
  | Done => None
  | Failed message => Some message
  | Read _ rest => stream_error rest
  end.

Section Platform.
Variable JSON_parse : string -> option Js.value.
Variable decoder : Type.
Variable decoder_new : decoder.
Variable decode : decoder -> list Z -> string * decoder.
Variable net : network.

(** [handleUpload] *)
Definition handleUpload (file : option File) : M unit :=
  match file with
  | None => ret tt
  | Some f =>
      bind (update (setError "")) (fun _ =>
      bind (update (setTranscript (put ""))) (fun _ =>
      bind (update (setTranslation (put ""))) (fun _ =>
      bind (update (setAudioFile (Some f))) (fun _ =>
      processAudio JSON_parse decoder decoder_new decode net (Some f)))))
  end.

(** The effect that depends on [targetLang], run after a render in which
    the language has changed. *)
Definition targetLang_effect : M unit :=
  bind (gets audioFile) (fun file =>
  bind (gets loading) (fun l =>
  match file, l with
  | Some f, None =>
      bind (update (setTranslation (put ""))) (fun _ =>
      processAudio JSON_parse decoder decoder_new decode net (Some f))
  | _, _ => ret tt
  end)).

(** The [onChange] handler of the language select with the render and the
    effect it causes: choosing the language already selected changes no
    state, and the control is disabled while recording. *)
Definition select_language (l : string) : M unit :=
  bind (gets loading) (fun busy =>
  bind (gets targetLang) (fun current =>
  match busy with
  | Some recording => ret tt
  | _ =>
      if String.eqb l current then ret tt
      else bind (update (setTargetLang l)) (fun _ => targetLang_effect)
  end)).

(** The text the translate request carries when the transcribe step gets
    that far (the request is answered, the body is read, the answer is ok
    and the body parses to a value other than null): [String(text || "")]
    of the [text] member of the parsed value, which is the empty text when
    the value has no such member. *)
Definition transcribed_text (file : File) : option string :=
  match net (Transcribe file) with
  | Ok res =>
      match text_ res with
      | Ok body =>
          if ok res then
            match JSON_parse body with
            | Some parsed =>
                match Js.get parsed "text" with
                | Some text => Some (Js.to_string (Js.or text (Js.Str "")))
                | None => None
                end
            | None => None
            end
          else None
      | Thrown _ => None
      end
  | Thrown _ => None
  end.

(** The translate request [processAudio] issues, if it issues one. *)
Definition translate_request (file : File) (lang : string) : list request :=
  match transcribed_text file with
  | Some text => [Translate text lang]
  | None => []
  end.

End Platform.

(** How a read loop ends. *)
Definition outcome_of (e : option string) : result unit :=
  match e with
  | None => Ok tt
  | Some message => Thrown message
  end.

End Upload.

(** *** Properties of a streaming session *)
Module Session.
Import App Stream.

(** A pipeline all of whose parts have been released. *)
Definition released : pipeline :=
  {| tracks_live := false; context_open := false; source_connected := false;
     processor_connected := false |}.

(** [close()] has been called on the socket, or it is closed. *)
Definition closing_or_closed (s : socket) : Prop :=
  readyState s = CLOSING \/ readyState s = CLOSED.

End Session.

(** *** Sequences of message events and of audio frames *)
Module Deltas.
Import App.

(** The two kinds of text the server streams. *)
Inductive delta : Type :=
| TranscriptDelta (text : string)
| TranslationDelta (text : string).

(** The parsed event is a delta of that kind with that text. *)
Definition carries (payload : Js.value) (d : delta) : Prop :=
  match d with
  | TranscriptDelta text =>
      Js.get payload "type" = Some (Js.Str "transcript_delta")
      /\ Js.prop payload "text" = Js.Str text
  | TranslationDelta text =>
      Js.get payload "type" = Some (Js.Str "translation_delta")
      /\ Js.prop payload "text" = Js.Str text
  end.

Definition transcript_texts (ds : list delta) : list string :=
  flat_map (fun d => match d with TranscriptDelta t => [t] | _ => [] end) ds.
Definition translation_texts (ds : list delta) : list string :=
  flat_map (fun d => match d with TranslationDelta t => [t] | _ => [] end) ds.

(** The state after a sequence of message events. *)
Definition receive_all (JSON_parse : string -> option Js.value)
    (frames : list string) (u : ui) : ui :=
  fold_left (fun u data => ws_onmessage JSON_parse data u) frames u.

(** The audio directive for one captured frame. *)
Definition frame_msg (input : list Pcm.number) : Js.value :=
  Stream.audio_msg (Base64.encodeBase64 (Pcm.floatTo16BitPCM input)).

End Deltas.

(** *** The whole component: streaming, failed setups and the upload flow

    The streaming events of [Stream] are joined by the two things that can
    happen between them: a statement of [ws.onopen] after [getUserMedia]
    throws, and the upload flow or the language select writes a state
    cell (the file input is never disabled, the select only while
    [loading] is recording). *)
Module Component.
Import App Stream.

(** The statement of the [try] block of [ws.onopen] that throws, once
    [getUserMedia] has resolved and [mediaStreamRef] has been assigned. *)
Inductive setup_stage : Type :=
| NewAudioContext            (* new AudioContext({ sampleRate: 16000 }) *)
| CreateMediaStreamSource    (* audioContext.createMediaStreamSource(stream) *)
| CreateScriptProcessor      (* audioContext.createScriptProcessor(4096, 1, 1) *)
| ConnectSource              (* source.connect(processor) *)
| ConnectProcessor.          (* processor.connect(audioContext.destination) *)

(** The number of statements that create or connect a node and have
    completed before the one that throws. *)
Definition completed (stage : setup_stage) : nat :=
  match stage with
  | NewAudioContext => 0
  | CreateMediaStreamSource => 1
  | CreateScriptProcessor => 2
  | ConnectSource => 3
  | ConnectProcessor => 4
  end.

(** The rest of [ws.onopen] when [getUserMedia] resolves and a later
    statement throws: the refs assigned before the throw name the new
    pipeline, the others keep what they held; then the [catch] block
    runs.  In the new pipeline the tracks are live, the context is open
    once it has been created, the source is connected once
    [source.connect] has returned, and the processor never is. *)
Definition setup_failed (rate : N) (stage : setup_stage) (message : string)
    (c : client) : client :=
  let p := length (pipelines c) in
  let done := completed stage in
  let c := with_pipelines (fun l => l ++
             [{| tracks_live := true; context_open := (1 <=? done)%nat;
                 source_connected := (4 <=? done)%nat;
                 processor_connected := false |}]) c in
  let c := with_refs (fun r =>
             {| wsRef := wsRef r;
                audioContextRef :=
                  if (1 <=? done)%nat then Some p else audioContextRef r;
                processorRef :=
                  if (3 <=? done)%nat then Some p else processorRef r;
                sourceRef :=
                  if (2 <=? done)%nat then Some p else sourceRef r;
                mediaStreamRef := Some p |}) c in
  let c := if (1 <=? done)%nat
           then with_ui (setStatus
                  (if N.eqb rate 16000 then "Listening..."
                   else "Using " +:+ show rate
                        +:+ "Hz input (expected 16000Hz).")) c
           else c in
  media_failed message c.

(** A state write of [handleUpload], of [processAudio] or of the language
    select: any cell, but [loading] only to process or to null. *)
Inductive upload_write : Type :=
| WriteError (message : string)
| WriteTranscript (f : string -> string)
| WriteTranslation (f : string -> string)
| WriteStatus (s : string)
| WriteLoading (busy : bool)
| WriteAudioFile (file : File)
| WriteTargetLang (l : string).

Definition apply_write (w : upload_write) (u : ui) : ui :=
  match w with
  | WriteError message => setError message u
  | WriteTranscript f => setTranscript f u
  | WriteTranslation f => setTranslation f u
  | WriteStatus s => setStatus s u
  | WriteLoading busy => setLoading (if busy then Some process else None) u
  | WriteAudioFile file => setAudioFile (Some file) u
  | WriteTargetLang l => Upload.setTargetLang l u
  end.

Definition apply_writes (ws : list upload_write) (u : ui) : ui :=
  fold_left (fun u w => apply_write w u) ws u.

(** The computation changes the state cells by upload writes only. *)
Definition writes_only {A : Type} (m : M A) : Prop :=
  forall w, exists ws, w_ui (m w).2 = apply_writes ws (w_ui w).

Inductive event : Type :=
| Streaming (e : Stream.event)
| SetupFailed (id : nat) (rate : N) (stage : setup_stage) (message : string)
| UploadWrite (w : upload_write).

Section Platform.
Variable JSON_parse : string -> option Js.value.

(** One event.  The continuation of [onopen] runs once, to its end or to
    the statement that throws; an upload write can come at any time. *)
Definition step (c : client) (e : event) : client :=
  match e with
  | Streaming e => Stream.step JSON_parse c e
  | SetupFailed id rate stage message =>
      match awaiting_media <$> sockets c !! id with
      | Some true =>
          setup_failed rate stage message
            (with_sockets (alter (set_awaiting false) id) c)
      | _ => c
      end
  | UploadWrite w => with_ui (apply_write w) c
  end.

(** The state after a sequence of events on a freshly mounted component. *)
Definition run (events : list event) : client :=
  fold_left step events client0.

End Platform.

(** [ref.current?.m()] on the list of pipelines. *)
Definition alter_at (f : pipeline -> pipeline) (r : option nat)
    (l : list pipeline) : list pipeline :=
  match r with
  | Some p => alter f p l
  | None => l
  end.

(** What [stopRecording] and the unmount cleanup do to the pipelines: each
    ref releases the part it names. *)
Definition release (r : refs) (l : list pipeline) : list pipeline :=
  alter_at stop_tracks (mediaStreamRef r)
    (alter_at close_context (audioContextRef r)
       (alter_at disconnect_source (sourceRef r)
          (alter_at disconnect_processor (processorRef r) l))).

(** The button shows Stop only while a socket is attached. *)
Definition has_socket (c : client) : Prop :=
  loading (c_ui c) = Some recording ->
  exists id, wsRef (c_refs c) = Some id /\ (id < length (sockets c))%nat.

(** Each audio ref that is set names a pipeline that exists. *)
Definition refs_bounded (c : client) : Prop :=
  forall p,
    processorRef (c_refs c) = Some p \/ sourceRef (c_refs c) = Some p
    \/ audioContextRef (c_refs c) = Some p
    \/ mediaStreamRef (c_refs c) = Some p ->
    (p < length (pipelines c))%nat.

(** [y] is [x] with some of its parts switched off, none switched on. *)
Definition faded (x y : pipeline) : Prop :=
  (tracks_live y = true -> tracks_live x = true)
  /\ (context_open y = true -> context_open x = true)
  /\ (source_connected y = true -> source_connected x = true)
  /\ (processor_connected y = true -> processor_connected x = true).

End Component.

(** *** More sample data *)
Module Samples2.
Import App Stream Samples.

Definition quiet_frame : list Pcm.number :=
  [Pcm.Finite (-3 # 2); Pcm.Finite (1 # 4); Pcm.Infinity true].
Definition loud_frame : list Pcm.number :=
  [Pcm.Finite (-1 # 2); Pcm.Finite (1 # 2); Pcm.Finite 0].

Definition translate_overloaded : response :=
  {| ok := false; status_code := 500; text_ := Ok "model overloaded";
     reader := None |}.

(** A stream that delivers one chunk and then fails. *)
Definition cut_stream : stream :=
  Read (Some [115; 97]) (Failed "network error").
Definition translate_cut : response :=
  {| ok := true; status_code := 200;
     text_ := Thrown "body stream is locked"; reader := Some cut_stream |}.

(** A server whose translate endpoint is overloaded. *)
Definition server_overloaded : network :=
  fun req =>
    match req with
    | Transcribe _ => Ok transcribe_ok
    | Translate _ _ => Ok translate_overloaded
    end.

(** A server whose translation stream breaks. *)
Definition server_cut : network :=
  fun req =>
    match req with
    | Transcribe _ => Ok transcribe_ok
    | Translate _ _ => Ok translate_cut
    end.

(** [JSON.parse] that also reads the empty object. *)
Definition parse_more (s : string) : option Js.value :=
  if String.eqb s "{}" then Some (Js.Obj []) else parse s.

(** A server whose transcribe response has no [text] member. *)
Definition server_textless : network :=
  fun req =>
    match req with
    | Transcribe _ =>
        Ok {| ok := true; status_code := 200; text_ := Ok "{}";
              reader := None |}
    | Translate _ _ => Ok translate_whole
    end.

(** A component that holds an uploaded file and is idle. *)
Definition world_idle : world :=
  {| w_ui := setAudioFile (Some recording_file) ui0; w_requests := [] |}.

(** A component that holds a file and is processing it. *)
Definition world_processing : world :=
  {| w_ui := setLoading (Some process) (setAudioFile (Some recording_file) ui0);
     w_requests := [] |}.

(** A session that is streaming audio. *)
Definition streaming : list event :=
  [ClickRecord None; WsOpen 0; MediaGranted 0 16000].

(** A session the user has stopped. *)
Definition stopped : list event := [ClickRecord None; WsOpen 0; ClickStop].

(** The socket of the stopped session. *)
Definition stopped_socket : socket :=
  {| readyState := CLOSING; lang := "Arabic"; awaiting_media := true;
     calls := [(OPEN, start_msg "Arabic"); (OPEN, stop_msg)] |}.

(** The socket and the pipeline of the streaming session. *)
Definition streaming_socket : socket :=
  {| readyState := OPEN; lang := "Arabic"; awaiting_media := false;
     calls := [(OPEN, start_msg "Arabic")] |}.
Definition live_pipeline : pipeline :=
  {| tracks_live := true; context_open := true; source_connected := true;
     processor_connected := true |}.

(** The streaming session, as events of the whole component. *)
Definition streaming_session : list Component.event :=
  map Component.Streaming streaming.

(** The microphone of a first session is granted after the session has
    been stopped; a second session then fails at [new AudioContext]. *)
Definition late_grant_then_failed_setup : list Component.event :=
  [Component.Streaming (ClickRecord None); Component.Streaming (WsOpen 0);
   Component.Streaming ClickStop; Component.Streaming (MediaGranted 0 16000);
   Component.Streaming (ClickRecord None); Component.Streaming (WsOpen 1);
   Component.SetupFailed 1 16000 Component.NewAudioContext "NotSupportedError"].

(** A file is uploaded while a session streams: [processAudio] sets
    [loading] to process and, at its end, to null. *)
Definition upload_while_streaming : list Component.event :=
  map Component.Streaming streaming
  ++ [Component.UploadWrite (Component.WriteAudioFile recording_file);
      Component.UploadWrite (Component.WriteLoading true);
      Component.UploadWrite (Component.WriteLoading false)].

End Samples2.

(** ** Part II: theorems *)

(** *** Shared facts on strings *)
Section StringFacts.
Lemma append_cons (c : ascii) (s t : string) :
  String c s +:+ t = String c (s +:+ t).
Proof. reflexivity. Qed.

Lemma append_nil_l (t : string) : "" +:+ t = t.
Proof. reflexivity. Qed.

Lemma append_assoc (s1 s2 s3 : string) :
  (s1 +:+ s2) +:+ s3 = s1 +:+ (s2 +:+ s3).
Proof.
  induction s1 as [|c s1 IH]; [reflexivity|].
  rewrite !append_cons, IH. reflexivity.
Qed.

Lemma append_nil_r (s : string) : s +:+ "" = s.
Proof.
  induction s as [|c s IH]; [reflexivity|]. rewrite append_cons, IH. reflexivity.
Qed.

Lemma string_of_list_ascii_app (l1 l2 : list ascii) :
  string_of_list_ascii (l1 ++ l2)
  = string_of_list_ascii l1 +:+ string_of_list_ascii l2.
Proof.
  induction l1 as [|c l1 IH]; [reflexivity|].
  simpl. rewrite append_cons, IH. reflexivity.
Qed.

End StringFacts.

(** *** [floatTo16BitPCM] *)
Section PcmFacts.
Import Pcm PcmOrder.

Lemma loop_invariant (input : list number) (n : nat) :
  (n <= length input)%nat ->
  fold_left (body input) (seq 0 n) (replicate (length input) 0)
  = map convert (take n input) ++ replicate (length input - n) 0.
Proof.
  induction n as [|n IH]; intros Hn.
  - simpl. rewrite Nat.sub_0_r. reflexivity.
  - rewrite seq_S, fold_left_app, IH by lia. simpl.
    destruct (lookup_lt_is_Some_2 input n) as [x Hx]; [lia|].
    unfold body. rewrite Hx. simpl.
    rewrite (take_S_r _ _ _ Hx), map_app. simpl.
    replace (length input - n)%nat with (S (length input - S n)) by lia.
    rewrite insert_app_r_alt by (rewrite length_map, length_take; lia).
    rewrite length_map, length_take.
    replace (n - n `min` length input)%nat with 0%nat by lia.
    simpl. rewrite <- app_assoc. reflexivity.
Qed.

Lemma floatTo16BitPCM_map (input : list number) :
  floatTo16BitPCM input = map convert input.
Proof.
  unfold floatTo16BitPCM. rewrite loop_invariant by lia.
  rewrite firstn_all, Nat.sub_diag. simpl. apply app_nil_r.
Qed.

Lemma quot_between (a d lo hi : Z) :
  0 < d -> lo * d <= a <= hi * d -> lo <= Z.quot a d <= hi.
Proof.
  intros Hd [Hlo Hhi]. split.
  - rewrite <- (Z.quot_mul lo d) by lia. apply Z.quot_le_mono; lia.
  - rewrite <- (Z.quot_mul hi d) by lia. apply Z.quot_le_mono; lia.
Qed.

Lemma wrap16_id (z : Z) : in_int16 z -> wrap16 z = z.
Proof.
  unfold in_int16, wrap16. intros Hz.
  rewrite Z.mod_small by lia. lia.
Qed.

Lemma Qle_bool_false (x y : Q) : Qle_bool x y = false -> (y <= x)%Q.
Proof.
  intros H. apply Qnot_lt_le. intros Hlt. apply Qlt_le_weak in Hlt.
  apply Qle_bool_iff in Hlt. congruence.
Qed.

Lemma clamp_cases (x : number) : x = NaN /\ clamp x = NaN \/ in_unit (clamp x).
Proof.
  destruct x as [|[|]|q]; [left; split; reflexivity| | |]; right.
  - cbv. split; discriminate.
  - cbv. split; discriminate.
  - unfold clamp, Math_min, Math_max, of_Z, inject_Z. cbn [js_lt].
    destruct (Qle_bool (1#1) q) eqn:H1; cbn [negb js_lt].
    + cbv. split; discriminate.
    + destruct (Qle_bool q (-1#1)) eqn:H2; cbn [negb in_unit].
      * cbv. split; discriminate.
      * split; apply Qle_bool_false; assumption.
Qed.

Lemma scale_in_range (s : number) :
  in_unit s -> in_int16 (trunc (scale s)).
Proof.
  destruct s as [| |q]; simpl; try tauto.
  intros [Hlo Hhi]. unfold Qle in Hlo, Hhi. simpl in Hlo, Hhi.
  unfold scale, of_Z, inject_Z. cbn [js_lt].
  destruct (Qle_bool (0#1) q) eqn:H0;
    cbn [negb js_mul trunc Qmult Qnum Qden]; unfold in_int16.
  - apply Qle_bool_iff in H0. unfold Qle in H0. simpl in H0.
    assert (0 <= Z.quot (Qnum q * 32767) (Z.pos (Qden q * 1)) <= 32767); [|lia].
    apply quot_between; lia.
  - assert (Hneg : Qnum q < 0).
    { destruct (Z_lt_le_dec (Qnum q) 0) as [|Hge]; [assumption|].
      assert (Qle_bool (0#1) q = true); [|congruence].
      apply Qle_bool_iff. unfold Qle. simpl. lia. }
    assert (-32768 <= Z.quot (Qnum q * 32768) (Z.pos (Qden q * 1)) <= 0); [|lia].
    apply quot_between; lia.
Qed.

Lemma convert_in_range (x : number) :
  convert x = trunc (scale (clamp x)) /\ in_int16 (convert x).
Proof.
  unfold convert, ToInt16.
  assert (H : in_int16 (trunc (scale (clamp x)))).
  { destruct (clamp_cases x) as [[-> _]|H]; [cbv; split; discriminate|].
    apply scale_in_range, H. }
  rewrite wrap16_id by exact H. split; [reflexivity|exact H].
Qed.

Lemma clamp_value (x : number) : x <> NaN -> clamp x = Finite (clampQ x).
Proof.
  destruct x as [|[|]|q]; intros Hx; [congruence|reflexivity|reflexivity|].
  unfold clamp, Math_min, Math_max, of_Z, inject_Z, clampQ. cbn [js_lt].
  destruct (Qle_bool (1#1) q) eqn:H1; cbn [negb js_lt]; [reflexivity|].
  destruct (Qle_bool q (-1#1)) eqn:H2; reflexivity.
Qed.

Lemma clampQ_bounds (x : number) : (-1 <= clampQ x)%Q /\ (clampQ x <= 1)%Q.
Proof.
  destruct x as [|[|]|q]; simpl; try (split; discriminate).
  destruct (Qle_bool 1 q) eqn:H1; [split; discriminate|].
  destruct (Qle_bool q (-1)) eqn:H2; [split; discriminate|].
  split; apply Qle_bool_false; assumption.
Qed.

Lemma clampQ_in_range (q : Q) :
  (-1 <= q)%Q -> (q <= 1)%Q -> (clampQ (Finite q) == q)%Q.
Proof.
  intros Hlo Hhi. simpl.
  destruct (Qle_bool 1 q) eqn:H1.
  - apply Qle_bool_iff in H1. apply Qle_antisym; assumption.
  - destruct (Qle_bool q (-1)) eqn:H2; [|reflexivity].
    apply Qle_bool_iff in H2. apply Qle_antisym; assumption.
Qed.

Lemma clampQ_finite (q : Q) :
  ((1 <= q)%Q -> (clampQ (Finite q) == 1)%Q)
  /\ ((q <= -1)%Q -> (clampQ (Finite q) == -1)%Q)
  /\ ((-1 <= q)%Q -> (q <= 1)%Q -> (clampQ (Finite q) == q)%Q).
Proof.
  split; [|split].
  - intros H. simpl. apply Qle_bool_iff in H. rewrite H. reflexivity.
  - intros H. simpl. destruct (Qle_bool 1 q) eqn:H1.
    + apply Qle_bool_iff in H1. exfalso.
      assert (H0 : (1 <= -1)%Q) by (apply Qle_trans with q; [exact H1|exact H]).
      apply H0. reflexivity.
    + apply Qle_bool_iff in H. rewrite H. reflexivity.
  - apply clampQ_in_range.
Qed.

Lemma convert_value (x : number) :
  x <> NaN -> convert x = truncQ (scaledQ (clampQ x)).
Proof.
  intros Hx. destruct (convert_in_range x) as [-> _].
  rewrite (clamp_value x Hx). unfold scale, of_Z, inject_Z, scaledQ. cbn [js_lt].
  destruct (Qle_bool (0#1) (clampQ x)); reflexivity.
Qed.

(** C8 (amended): for every input, [floatTo16BitPCM] returns an array of
    the same length and every element lies in [-32768, 32767], so that the
    16-bit store does not wrap.  A sample that is a number, Infinity
    included, is first clamped to a value [c] of [-1, 1]: 1 when the sample
    is at least 1, -1 when it is at most -1, the sample itself in between.
    The element stored is [c * 32767] when [c] is not negative and
    [c * 32768] when it is, truncated toward zero.  A NaN sample is not
    clamped: it stays NaN and is stored as 0. *)
Theorem floatTo16BitPCM_clamps_and_scales (input : list number) :
  length (floatTo16BitPCM input) = length input
  /\ Forall2
       (fun x y =>
          in_int16 y
          /\ match x with
             | NaN => clamp x = NaN /\ y = 0
             | _ =>
                 exists c : Q,
                   clamp x = Finite c
                   /\ (-1 <= c)%Q /\ (c <= 1)%Q
                   /\ match x with
                      | Finite q =>
                          ((1 <= q)%Q -> (c == 1)%Q)
                          /\ ((q <= -1)%Q -> (c == -1)%Q)
                          /\ ((-1 <= q)%Q -> (q <= 1)%Q -> (c == q)%Q)
                      | Infinity negative =>
                          (c == if negative then -1 else 1)%Q
                      | NaN => False
                      end
                   /\ let scaled :=
                        (if Qle_bool 0 c then c * 32767 else c * 32768)%Q in
                      y = Z.quot (Qnum scaled) (Z.pos (Qden scaled))
             end)
       input (floatTo16BitPCM input).
Proof.
  rewrite floatTo16BitPCM_map. split; [apply length_map|].
  induction input as [|x input IH]; simpl; constructor; [|exact IH].
  split; [apply convert_in_range|].
  destruct x as [|negative|q].
  - split; reflexivity.
  - exists (clampQ (Infinity negative)).
    split; [apply clamp_value; discriminate|].
    split; [apply clampQ_bounds|]. split; [apply clampQ_bounds|].
    split; [destruct negative; reflexivity|].
    apply convert_value. discriminate.
  - exists (clampQ (Finite q)).
    split; [apply clamp_value; discriminate|].
    split; [apply clampQ_bounds|]. split; [apply clampQ_bounds|].
    split; [apply clampQ_finite|].
    apply convert_value. discriminate.
Qed.

(** C8, the claim as it stands: a NaN sample is not clamped to [-1, 1]. *)
Example NaN_sample_is_not_clamped :
  clamp NaN = NaN
  /\ ~ in_unit (clamp NaN)
  /\ floatTo16BitPCM [Finite (1#2); NaN] = [16383; 0].
Proof.
  split; [reflexivity|]. split; [intros H; exact H|]. vm_compute. reflexivity.
Qed.

End PcmFacts.

(** *** [encodeBase64] *)
Section Base64Facts.
Import Base64.

Lemma fromCharCode_app (l1 l2 : list Z) :
  fromCharCode (l1 ++ l2) = fromCharCode l1 +:+ fromCharCode l2.
Proof. unfold fromCharCode. rewrite map_app. apply string_of_list_ascii_app. Qed.

(** The loop appends to its accumulator the characters of all the bytes
    from index [i] on, whatever the slice length. *)
Lemma loop_all (n : nat) (bytes : list Z) (i : nat) (binary : string) :
  loop n bytes i binary = binary +:+ fromCharCode (drop i bytes).
Proof.
  funelim (loop n bytes i binary).
  - rewrite H. unfold subarray.
    replace (i + S n - i)%nat with (S n) by lia.
    rewrite append_assoc, <- fromCharCode_app.
    rewrite <- drop_drop, take_drop. reflexivity.
  - rewrite drop_ge by lia. symmetry. apply append_nil_r.
Qed.

Lemma byte_of_range (z : Z) : 0 <= byte_of z < 256.
Proof.
  unfold byte_of. change 255 with (Z.ones 8). rewrite Z.land_ones by lia.
  apply Z.mod_pos_bound. lia.
Qed.

Lemma byte_of_idem (z : Z) : byte_of (byte_of z) = byte_of z.
Proof.
  unfold byte_of. rewrite <- Z.land_assoc. reflexivity.
Qed.

Lemma code_of_char_of (b : Z) : code_of (char_of b) = byte_of b.
Proof.
  unfold code_of, char_of. pose proof (byte_of_range b) as Hb.
  rewrite N_ascii_embedding by lia. lia.
Qed.

Lemma codes_of_fromCharCode (bytes : list Z) :
  map code_of (list_ascii_of_string (fromCharCode bytes)) = map byte_of bytes.
Proof.
  unfold fromCharCode. rewrite list_ascii_of_string_of_list_ascii, map_map.
  apply map_ext. intros b. apply code_of_char_of.
Qed.

Lemma buffer_bytes_are_bytes (input : list Z) :
  map byte_of (buffer_bytes input) = buffer_bytes input.
Proof.
  unfold buffer_bytes. induction input as [|v input IH]; [reflexivity|].
  simpl. rewrite !byte_of_idem. f_equal. f_equal. exact IH.
Qed.


(** C9: for every Int16Array, the chunked [encodeBase64] returns exactly
    the base64 encoding of the whole byte buffer of the array; this holds
    for every slice length, in particular for 0x8000, and for every input
    length (empty, or not a multiple of the slice length). *)
Theorem encodeBase64_whole_buffer (input : list Z) :
  encodeBase64 input = encode_whole input
  /\ forall n : nat, btoa (loop n (buffer_bytes input) 0 "") = encode_whole input.
Proof.
  assert (H : forall n, btoa (loop n (buffer_bytes input) 0 "")
                        = encode_whole input).
  { intros n. unfold encode_whole, btoa.
    rewrite loop_all, drop_0, append_nil_l, codes_of_fromCharCode,
      buffer_bytes_are_bytes.
    reflexivity. }
  split; [apply H|exact H].
Qed.

End Base64Facts.

(** *** The upload flow and the message handler *)
Section UploadFacts.
Import App.
Variable JSON_parse : string -> option Js.value.
Variable decoder : Type.
Variable decoder_new : decoder.
Variable decode : decoder -> list Z -> string * decoder.
Variable net : network.

Lemma appended_nil (w : world) : appended "" w = w.
Proof.
  destruct w as [[] ?]. unfold appended, setTranslation. simpl.
  rewrite append_nil_r. reflexivity.
Qed.

Lemma appended_appended (s1 s2 : string) (w : world) :
  appended s2 (appended s1 w) = appended (s1 +:+ s2) w.
Proof.
  destruct w as [[] ?]. unfold appended, setTranslation. simpl.
  rewrite append_assoc. reflexivity.
Qed.

(** Reading a stream that ends normally appends to the translation the
    texts released by the decoder, in arrival order. *)
Lemma read_all_completes (s : stream) (d : decoder) (w : world) :
  completes s = true ->
  read_all decoder decode s d w
  = (Ok tt, appended (concat_all (decoded decoder decode s d)) w).
Proof.
  revert d w. induction s as [| |value rest IH]; intros d w Hc.
  - simpl. rewrite appended_nil. reflexivity.
  - discriminate.
  - simpl in Hc. destruct value as [value|]; simpl.
    + destruct (decode d value) as [chunk d'] eqn:Hd.
      unfold bind, update. simpl.
      rewrite (IH d' _ Hc). fold (appended chunk w).
      rewrite appended_appended. reflexivity.
    + apply IH, Hc.
Qed.

Lemma or_str_empty (s : string) : Js.or_str s "" = s.
Proof. unfold Js.or_str. destruct (String.eqb_spec s ""); congruence. Qed.

Ltac run_upload :=
  unfold processAudio, processAudio_v0, processAudio_try, processAudio_catch,
    processAudio_finally, parse_text, try_finally, try_catch, bind, gets,
    update, lift, fetch, throw, ret; cbn.

(** C6: when the transcribe step has succeeded and the translate response
    is ok, the displayed translation is, if the response body exposes a
    stream reader whose reads end normally, the concatenation of the decoded
    chunks in arrival order, and, if there is no reader, the whole response
    body. *)
Theorem processAudio_displays_translation
    (file : File) (w : world) (transcribeRes translateRes : response)
    (transcribeText : string) (parsed text : Js.value) :
  net (Transcribe file) = Ok transcribeRes ->
  ok transcribeRes = true ->
  text_ transcribeRes = Ok transcribeText ->
  JSON_parse transcribeText = Some parsed ->
  Js.get parsed "text" = Some text ->
  net (Translate (Js.to_string (Js.or text (Js.Str "")))
                 (targetLang (w_ui w))) = Ok translateRes ->
  ok translateRes = true ->
  let shown :=
    translation (w_ui (snd (processAudio JSON_parse decoder decoder_new
                              decode net (Some file) w))) in
  match reader translateRes with
  | Some body =>
      completes body = true ->
      shown = concat_all (decoded decoder decode body decoder_new)
  | None =>
      forall whole, text_ translateRes = Ok whole -> shown = whole
  end.
Proof.
  intros Hnet1 Hok1 Htext1 Hparse Hget Hnet2 Hok2.
  run_upload. rewrite Hnet1. cbn. rewrite Htext1, Hok1. cbn.
  rewrite Hparse, Hget. cbn. rewrite Hnet2. cbn. rewrite Hok2. cbn.
  destruct (reader translateRes) as [body|].
  - intros Hc. rewrite read_all_completes by exact Hc. cbn. reflexivity.
  - intros whole Hwhole. rewrite Hwhole. cbn. apply or_str_empty.
Qed.

(** C10: when the transcribe request returns a response that is not ok,
    [processAudio] issues no translate request (the transcribe request is
    the only one), the displayed translation stays empty, the error shown
    is the body of the transcribe response, or Transcribe followed by the
    status code when the body is empty, and the loading and status
    indicators are cleared.  This holds for [processAudio] and for its
    earlier revision. *)
Theorem processAudio_transcribe_failure
    (file : File) (w : world) (transcribeRes : response) (body : string) :
  net (Transcribe file) = Ok transcribeRes ->
  ok transcribeRes = false ->
  text_ transcribeRes = Ok body ->
  transcribe_failure_shown file transcribeRes body w
    (snd (processAudio JSON_parse decoder decoder_new decode net (Some file) w))
  /\ transcribe_failure_shown file transcribeRes body w
       (snd (processAudio_v0 JSON_parse decoder decoder_new decode net
               (Some file) w)).
Proof.
  intros Hnet Hok Htext. unfold transcribe_failure_shown.
  split; run_upload; rewrite Hnet; cbn; rewrite Htext, Hok; cbn; auto.
Qed.

(** C1, as the code has it: a [transcript_delta] event appends its text to
    the displayed transcript and changes nothing else, whatever its
    [is_correction] flag; no event replaces text that is displayed. *)
Theorem transcript_delta_is_appended
    (data : string) (payload : Js.value) (u : ui) :
  JSON_parse data = Some payload ->
  Js.get payload "type" = Some (Js.Str "transcript_delta") ->
  ws_onmessage JSON_parse data u
  = setTranscript (fun prev => prev +:+ Js.to_string (Js.prop payload "text")) u
  /\ forall text flag,
       payload = transcript_delta text flag ->
       transcript (ws_onmessage JSON_parse data u) = transcript u +:+ text.
Proof.
  intros Hparse Htype.
  assert (H : ws_onmessage JSON_parse data u
              = setTranscript
                  (fun prev => prev +:+ Js.to_string (Js.prop payload "text")) u).
  { unfold ws_onmessage, on_payload. rewrite Hparse, Htype. reflexivity. }
  split; [exact H|]. intros text flag ->. rewrite H. reflexivity.
Qed.

End UploadFacts.

(** *** The streaming session *)
Section StreamFacts.
Import App Stream.

Lemma socket_ok_ordered (s : socket) :
  socket_ok s -> calls_ok s /\ ordered (lang s) (sent s).
Proof.
  intros [Hc Hs]. split; [exact Hc|].
  destruct (readyState s).
  - left. unfold sent. rewrite Hs. reflexivity.
  - destruct Hs as (frames & Hs & Hf). right. exists frames, [].
    rewrite app_nil_r. auto.
  - exact Hs.
  - exact Hs.
Qed.

Lemma set_awaiting_ok (b : bool) (s : socket) :
  socket_ok s -> socket_ok (set_awaiting b s).
Proof. intros H. exact H. Qed.

Lemma closing_ok (s : socket) : socket_ok s -> socket_ok (closing s).
Proof.
  intros H. pose proof (socket_ok_ordered s H) as [Hc Ho].
  unfold closing. destruct (readyState s) eqn:Hr; try exact H.
  - split; [exact Hc|exact Ho].
  - split; [exact Hc|exact Ho].
Qed.

Lemma closed_ok (s : socket) : socket_ok s -> socket_ok (set_state CLOSED s).
Proof.
  intros H. pose proof (socket_ok_ordered s H) as [Hc Ho].
  split; [exact Hc|exact Ho].
Qed.

Lemma sent_record_call (msg : Js.value) (s : socket) :
  sent (record_call msg s) = sent s ++ [msg].
Proof. unfold sent. simpl. rewrite fmap_app. reflexivity. Qed.

(** An audio frame sent on an open socket. *)
Lemma audio_ok (input : list Pcm.number) (s : socket) :
  readyState s = OPEN -> socket_ok s ->
  socket_ok (record_call
               (audio_msg (Base64.encodeBase64 (Pcm.floatTo16BitPCM input))) s).
Proof.
  intros Hr [Hc Hs]. rewrite Hr in Hs. destruct Hs as (frames & Hs & Hf).
  assert (Ha : is_audio
                 (audio_msg (Base64.encodeBase64 (Pcm.floatTo16BitPCM input))))
    by (exists input; reflexivity).
  split.
  - unfold calls_ok. simpl. apply Forall_app. split; [exact Hc|].
    constructor; [|constructor]. simpl. split; [exact Hr|].
    right; left; exact Ha.
  - simpl. rewrite Hr.
    exists (frames ++
            [audio_msg (Base64.encodeBase64 (Pcm.floatTo16BitPCM input))]).
    rewrite sent_record_call, Hs. split; [reflexivity|].
    apply Forall_app. split; [exact Hf|]. constructor; [exact Ha|constructor].
Qed.

(** The stop directive followed by [close()] on an open socket. *)
Lemma stop_ok (s : socket) :
  readyState s = OPEN -> socket_ok s ->
  socket_ok (closing (record_call stop_msg s)).
Proof.
  intros Hr [Hc Hs]. rewrite Hr in Hs. destruct Hs as (frames & Hs & Hf).
  unfold closing. simpl. rewrite Hr. split.
  - unfold calls_ok. simpl. apply Forall_app. split; [exact Hc|].
    constructor; [|constructor]. simpl. split; [exact Hr|].
    right; right; reflexivity.
  - simpl. right. exists frames, [stop_msg].
    change (sent (record_call stop_msg s) = start_msg (lang s) :: frames ++ [stop_msg]
            /\ Forall is_audio frames /\ ([stop_msg] = [] \/ [stop_msg] = [stop_msg])).
    rewrite sent_record_call, Hs. auto.
Qed.

(** The open event: the start directive is the first message. *)
Lemma open_ok (s : socket) :
  readyState s = CONNECTING -> socket_ok s ->
  socket_ok (set_awaiting true
               (record_call (start_msg (lang s)) (set_state OPEN s))).
Proof.
  intros Hr [Hc Hs]. rewrite Hr in Hs. split.
  - unfold calls_ok. simpl. rewrite Hs. constructor; [|constructor].
    simpl. split; [reflexivity|]. left. exists (lang s). reflexivity.
  - simpl. exists []. unfold sent. simpl. rewrite Hs. simpl. auto.
Qed.

Lemma ws_is_open_Some (c : client) (id : nat) :
  ws_is_open c = Some id ->
  wsRef (c_refs c) = Some id
  /\ exists s, sockets c !! id = Some s /\ readyState s = OPEN.
Proof.
  unfold ws_is_open, state_of. destruct (wsRef (c_refs c)) as [id'|]; [|discriminate].
  destruct (sockets c !! id') as [s|] eqn:Hs; simpl; [|discriminate].
  destruct (readyState s) eqn:Hr; try discriminate.
  intros [= <-]. split; [reflexivity|]. exists s. auto.
Qed.

Lemma stopRecording_sockets (c : client) :
  sockets (stopRecording c)
  = match wsRef (c_refs c) with
    | Some id =>
        match ws_is_open c with
        | Some _ => alter (fun s => closing (record_call stop_msg s)) id (sockets c)
        | None => alter closing id (sockets c)
        end
    | None => sockets c
    end.
Proof.
  unfold stopRecording.
  destruct (ws_is_open c) as [id|] eqn:Ho.
  - destruct (ws_is_open_Some c id Ho) as [Hw _].
    cbn. rewrite Hw. cbn.
    repeat match goal with
           | |- context [on_ref ?r ?f ?c] => destruct r; cbn
           end; apply list_alter_alter_eq.
  - destruct (wsRef (c_refs c)) as [id|]; cbn;
    repeat match goal with
           | |- context [on_ref ?r ?f ?c] => destruct r; cbn
           end; reflexivity.
Qed.

Lemma stopRecording_ok (c : client) : client_ok c -> client_ok (stopRecording c).
Proof.
  unfold client_ok. intros H. rewrite stopRecording_sockets.
  destruct (wsRef (c_refs c)) as [id|] eqn:Hw; [|exact H].
  destruct (ws_is_open c) as [id'|] eqn:Ho.
  - destruct (ws_is_open_Some c id' Ho) as (Hw' & s & Hs & Hr).
    assert (id' = id) as -> by congruence.
    apply Forall_alter; [exact H|].
    intros s' Hs' Hok. assert (s' = s) as -> by congruence.
    apply stop_ok; assumption.
  - apply Forall_alter; [exact H|]. intros s _ Hok. apply closing_ok, Hok.
Qed.

Lemma with_ui_ok (f : ui -> ui) (c : client) : client_ok c -> client_ok (with_ui f c).
Proof. intros H. exact H. Qed.

Lemma alter_ok (f : socket -> socket) (id : nat) (c : client) :
  (forall s, socket_ok s -> socket_ok (f s)) ->
  client_ok c -> client_ok (with_sockets (alter f id) c).
Proof.
  unfold client_ok. intros Hf H. simpl. apply Forall_alter; [exact H|].
  intros s _. apply Hf.
Qed.

Lemma startRecording_ok (ctor_error : option string) (c : client) :
  client_ok c -> client_ok (startRecording ctor_error c).
Proof.
  intros H. unfold startRecording. destruct ctor_error as [msg|].
  - apply stopRecording_ok. exact H.
  - unfold client_ok. simpl. apply Forall_app. split; [exact H|].
    constructor; [|constructor]. split; [constructor|reflexivity].
Qed.

Lemma onaudioprocess_ok (input : list Pcm.number) (c : client) :
  client_ok c -> client_ok (onaudioprocess input c).
Proof.
  intros H. unfold onaudioprocess.
  destruct (ws_is_open c) as [id|] eqn:Ho; [|exact H].
  destruct (ws_is_open_Some c id Ho) as (_ & s & Hs & Hr).
  unfold client_ok, send. simpl. apply Forall_alter; [exact H|].
  intros s' Hs' Hok. assert (s' = s) as -> by congruence.
  apply audio_ok; assumption.
Qed.

Lemma unmount_ok (c : client) : client_ok c -> client_ok (unmount c).
Proof.
  intros H. unfold unmount.
  assert (Hs : sockets (unmount c)
               = match wsRef (c_refs c) with
                 | Some id => alter closing id (sockets c)
                 | None => sockets c
                 end).
  { unfold unmount. destruct (wsRef (c_refs c)); cbn;
    repeat match goal with
           | |- context [on_ref ?r ?f ?c] => destruct r; cbn
           end; reflexivity. }
  unfold client_ok. fold (unmount c). rewrite Hs.
  destruct (wsRef (c_refs c)) as [id|]; [|exact H].
  apply Forall_alter; [exact H|]. intros s _. apply closing_ok.
Qed.

Variable JSON_parse : string -> option Js.value.

Lemma step_ok (c : client) (e : event) :
  client_ok c -> client_ok (step JSON_parse c e).
Proof.
  intros H. destruct e as [ctor| |id|id rate|id msg|p input|id data|id|id|]; simpl.
  - apply startRecording_ok, H.
  - apply stopRecording_ok, H.
  - unfold state_of. destruct (sockets c !! id) as [s|] eqn:Hs; simpl; [|exact H].
    destruct (readyState s) eqn:Hr; try exact H.
    unfold ws_onopen. simpl. rewrite list_lookup_alter_eq, Hs. simpl.
    unfold client_ok, send. simpl. rewrite !list_alter_alter_eq.
    apply Forall_alter; [exact H|].
    intros s' Hs' Hok. assert (s' = s) as -> by congruence.
    apply open_ok; assumption.
  - destruct (sockets c !! id) as [s|]; simpl; [|exact H].
    destruct (awaiting_media s); [|exact H].
    unfold media_granted. apply (alter_ok _ id c (set_awaiting_ok false) H).
  - destruct (sockets c !! id) as [s|]; simpl; [|exact H].
    destruct (awaiting_media s); [|exact H].
    apply stopRecording_ok, with_ui_ok, alter_ok; [apply set_awaiting_ok|exact H].
  - destruct (pipelines c !! p) as [pl|]; simpl; [|exact H].
    destruct (processor_connected pl); [|exact H].
    apply onaudioprocess_ok, H.
  - destruct (state_of id c); exact H.
  - destruct (state_of id c); [|exact H].
    apply stopRecording_ok, with_ui_ok, alter_ok; [apply closed_ok|exact H].
  - destruct (state_of id c); [|exact H].
    apply stopRecording_ok, alter_ok; [apply closed_ok|exact H].
  - apply unmount_ok, H.
Qed.

Lemma run_ok (events : list event) (c : client) :
  client_ok c -> client_ok (fold_left (step JSON_parse) events c).
Proof.
  revert c. induction events as [|e events IH]; intros c H; [exact H|].
  simpl. apply IH, step_ok, H.
Qed.

(** C5, as the code has it: on every socket the client creates, in every
    run, each message is sent while the socket is open and is one of the
    three directives (start with the target language, audio with the base64
    PCM16 frame, stop); the start directive comes first, then only audio
    directives, and a stop directive, when one is sent, is the last message
    and is sent once. *)
Theorem directives_in_order (events : list event) :
  Forall (fun s => calls_ok s /\ ordered (lang s) (sent s))
         (sockets (run JSON_parse events)).
Proof.
  assert (H : client_ok (run JSON_parse events)).
  { apply run_ok. constructor. }
  unfold client_ok in H. eapply Forall_impl; [exact H|].
  intros s. apply socket_ok_ordered.
Qed.

End StreamFacts.

(** *** The relay *)
Section ReconcileFacts.
Import Relay.

Lemma reconcile_keeps_frozen (f : fragment) (t : running_transcript) :
  bounded t ->
  bounded (reconcile f t)
  /\ frozen (reconcile f t) = frozen t
  /\ frozen_text (reconcile f t) = frozen_text t.
Proof.
  unfold bounded, frozen_text, reconcile. intros Hb.
  destruct (decide _) as [Hle|Hgt]; simpl.
  - split; [|split; [reflexivity|]].
    + rewrite length_app, length_take. lia.
    + rewrite take_app_le by (rewrite length_take; lia).
      rewrite take_take. f_equal. lia.
  - split; [|split; [reflexivity|]].
    + rewrite length_app, length_take. lia.
    + rewrite take_app_le by (rewrite length_take; lia).
      rewrite take_take. f_equal. lia.
Qed.

Lemma freeze_keeps_frozen (upto : nat) (t : running_transcript) :
  bounded t ->
  bounded (freeze upto t)
  /\ (frozen t <= frozen (freeze upto t))%nat
  /\ running (freeze upto t) = running t.
Proof.
  unfold bounded, freeze. cbn [running frozen].
  split; [lia|]. split; [lia|reflexivity].
Qed.

Lemma step_keeps_frozen (o : transcript_op) (t : running_transcript) :
  bounded t ->
  bounded (transcript_step t o)
  /\ (frozen t <= frozen (transcript_step t o))%nat
  /\ take (frozen t) (running (transcript_step t o)) = frozen_text t.
Proof.
  intros Hb. destruct o as [f|upto]; simpl.
  - destruct (reconcile_keeps_frozen f t Hb) as (Hb' & Hf & Ht).
    split; [exact Hb'|]. split; [lia|].
    unfold frozen_text in Ht. rewrite Hf in Ht. exact Ht.
  - destruct (freeze_keeps_frozen upto t Hb) as (Hb' & Hf & Hr).
    split; [exact Hb'|]. split; [exact Hf|]. reflexivity.
Qed.

Lemma run_keeps_frozen (ops : list transcript_op) (t : running_transcript) :
  bounded t ->
  bounded (transcript_run ops t)
  /\ (frozen t <= frozen (transcript_run ops t))%nat
  /\ take (frozen t) (running (transcript_run ops t)) = frozen_text t.
Proof.
  revert t. induction ops as [|o ops IH]; intros t Hb; simpl.
  - split; [exact Hb|]. split; [lia|reflexivity].
  - destruct (step_keeps_frozen o t Hb) as (Hb1 & Hf1 & Ht1).
    destruct (IH _ Hb1) as (Hb2 & Hf2 & Ht2).
    split; [exact Hb2|]. split; [lia|].
    rewrite <- Ht1.
    transitivity (take (frozen t) (frozen_text (transcript_step t o))).
    + rewrite <- Ht2, take_take. f_equal. lia.
    + unfold frozen_text. rewrite take_take. f_equal. lia.
Qed.

(** C2: for every sequence of fragments and freezes applied to the running
    transcript of a session, the text before the frozen boundary is never
    altered by what is applied later, and the boundary never moves back; a
    correction that reaches below the boundary leaves the frozen text in
    place and applies its text without the conflicting prefix. *)
Theorem frozen_text_is_never_altered (before after : list transcript_op) :
  let t := transcript_run before transcript0 in
  let t' := transcript_run after t in
  take (frozen t) (running t') = frozen_text t
  /\ (frozen t <= frozen t')%nat
  /\ forall f : fragment,
       let n := length (running t) in
       let start := (n - Nat.min (supersedes f) n)%nat in
       is_correction f = true ->
       (start < frozen t)%nat ->
       running (reconcile f t)
       = frozen_text t ++ drop (frozen t - start) (frag_text f).
Proof.
  intros t t'.
  assert (Hb : bounded t).
  { apply (run_keeps_frozen before transcript0). unfold bounded. simpl. lia. }
  destruct (run_keeps_frozen after t Hb) as (_ & Hf & Ht).
  split; [exact Ht|]. split; [exact Hf|].
  intros f n start Hc Hs. unfold reconcile. rewrite Hc.
  fold n. fold start. destruct (decide _) as [Hle|_]; [lia|]. reflexivity.
Qed.

End ReconcileFacts.

Section ChunkerFacts.
Import Relay.

(** C7: with a chunk-size threshold of 40 characters and an interval of
    0.7 seconds, a span of 35 characters that meets the minimum alphanumeric
    count and has waited at least the interval since the last emission is
    flushed by the time trigger, although it is under the size threshold. *)
Theorem time_based_flush (cfg : config) (span : text) (elapsed : Q) :
  chunk_chars cfg = 40%nat ->
  (chunk_interval cfg == 7 # 10)%Q ->
  length span = 35%nat ->
  (min_alnum cfg <= alnum_count span)%nat ->
  (7 # 10 <= elapsed)%Q ->
  chunk_ready cfg span elapsed false = Some ByTime.
Proof.
  intros Hc Hi Hl Ha He. unfold chunk_ready.
  rewrite Hc, Hl.
  rewrite (bool_decide_eq_false_2 (40 <= 35)%nat) by lia. simpl.
  rewrite <- Hi in He. apply Qle_bool_iff in He. rewrite He.
  rewrite bool_decide_eq_true_2 by (intros ->; discriminate).
  rewrite bool_decide_eq_true_2 by exact Ha. reflexivity.
Qed.

End ChunkerFacts.

Section FilterFacts.
Import Relay.
Context {token : Type}.
Variable same : token -> token -> bool.
Variable alnum : list token -> nat.






Lemma all_same_refl (xs : list token) :
  (forall t, same t t = true) -> all_same same xs xs = true.
Proof.
  intros Hr. induction xs as [|x xs IH]; simpl; [reflexivity|].
  rewrite Hr, IH. reflexivity.
Qed.

Lemma overlap_self (cand : list token) :
  (forall t, same t t = true) -> overlap same cand cand = length cand.
Proof.
  intros Hr. unfold overlap. rewrite Nat.min_id.
  destruct (length cand) as [|n] eqn:E; [reflexivity|].
  cbn [overlap_upto]. unfold overlaps_by. rewrite E, Nat.sub_diag, drop_0.
  rewrite <- E, firstn_all, all_same_refl by exact Hr. reflexivity.
Qed.

(** A candidate of few tokens that repeats the last accepted chunk is
    forwarded whole, whatever the comparison method. *)
Lemma short_repeat_is_forwarded (cfg : config) (cand : list token) :
  (forall t, same t t = true) ->
  cand <> [] ->
  (length cand <= redundancy_min_tokens cfg)%nat ->
  redundancy_filter same alnum cfg cand cand = Forward cand
  /\ (overlap_ratio same cand cand == 1)%Q.
Proof.
  intros Hr Hne Hlen. split.
  - unfold redundancy_filter, redundant. rewrite (overlap_self cand Hr).
    rewrite (bool_decide_eq_false_2 _) by lia.
    rewrite andb_false_r. reflexivity.
  - unfold overlap_ratio. rewrite (overlap_self cand Hr).
    destruct cand as [|t cand]; [congruence|].
    unfold Qeq. cbn [Qnum Qden length].
    rewrite Z.mul_1_r, Z.mul_1_l, <- positive_nat_Z, Nat2Pos.id by lia.
    reflexivity.
Qed.


End FilterFacts.

Section QueueFacts.
Import Relay.

Lemma in_chunk_order_app (n : nat) (l l' : list (nat * string)) :
  in_chunk_order l -> below n l -> Forall (fun y => y.1 = n) l' ->
  in_chunk_order (l ++ l') /\ below n (l ++ l').
Proof.
  intros Ho Hb Hn. split.
  - intros i j x y Hi Hj Hij.
    destruct (decide (j < length l)%nat) as [Hjl|Hjl].
    + rewrite lookup_app_l in Hi by lia. rewrite lookup_app_l in Hj by lia.
      exact (Ho i j x y Hi Hj Hij).
    + rewrite lookup_app_r in Hj by lia.
      assert (Hy : y.1 = n).
      { rewrite Forall_lookup in Hn. exact (Hn _ _ Hj). }
      destruct (decide (i < length l)%nat) as [Hil|Hil].
      * rewrite lookup_app_l in Hi by lia.
        unfold below in Hb. rewrite Forall_lookup in Hb. specialize (Hb _ _ Hi).
        simpl in Hb. lia.
      * rewrite lookup_app_r in Hi by lia.
        rewrite Forall_lookup in Hn. specialize (Hn _ _ Hi). lia.
  - apply Forall_app. split; [exact Hb|].
    eapply Forall_impl; [exact Hn|]. intros y Hy. simpl in Hy. lia.
Qed.

Lemma below_mono (n m : nat) (l : list (nat * string)) :
  (n <= m)%nat -> below n l -> below m l.
Proof.
  intros Hnm Hb. eapply Forall_impl; [exact Hb|]. intros x Hx. simpl in Hx. lia.
Qed.

Lemma open_next_ok (q : outq) : queue_ok q -> queue_ok (open_next q).
Proof.
  intros [Ho Hb]. unfold queue_ok, open_next. cbn [emitted next_chunk].
  apply in_chunk_order_app.
  - exact Ho.
  - apply (below_mono (next_chunk q)); [lia|exact Hb].
  - apply Forall_fmap, Forall_true. reflexivity.
Qed.

Lemma release_ok (q : outq) : queue_ok q -> queue_ok (release q).
Proof.
  funelim (release q); intros Hq.
  - apply H, open_next_ok. exact Hq.
  - exact Hq.
Qed.

Lemma receive_ok (q : outq) (u : upstream) : queue_ok q -> queue_ok (receive q u).
Proof.
  intros Hq. destruct u as [n text|n]; simpl.
  - destruct (decide (n = next_chunk q)) as [->|_].
    + destruct Hq as [Ho Hb]. unfold queue_ok. cbn [emitted next_chunk].
      apply in_chunk_order_app; [exact Ho|exact Hb|].
      constructor; [reflexivity|constructor].
    + destruct (decide _); exact Hq.
  - destruct (decide (n = next_chunk q)) as [->|_].
    + apply release_ok, open_next_ok, Hq.
    + destruct (decide _); exact Hq.
Qed.

Lemma relay_ok (arrivals : list upstream) (q : outq) :
  queue_ok q -> queue_ok (fold_left receive arrivals q).
Proof.
  revert q. induction arrivals as [|u arrivals IH]; intros q Hq; [exact Hq|].
  simpl. apply IH, receive_ok, Hq.
Qed.

Lemma no_late_fragment_snoc (closed : list nat) (l : list upstream) (u : upstream) :
  no_late_fragment closed (l ++ [u]) = true ->
  no_late_fragment closed l = true
  /\ forall n text, u = Fragment n text -> Completed n ∉ l.
Proof.
  revert closed. induction l as [|v l IH]; intros closed H.
  - split; [reflexivity|]. intros n text _. apply not_elem_of_nil.
  - destruct v as [m text'|m]; simpl in H.
    + apply andb_true_iff in H as [Hm H]. destruct (IH _ H) as [IH1 IH2].
      split; [simpl; rewrite Hm, IH1; reflexivity|].
      intros n text Hu. rewrite not_elem_of_cons. split; [discriminate|].
      exact (IH2 n text Hu).
    + destruct (IH _ H) as [IH1 IH2]. split; [exact IH1|].
      intros n text Hu. rewrite not_elem_of_cons. split; [|exact (IH2 n text Hu)].
      intros [= ->]. subst u. clear IH IH1 IH2.
      assert (Hg : forall closed, m ∈ closed ->
                     no_late_fragment closed (l ++ [Fragment m text]) = false).
      { clear H. induction l as [|w l IHl]; intros cl Hm; simpl.
        - rewrite bool_decide_eq_false_2; [reflexivity|]. intros Hn. exact (Hn Hm).
        - destruct w as [k ?|k]; [rewrite IHl by exact Hm; apply andb_false_r|].
          apply IHl. apply elem_of_cons. right. exact Hm. }
      rewrite Hg in H; [discriminate|]. apply elem_of_cons. left. reflexivity.
Qed.

Lemma texts_of_app (n : nat) (l l' : list (nat * string)) :
  texts_of n (l ++ l') = texts_of n l ++ texts_of n l'.
Proof. apply flat_map_app. Qed.

Lemma texts_of_pair (n m : nat) (ps : list string) :
  texts_of n (map (pair m) ps) = if decide (m = n) then ps else [].
Proof.
  unfold texts_of.
  destruct (decide (m = n)) as [->|Hne]; induction ps as [|p ps IH];
    try reflexivity.
  - simpl. rewrite decide_True by reflexivity. rewrite IH. reflexivity.
  - simpl. rewrite decide_False by exact Hne. exact IH.
Qed.

Lemma open_next_tracks (seen : list upstream) (q : outq) :
  Completed (next_chunk q) ∈ seen -> tracks seen q -> tracks seen (open_next q).
Proof.
  intros Hc (H1 & H2 & H3 & H4). unfold tracks, open_next.
  cbn [next_chunk finished pending emitted]. repeat split.
  - intros n Hn. destruct (decide (n = next_chunk q)) as [->|Hne]; [exact Hc|].
    apply H1. lia.
  - exact H2.
  - intros n Hn. destruct (decide (n = S (next_chunk q))) as [->|Hne].
    + apply lookup_delete_eq.
    + rewrite lookup_delete_ne by congruence. apply H3. lia.
  - intros n. rewrite texts_of_app, texts_of_pair, <- H4.
    destruct (decide (S (next_chunk q) = n)) as [<-|Hne].
    + rewrite lookup_delete_eq. simpl. rewrite app_nil_r. reflexivity.
    + rewrite lookup_delete_ne by exact Hne. rewrite app_nil_r. reflexivity.
Qed.

Lemma release_tracks (seen : list upstream) (q : outq) :
  tracks seen q -> tracks seen (release q).
Proof.
  funelim (release q); intros Hq; [|exact Hq].
  apply H. destruct Hq as (H1 & H2 & H3 & H4).
  apply open_next_tracks.
  - apply H2. assumption.
  - unfold tracks, unfinish. cbn [next_chunk finished pending emitted].
    repeat split; try assumption.
    intros n Hn. apply elem_of_difference in Hn as [Hn _]. apply H2, Hn.
Qed.

Lemma tracks_snoc (seen : list upstream) (n : nat) (q : outq) :
  tracks seen q -> tracks (seen ++ [Completed n]) q.
Proof.
  intros (H1 & H2 & H3 & H4). repeat split.
  - intros m Hm. apply elem_of_app. left. apply H1, Hm.
  - intros m Hm. apply elem_of_app. left. apply H2, Hm.
  - exact H3.
  - intros m. unfold fragments_of. rewrite flat_map_app. simpl. rewrite app_nil_r.
    apply H4.
Qed.

Lemma receive_tracks (seen : list upstream) (q : outq) (u : upstream) :
  (forall n text, u = Fragment n text -> Completed n ∉ seen) ->
  tracks seen q -> tracks (seen ++ [u]) (receive q u).
Proof.
  intros Hu Hq. destruct u as [n text|n]; simpl.
  - assert (Hn : (next_chunk q <= n)%nat).
    { destruct (le_lt_dec (next_chunk q) n) as [|Hlt]; [assumption|].
      destruct Hq as (H1 & _). exfalso. exact (Hu n text eq_refl (H1 n Hlt)). }
    destruct Hq as (H1 & H2 & H3 & H4).
    assert (Hf : forall m, fragments_of m (seen ++ [Fragment n text])
                           = fragments_of m seen
                             ++ (if decide (n = m) then [text] else [])).
    { intros m. unfold fragments_of. rewrite flat_map_app. simpl.
      rewrite app_nil_r. reflexivity. }
    destruct (decide (n = next_chunk q)) as [->|Hne].
    + unfold tracks. cbn [next_chunk finished pending emitted]. repeat split.
      * intros m Hm. apply elem_of_app. left. apply H1, Hm.
      * intros m Hm. apply elem_of_app. left. apply H2, Hm.
      * exact H3.
      * intros m. rewrite Hf, <- H4, texts_of_app. unfold texts_of at 2. simpl.
        destruct (decide (next_chunk q = m)) as [<-|Hm].
        -- rewrite (H3 (next_chunk q)) by lia. simpl. rewrite !app_nil_r.
           reflexivity.
        -- rewrite !app_nil_r. reflexivity.
    + destruct (decide (next_chunk q < n)%nat) as [Hlt|]; [|lia].
      unfold tracks. cbn [next_chunk finished pending emitted]. repeat split.
      * intros m Hm. apply elem_of_app. left. apply H1, Hm.
      * intros m Hm. apply elem_of_app. left. apply H2, Hm.
      * intros m Hm. rewrite lookup_insert_ne by lia. apply H3, Hm.
      * intros m. rewrite Hf, <- H4.
        destruct (decide (n = m)) as [<-|Hm].
        -- rewrite lookup_insert_eq. simpl. rewrite app_assoc. reflexivity.
        -- rewrite lookup_insert_ne by exact Hm. rewrite app_nil_r. reflexivity.
  - apply (tracks_snoc seen n) in Hq.
    destruct (decide (n = next_chunk q)) as [->|Hne].
    + apply release_tracks, open_next_tracks; [|exact Hq].
      apply elem_of_app. right. apply list_elem_of_singleton. reflexivity.
    + destruct (decide (next_chunk q < n)%nat) as [Hlt|]; [|exact Hq].
      destruct Hq as (H1 & H2 & H3 & H4).
      unfold tracks. cbn [next_chunk finished pending emitted]. repeat split;
        try assumption.
      intros m Hm. apply elem_of_union in Hm as [Hm|Hm]; [apply H2, Hm|].
      apply elem_of_singleton in Hm as ->.
      apply elem_of_app. right. apply list_elem_of_singleton. reflexivity.
Qed.

Lemma relay_run_snoc (arrivals : list upstream) (u : upstream) :
  relay_run (arrivals ++ [u]) = receive (relay_run arrivals) u.
Proof. unfold relay_run. rewrite fold_left_app. reflexivity. Qed.

Lemma relay_tracks (arrivals : list upstream) :
  no_late_fragment [] arrivals = true -> tracks arrivals (relay_run arrivals).
Proof.
  induction arrivals as [|u arrivals IH] using rev_ind; intros Hw.
  - unfold tracks, relay_run. simpl. split; [intros n Hn; lia|].
    split; [intros n Hn; apply not_elem_of_empty in Hn; contradiction|].
    split; intros n; reflexivity.
  - rewrite relay_run_snoc.
    destruct (no_late_fragment_snoc [] arrivals u Hw) as [Hw' Hu].
    apply receive_tracks; [exact Hu|]. apply IH, Hw'.
Qed.

Lemma open_next_ended (seen : list upstream) (q : outq) :
  Completed (next_chunk q) ∈ seen ->
  ended_before seen q -> ended_before seen (open_next q).
Proof.
  intros Hc [H1 H2]. split; [|exact H2]. intros n Hn. cbn in Hn.
  destruct (decide (n = next_chunk q)) as [->|Hne]; [exact Hc|].
  apply H1. lia.
Qed.

Lemma release_ended (seen : list upstream) (q : outq) :
  ended_before seen q -> ended_before seen (release q).
Proof.
  funelim (release q); intros Hq; [|exact Hq].
  apply H. destruct Hq as [H1 H2]. apply open_next_ended.
  - apply H2. assumption.
  - split; [exact H1|]. intros n Hn.
    apply elem_of_difference in Hn as [Hn _]. apply H2, Hn.
Qed.

Lemma receive_ended (seen : list upstream) (q : outq) (u : upstream) :
  ended_before seen q -> ended_before (seen ++ [u]) (receive q u).
Proof.
  intros [H1 H2].
  assert (Hq : ended_before (seen ++ [u]) q).
  { split; intros n Hn; apply elem_of_app; left; [apply H1|apply H2]; exact Hn. }
  destruct u as [n text|n]; simpl.
  - destruct (decide (n = next_chunk q)); [exact Hq|].
    destruct (decide _); exact Hq.
  - destruct (decide (n = next_chunk q)) as [->|Hne].
    + apply release_ended, open_next_ended; [|exact Hq].
      apply elem_of_app. right. apply list_elem_of_singleton. reflexivity.
    + destruct (decide _); [|exact Hq]. destruct Hq as [H1' H2'].
      split; [exact H1'|]. cbn [finished]. intros m Hm.
      apply elem_of_union in Hm as [Hm|Hm]; [apply H2', Hm|].
      apply elem_of_singleton in Hm as ->.
      apply elem_of_app. right. apply list_elem_of_singleton. reflexivity.
Qed.

Lemma relay_ended (arrivals : list upstream) :
  ended_before arrivals (relay_run arrivals).
Proof.
  induction arrivals as [|u arrivals IH] using rev_ind.
  - split; intros n Hn; [simpl in Hn; lia|].
    apply not_elem_of_empty in Hn. contradiction.
  - rewrite relay_run_snoc. apply receive_ended, IH.
Qed.

(** C3: for every interleaving of upstream translation responses, the
    stream emitted to the client is in chunk order, so every fragment of
    chunk N comes before any fragment of chunk N+1; when a fragment of a
    chunk has been emitted, the responses of all earlier chunks have ended;
    and, when no fragment arrives after the end of its own response, the
    fragments emitted for every chunk reached so far are exactly those that
    arrived for it, in arrival order. *)
Theorem translation_fragments_in_chunk_order (arrivals : list upstream) :
  let q := relay_run arrivals in
  in_chunk_order (emitted q)
  /\ (forall n m text, (m, text) ∈ emitted q -> (n < m)%nat ->
                       Completed n ∈ arrivals)
  /\ (no_late_fragment [] arrivals = true ->
      forall n, (n <= next_chunk q)%nat ->
                texts_of n (emitted q) = fragments_of n arrivals).
Proof.
  intros q.
  assert (Hq : queue_ok q).
  { apply relay_ok. split; [|constructor]. intros i j x y Hi. discriminate. }
  destruct Hq as [Ho Hb]. split; [exact Ho|]. split.
  - intros n m text Hin Hnm. destruct (relay_ended arrivals) as [He _].
    apply He. fold q.
    unfold below in Hb. rewrite Forall_forall in Hb. specialize (Hb _ Hin).
    simpl in Hb. lia.
  - intros Hw n Hn. destruct (relay_tracks arrivals Hw) as (_ & _ & H3 & H4).
    fold q in H3, H4. rewrite <- H4, (H3 n Hn). simpl. rewrite app_nil_r.
    reflexivity.
Qed.

End QueueFacts.

(** *** Concrete runs *)
Section Runs.
Import App Stream Relay Samples.

(** C6 at a server that streams Arabic translations and returns English
    ones in one piece. *)
Lemma processAudio_displays_translation_run :
  translation (w_ui (snd (processAudio parse unit () ascii_decode server
                            (Some recording_file) world0)))
  = concat_all (decoded unit ascii_decode streamed ())
  /\ translation (w_ui (snd (processAudio parse unit () ascii_decode server
                               (Some recording_file) world_en)))
     = "good morning".
Proof.
  split.
  - exact (processAudio_displays_translation parse unit () ascii_decode server
             recording_file world0 transcribe_ok translate_streamed transcribed
             (Js.Obj [("text", Js.Str "good morning")]) (Js.Str "good morning")
             eq_refl eq_refl eq_refl eq_refl eq_refl eq_refl eq_refl eq_refl).
  - exact (processAudio_displays_translation parse unit () ascii_decode
             server recording_file world_en transcribe_ok translate_whole
             transcribed
             (Js.Obj [("text", Js.Str "good morning")]) (Js.Str "good morning")
             eq_refl eq_refl eq_refl eq_refl eq_refl eq_refl eq_refl
             "good morning" eq_refl).
Defined.

(** C10 at a server whose transcribe endpoint answers 503 with an empty
    body. *)
Lemma processAudio_transcribe_failure_run :
  transcribe_failure_shown recording_file transcribe_unavailable "" world0
    (snd (processAudio parse unit () ascii_decode server_down
            (Some recording_file) world0))
  /\ transcribe_failure_shown recording_file transcribe_unavailable "" world0
       (snd (processAudio_v0 parse unit () ascii_decode server_down
               (Some recording_file) world0)).
Proof.
  exact (processAudio_transcribe_failure parse unit () ascii_decode server_down
           recording_file world0 transcribe_unavailable ""
           eq_refl eq_refl eq_refl).
Defined.

(** C1 (as the code has it) at a correction event. *)
Lemma transcript_delta_is_appended_run :
  ws_onmessage parse correction_frame showing
  = setTranscript
      (fun prev => prev +:+ Js.to_string
                              (Js.prop (transcript_delta "the mat" true) "text"))
      showing
  /\ forall text flag,
       transcript_delta "the mat" true = transcript_delta text flag ->
       transcript (ws_onmessage parse correction_frame showing)
       = transcript showing +:+ text.
Proof.
  exact (transcript_delta_is_appended parse correction_frame
           (transcript_delta "the mat" true) showing eq_refl eq_refl).
Defined.

(** C1 as stated fails: a [transcript_delta] event marked as a correction
    leaves the displayed text in place and appends to it, exactly as the
    same event without the mark does. *)
Lemma correction_does_not_replace :
  transcript (ws_onmessage parse correction_frame showing)
  = "the cat sat on tehthe mat"
  /\ ws_onmessage parse correction_frame showing
     = ws_onmessage parse plain_frame showing.
Proof. split; reflexivity. Qed.

(** C5 as stated fails: when the server closes the socket, the session ends
    with an audio directive as the last message; no stop is sent. *)
Lemma session_closed_by_server_sends_no_stop :
  map sent (sockets (run parse closed_by_server))
  = [[start_msg "Arabic"; audio_msg "/z8="]]
  /\ map readyState (sockets (run parse closed_by_server)) = [CLOSED]
  /\ wsRef (c_refs (run parse closed_by_server)) = None.
Proof. vm_compute. repeat split. Qed.

(** C7 at the README configuration, one second after the last emission. *)
Lemma time_based_flush_run :
  chunk_ready readme_config span35 1 false = Some ByTime.
Proof.
  apply (time_based_flush readme_config span35 1).
  - reflexivity.
  - reflexivity.
  - reflexivity.
  - vm_compute. lia.
  - discriminate.
Defined.


(** A run of the output queue with interleaved responses: the fragments of
    chunk 1 arrive first and are released after those of chunk 0. *)
Example relay_run_interleaved :
  emitted (relay_run [Fragment 1 "b"; Fragment 0 "a"; Completed 1;
                      Fragment 0 "c"; Completed 0; Fragment 2 "d"])
  = [(0, "a"); (0, "c"); (1, "b"); (2, "d")]%nat.
Proof. reflexivity. Qed.

(** A correction that reaches below the frozen boundary. *)
Example reconcile_below_boundary :
  running
    (transcript_run
       [Apply {| frag_text := list_ascii_of_string "the cat sat on teh";
                 is_correction := false; supersedes := 0; frag_seq := 1 |};
        Freeze 8;
        Apply {| frag_text := list_ascii_of_string "T sat on the mat";
                 is_correction := true; supersedes := 12; frag_seq := 2 |}]
       transcript0)
  = list_ascii_of_string "the cat sat on the mat".
Proof. reflexivity. Qed.

End Runs.

(** ** Part III: further properties of the client *)

(** *** [floatTo16BitPCM]: order, saturation, rounding *)
Section PcmExtra.
Import Pcm PcmOrder.


Lemma truncQ_mono (p q : Q) : (p <= q)%Q -> truncQ p <= truncQ q.
Proof.
  unfold Qle, truncQ. destruct p as [a b], q as [c d]. simpl. intros H.
  destruct (Z_lt_le_dec a 0) as [Ha|Ha]; destruct (Z_lt_le_dec c 0) as [Hc|Hc].
  - (* both negative: compare the opposites *)
    assert (Z.quot (- c) (Z.pos d) <= Z.quot (- a) (Z.pos b)).
    { rewrite !Z.quot_div_nonneg by lia.
      apply Z.div_le_lower_bound; [lia|].
      assert (Z.pos d * (- c / Z.pos d) <= - c) by (apply Z.mul_div_le; lia).
      nia. }
    rewrite !Z.quot_opp_l in H0 by lia. lia.
  - assert (Z.quot a (Z.pos b) <= 0).
    { rewrite <- Z.opp_nonneg_nonpos, <- Z.quot_opp_l by lia.
      apply Z.quot_pos; lia. }
    assert (0 <= Z.quot c (Z.pos d)) by (apply Z.quot_pos; lia). lia.
  - nia.
  - rewrite !Z.quot_div_nonneg by lia.
    apply Z.div_le_lower_bound; [lia|].
    assert (Z.pos b * (a / Z.pos b) <= a) by (apply Z.mul_div_le; lia).
    nia.
Qed.
Lemma clampQ_mono (x y : number) :
  num_le x y -> (clampQ x <= clampQ y)%Q.
Proof.
  intros H. pose proof (clampQ_bounds x) as [Hx1 Hx2].
  pose proof (clampQ_bounds y) as [Hy1 Hy2].
  destruct x as [|[|]|p], y as [|[|]|q]; simpl in H; try contradiction;
    try exact Hy1; try exact Hx2; try exact Hx1; try exact Hy2.
  simpl. simpl in Hx1, Hx2, Hy1, Hy2.
  destruct (Qle_bool 1 p) eqn:P1.
  - apply Qle_bool_iff in P1.
    assert (Q1 : Qle_bool 1 q = true).
    { apply Qle_bool_iff. apply Qle_trans with p; [exact P1|exact H]. }
    rewrite Q1. apply Qle_refl.
  - destruct (Qle_bool p (-1)) eqn:P2; [exact Hy1|].
    destruct (Qle_bool 1 q) eqn:Q1; [exact Hx2|].
    destruct (Qle_bool q (-1)) eqn:Q2; [|exact H].
    apply Qle_bool_iff in Q2. apply Qle_bool_false in P2.
    eapply Qle_trans; [exact H|exact Q2].
Qed.

Lemma scaledQ_mono (p q : Q) : (p <= q)%Q -> (scaledQ p <= scaledQ q)%Q.
Proof.
  intros H. unfold scaledQ.
  destruct (Qle_bool 0 p) eqn:Hp; destruct (Qle_bool 0 q) eqn:Hq.
  - apply Qmult_le_compat_r; [exact H|discriminate].
  - apply Qle_bool_iff in Hp. apply Qle_bool_false in Hq.
    assert (q == 0)%Q.
    { apply Qle_antisym; [exact Hq|]. apply Qle_trans with p; [exact Hp|exact H]. }
    assert (p == 0)%Q by (apply Qle_antisym; [rewrite <- H0; exact H|exact Hp]).
    rewrite H0, H1. discriminate.
  - apply Qle_bool_false in Hp. apply Qle_bool_iff in Hq.
    apply Qle_trans with 0%Q.
    + change 0%Q with (0 * 32768)%Q.
      apply Qmult_le_compat_r; [exact Hp|discriminate].
    + change 0%Q with (0 * 32767)%Q.
      apply Qmult_le_compat_r; [exact Hq|discriminate].
  - apply Qmult_le_compat_r; [exact H|discriminate].
Qed.

Lemma convert_mono (x y : number) : num_le x y -> convert x <= convert y.
Proof.
  intros H.
  assert (Hx : x <> NaN) by (intros ->; exact H).
  assert (Hy : y <> NaN) by (intros ->; destruct x as [|[|]|]; exact H).
  rewrite (convert_value x Hx), (convert_value y Hy).
  apply truncQ_mono, scaledQ_mono, clampQ_mono, H.
Qed.

(** X1: [floatTo16BitPCM] is monotone: if every sample of one frame is at
    most the sample at the same place of another frame (NaN excluded), the
    same holds for the stored values. *)
Theorem floatTo16BitPCM_monotone (xs ys : list number) :
  Forall2 num_le xs ys ->
  Forall2 Z.le (floatTo16BitPCM xs) (floatTo16BitPCM ys).
Proof.
  intros H. rewrite !floatTo16BitPCM_map.
  induction H as [|x y xs ys Hxy _ IH]; simpl; constructor; [|exact IH].
  apply convert_mono, Hxy.
Qed.

Lemma convert_saturates (x : number) : saturates x (convert x).
Proof.
  destruct x as [|[|]|q]; try reflexivity.
  rewrite convert_value by discriminate. unfold saturates, clampQ.
  split; [|split].
  - intros H. apply Qle_bool_iff in H. rewrite H. reflexivity.
  - intros H. destruct (Qle_bool 1 q) eqn:H1.
    + apply Qle_bool_iff in H1. exfalso.
      assert (H0 : (1 <= -1)%Q) by (apply Qle_trans with q; [exact H1|exact H]).
      apply H0. reflexivity.
    + apply Qle_bool_iff in H. rewrite H. reflexivity.
  - intros H. destruct (Qle_bool 1 q) eqn:H1.
    + apply Qle_bool_iff in H1. rewrite H in H1. exfalso. apply H1. reflexivity.
    + destruct (Qle_bool q (-1)) eqn:H2.
      * apply Qle_bool_iff in H2. rewrite H in H2. exfalso. apply H2. reflexivity.
      * unfold scaledQ, truncQ. destruct q as [a b]. unfold Qeq in H. simpl in H.
        assert (a = 0) by lia. subst a. reflexivity.
Qed.

(** X2: [floatTo16BitPCM] saturates: a sample of at least 1, Infinity
    included, is stored as 32767, a sample of at most -1, -Infinity
    included, as -32768, zero as 0, and NaN as 0. *)
Theorem floatTo16BitPCM_saturates (input : list number) :
  Forall2 saturates input (floatTo16BitPCM input).
Proof.
  rewrite floatTo16BitPCM_map.
  induction input as [|x input IH]; simpl; constructor; [|exact IH].
  apply convert_saturates.
Qed.

Lemma truncQ_eq (p q : Q) : (p == q)%Q -> truncQ p = truncQ q.
Proof.
  intros H. apply Z.le_antisymm; apply truncQ_mono; rewrite H; apply Qle_refl.
Qed.

Lemma scaledQ_eq (p q : Q) : (p == q)%Q -> (scaledQ p == scaledQ q)%Q.
Proof.
  intros H. apply Qle_antisym; apply scaledQ_mono; rewrite H; apply Qle_refl.
Qed.

Lemma truncQ_floor (s : Q) :
  (0 <= s)%Q ->
  (inject_Z (truncQ s) <= s)%Q /\ (s < inject_Z (truncQ s + 1))%Q.
Proof.
  destruct s as [a b]. unfold Qle, Qlt, truncQ. simpl. intros Ha.
  rewrite Z.quot_div_nonneg by lia.
  pose proof (Z.mul_div_le a (Z.pos b) ltac:(lia)).
  pose proof (Z.mul_succ_div_gt a (Z.pos b) ltac:(lia)).
  split; lia.
Qed.

Lemma truncQ_ceil (s : Q) :
  (s <= 0)%Q ->
  (inject_Z (truncQ s - 1) < s)%Q /\ (s <= inject_Z (truncQ s))%Q.
Proof.
  destruct s as [a b]. unfold Qle, Qlt, truncQ. simpl. intros Ha.
  assert (E : Z.quot a (Z.pos b) = - ((- a) / Z.pos b)).
  { rewrite <- Z.quot_div_nonneg, Z.quot_opp_l by lia. lia. }
  rewrite E.
  pose proof (Z.mul_div_le (- a) (Z.pos b) ltac:(lia)).
  pose proof (Z.mul_succ_div_gt (- a) (Z.pos b) ltac:(lia)).
  split; lia.
Qed.

Lemma convert_quantised (x : number) : quantised x (convert x).
Proof.
  destruct x as [| |q]; simpl; auto. intros Hlo Hhi.
  rewrite convert_value by discriminate.
  rewrite (truncQ_eq _ _ (scaledQ_eq _ _ (clampQ_in_range q Hlo Hhi))).
  destruct (Qle_bool 0 q) eqn:H0.
  - apply truncQ_floor. unfold scaledQ. rewrite H0.
    apply Qle_bool_iff in H0. change 0%Q with (0 * 32767)%Q.
    apply Qmult_le_compat_r; [exact H0|discriminate].
  - apply truncQ_ceil. unfold scaledQ. rewrite H0.
    apply Qle_bool_false in H0. change 0%Q with (0 * 32768)%Q.
    apply Qmult_le_compat_r; [exact H0|discriminate].
Qed.

(** X3: for a sample within [-1, 1] the stored value is the scaled sample
    (times 32767 when non-negative, times 32768 when negative) rounded
    toward zero: it differs from the scaled sample by less than 1. *)
Theorem floatTo16BitPCM_quantised (input : list number) :
  Forall2 quantised input (floatTo16BitPCM input).
Proof.
  rewrite floatTo16BitPCM_map.
  induction input as [|x input IH]; simpl; constructor; [|exact IH].
  apply convert_quantised.
Qed.

End PcmExtra.

(** *** [encodeBase64]: shape and losslessness *)
Section Base64Extra.
Import Base64 Atob.

Lemma encodeBase64_encode (input : list Z) :
  encodeBase64 input = string_of_list_ascii (encode (buffer_bytes input)).
Proof.
  unfold encodeBase64, btoa.
  rewrite loop_all, drop_0, append_nil_l, codes_of_fromCharCode,
    buffer_bytes_are_bytes.
  reflexivity.
Qed.

(** Induction three bytes at a time, as [encode] recurses. *)
Lemma triples_ind (P : list Z -> Prop) :
  P [] -> (forall a, P [a]) -> (forall a b, P [a; b]) ->
  (forall a b c rest, P rest -> P (a :: b :: c :: rest)) ->
  forall bs, P bs.
Proof.
  intros H0 H1 H2 H3.
  assert (H : forall n bs, (length bs <= n)%nat -> P bs).
  { induction n as [|n IH]; intros bs Hn.
    - destruct bs; [exact H0|simpl in Hn; lia].
    - destruct bs as [|a [|b [|c rest]]]; auto.
      apply H3, IH. simpl in Hn. lia. }
  intros bs. exact (H (length bs) bs (le_n _)).
Qed.

Lemma length_encode (bs : list Z) :
  length (encode bs) = encoded_length (length bs).
Proof.
  unfold encoded_length.
  induction bs as [| | |a b c rest IH] using triples_ind; try reflexivity.
  cbn [encode length]. rewrite IH.
  replace (S (S (S (length rest))) + 2)%nat with (1 * 3 + (length rest + 2))%nat by lia.
  rewrite Nat.div_add_l by lia. lia.
Qed.

Lemma length_string_of_list_ascii (l : list ascii) :
  String.length (string_of_list_ascii l) = length l.
Proof. induction l as [|c l IH]; simpl; [|rewrite IH]; reflexivity. Qed.

Lemma length_buffer_bytes (input : list Z) :
  length (buffer_bytes input) = (2 * length input)%nat.
Proof.
  unfold buffer_bytes. induction input as [|v input IH]; [reflexivity|].
  simpl. rewrite IH. lia.
Qed.

Lemma forall_range (n : nat) (f : Z -> bool) :
  forallb f (range n) = true -> forall z, 0 <= z < Z.of_nat n -> f z = true.
Proof.
  intros H z Hz. rewrite forallb_forall in H. apply H.
  unfold range. apply in_map_iff. exists (Z.to_nat z).
  split; [lia|]. apply in_seq. lia.
Qed.

Lemma sextet_digit (n : Z) : sextet (digit n) = Some (Z.land n 63).
Proof.
  assert (Hr : 0 <= Z.land n 63 < 64).
  { change 63 with (Z.ones 6). rewrite Z.land_ones by lia.
    apply Z.mod_pos_bound. lia. }
  assert (Hd : digit n = digit (Z.land n 63)).
  { unfold digit. rewrite <- Z.land_assoc. reflexivity. }
  rewrite Hd.
  assert (H : forallb (fun k => bool_decide (sextet (digit k) = Some k))
                      (range 64) = true) by (vm_compute; reflexivity).
  apply (forall_range 64 _ H) in Hr. apply bool_decide_eq_true in Hr.
  rewrite Hr. reflexivity.
Qed.

Lemma digit_not_pad (n : Z) : Ascii.eqb (digit n) "=" = false.
Proof.
  destruct (Ascii.eqb_spec (digit n) "=") as [E|]; [|reflexivity].
  pose proof (sextet_digit n) as H. rewrite E in H. discriminate H.
Qed.

Lemma low_bits (a : Z) (k : nat) : 0 <= Z.land a (Z.ones (Z.of_nat k)) < 2 ^ Z.of_nat k.
Proof. rewrite Z.land_ones by lia. apply Z.mod_pos_bound. lia. Qed.

Lemma high_bits (a k q : Z) :
  0 <= k -> 0 <= a < 2 ^ k * q -> 0 <= Z.shiftr a k < q.
Proof.
  intros Hk Ha. rewrite Z.shiftr_div_pow2 by lia. split.
  - apply Z.div_pos; lia.
  - apply Z.div_lt_upper_bound; lia.
Qed.

(** The three bytes of a group are recovered from its four sextets. *)
Lemma first_byte (a y : Z) :
  0 <= a < 256 -> 0 <= y < 16 ->
  byte1 (Z.land (Z.shiftr a 2) 63)
        (Z.land (Z.lor (Z.shiftl (Z.land a 3) 4) y) 63) = a.
Proof.
  intros Ha Hy.
  assert (H : forallb (fun a => forallb (fun y =>
                bool_decide (byte1 (Z.land (Z.shiftr a 2) 63)
                   (Z.land (Z.lor (Z.shiftl (Z.land a 3) 4) y) 63) = a))
                (range 16)) (range 256) = true) by (vm_compute; reflexivity).
  apply (forall_range 256 _ H) in Ha. apply (forall_range 16 _ Ha) in Hy.
  apply bool_decide_eq_true in Hy. exact Hy.
Qed.

Lemma second_byte (x b z : Z) :
  0 <= x < 4 -> 0 <= b < 256 -> 0 <= z < 4 ->
  byte2 (Z.land (Z.lor (Z.shiftl x 4) (Z.shiftr b 4)) 63)
        (Z.land (Z.lor (Z.shiftl (Z.land b 15) 2) z) 63) = b.
Proof.
  intros Hx Hb Hz.
  assert (H : forallb (fun x => forallb (fun b => forallb (fun z =>
                bool_decide (byte2
                   (Z.land (Z.lor (Z.shiftl x 4) (Z.shiftr b 4)) 63)
                   (Z.land (Z.lor (Z.shiftl (Z.land b 15) 2) z) 63) = b))
                (range 4)) (range 256)) (range 4) = true)
    by (vm_compute; reflexivity).
  apply (forall_range 4 _ H) in Hx. apply (forall_range 256 _ Hx) in Hb.
  apply (forall_range 4 _ Hb) in Hz.
  apply bool_decide_eq_true in Hz. exact Hz.
Qed.

Lemma third_byte (w c : Z) :
  0 <= w < 16 -> 0 <= c < 256 ->
  byte3 (Z.land (Z.lor (Z.shiftl w 2) (Z.shiftr c 6)) 63) (Z.land c 63) = c.
Proof.
  intros Hw Hc.
  assert (H : forallb (fun w => forallb (fun c =>
                bool_decide (byte3
                   (Z.land (Z.lor (Z.shiftl w 2) (Z.shiftr c 6)) 63)
                   (Z.land c 63) = c))
                (range 256)) (range 16) = true) by (vm_compute; reflexivity).
  apply (forall_range 16 _ H) in Hw. apply (forall_range 256 _ Hw) in Hc.
  apply bool_decide_eq_true in Hc. exact Hc.
Qed.

Lemma decode_encode (bs : list Z) :
  Forall is_byte bs -> decode (encode bs) = Some bs.
Proof.
  induction bs as [|a|a b|a b c rest IH] using triples_ind; intros Hb.
  - reflexivity.
  - apply Forall_cons in Hb as [Ha _].
    cbn [encode decode]. unfold pad. rewrite !sextet_digit. cbn [mbind option_bind].
    change (Ascii.eqb "=" "=") with true.
    rewrite bool_decide_eq_true_2 by reflexivity. cbn [andb].
    pose proof (first_byte a 0 Ha ltac:(lia)) as H.
    rewrite Z.lor_0_r in H. rewrite H. reflexivity.
  - apply Forall_cons in Hb as [Ha Hb]. apply Forall_cons in Hb as [Hb _].
    cbn [encode decode]. unfold pad. rewrite !sextet_digit. cbn [mbind option_bind].
    change (Ascii.eqb "=" "=") with true.
    rewrite bool_decide_eq_true_2 by reflexivity.
    cbn [andb]. rewrite digit_not_pad. cbn [mbind option_bind].
    rewrite (first_byte a (Z.shiftr b 4) Ha) by (apply (high_bits b 4 16); [lia|exact Hb]).
    pose proof (second_byte (Z.land a 3) b 0 (low_bits a 2) Hb ltac:(lia)) as H.
    rewrite Z.lor_0_r in H. rewrite H. reflexivity.
  - apply Forall_cons in Hb as [Ha Hb]. apply Forall_cons in Hb as [Hb Hc].
    apply Forall_cons in Hc as [Hc Hrest].
    cbn [encode decode]. unfold pad. rewrite !sextet_digit. cbn [mbind option_bind].
    rewrite digit_not_pad. cbn [andb mbind option_bind].
    rewrite (IH Hrest). cbn [mbind option_bind].
    rewrite (first_byte a (Z.shiftr b 4) Ha) by (apply (high_bits b 4 16); [lia|exact Hb]).
    rewrite (second_byte (Z.land a 3) b (Z.shiftr c 6) (low_bits a 2) Hb)
      by (apply (high_bits c 6 4); [lia|exact Hc]).
    rewrite (third_byte (Z.land b 15) c (low_bits b 4) Hc).
    reflexivity.
Qed.

Lemma buffer_bytes_bytes (input : list Z) : Forall is_byte (buffer_bytes input).
Proof.
  unfold buffer_bytes. induction input as [|v input IH]; [constructor|].
  simpl. constructor; [apply byte_of_range|].
  constructor; [apply byte_of_range|exact IH].
Qed.

Lemma int16_of_bytes (v : Z) :
  Pcm.wrap16 (byte_of v + 256 * byte_of (Z.shiftr v 8)) = Pcm.wrap16 v.
Proof.
  unfold byte_of, Pcm.wrap16. change 255 with (Z.ones 8).
  rewrite !Z.land_ones, Z.shiftr_div_pow2 by lia.
  assert (E : v mod 2 ^ 8 + 256 * ((v / 2 ^ 8) mod 2 ^ 8) = v mod 65536).
  { change 65536 with (2 ^ 8 * 2 ^ 8). rewrite Z.rem_mul_r by lia. lia. }
  rewrite E, Z.add_mod_idemp_l by lia. reflexivity.
Qed.

Lemma int16s_buffer_bytes (input : list Z) :
  int16s (buffer_bytes input) = Some (map Pcm.wrap16 input).
Proof.
  unfold buffer_bytes. induction input as [|v input IH]; [reflexivity|].
  cbn [map concat int16_bytes app int16s]. rewrite IH. cbn [mbind option_bind]. rewrite int16_of_bytes. reflexivity.
Qed.

Lemma map_wrap16_id (xs : list Z) : Forall Pcm.in_int16 xs -> map Pcm.wrap16 xs = xs.
Proof.
  induction 1 as [|x xs Hx _ IH]; [reflexivity|].
  simpl. rewrite IH, (wrap16_id x Hx). reflexivity.
Qed.

Lemma decodeBase64_encodeBase64 (input : list Z) :
  decodeBase64 (encodeBase64 input) = Some (map Pcm.wrap16 input).
Proof.
  unfold decodeBase64.
  rewrite encodeBase64_encode, list_ascii_of_string_of_list_ascii.
  rewrite decode_encode by apply buffer_bytes_bytes.
  apply int16s_buffer_bytes.
Qed.

Lemma encodeBase64_view (input : TypedArray.Int16Array) :
  TypedArray.encodeBase64 input
  = string_of_list_ascii
      (encode (map byte_of (TypedArray.buffer input))).
Proof.
  unfold TypedArray.encodeBase64, TypedArray.Uint8Array_of, btoa.
  rewrite loop_all, drop_0, append_nil_l, codes_of_fromCharCode.
  rewrite map_map. f_equal. f_equal. apply map_ext. intros b. apply byte_of_idem.
Qed.

Lemma encodeBase64_allocated (elements : list Z) :
  TypedArray.encodeBase64 (TypedArray.allocated elements)
  = encodeBase64 elements.
Proof.
  unfold TypedArray.encodeBase64, TypedArray.Uint8Array_of, encodeBase64.
  simpl. rewrite buffer_bytes_are_bytes. reflexivity.
Qed.

Lemma map_byte_of_bytes (bs : list Z) : Forall is_byte (map byte_of bs).
Proof.
  induction bs as [|b bs IH]; simpl; constructor; [apply byte_of_range|exact IH].
Qed.

(** X5: [encodeBase64] loses nothing of the buffer it reads: decoding its
    text as base64 gives back every byte of [input.buffer].  It reads the
    whole buffer, so a view of a part of a buffer encodes as the array it
    was taken from.  For an array that owns its buffer, as the frame
    [floatTo16BitPCM] allocates, decoding and regrouping the bytes low byte
    first gives back the elements (each taken as a signed 16-bit value),
    and two such arrays of 16-bit values with the same text are equal. *)
Theorem encodeBase64_decodes (input : TypedArray.Int16Array) :
  decode (list_ascii_of_string (TypedArray.encodeBase64 input))
  = Some (map byte_of (TypedArray.buffer input))
  /\ (forall b e,
        TypedArray.encodeBase64 (TypedArray.subarray16 input b e)
        = TypedArray.encodeBase64 input)
  /\ (forall elements,
        decodeBase64 (TypedArray.encodeBase64 (TypedArray.allocated elements))
        = Some (map Pcm.wrap16 elements))
  /\ (forall xs ys,
        Forall Pcm.in_int16 xs -> Forall Pcm.in_int16 ys ->
        TypedArray.encodeBase64 (TypedArray.allocated xs)
        = TypedArray.encodeBase64 (TypedArray.allocated ys) ->
        xs = ys).
Proof.
  split; [|split; [|split]].
  - rewrite encodeBase64_view, list_ascii_of_string_of_list_ascii.
    apply decode_encode, map_byte_of_bytes.
  - intros b e. reflexivity.
  - intros elements. rewrite encodeBase64_allocated.
    apply decodeBase64_encodeBase64.
  - intros xs ys Hx Hy E. rewrite !encodeBase64_allocated in E.
    pose proof (decodeBase64_encodeBase64 xs) as H1.
    rewrite E, decodeBase64_encodeBase64 in H1.
    rewrite (map_wrap16_id _ Hx), (map_wrap16_id _ Hy) in H1. congruence.
Qed.

Lemma encode_chars (bs : list Z) : Forall base64_char (encode bs).
Proof.
  assert (Hd : forall n, base64_char (digit n)).
  { intros n. left. rewrite sextet_digit. eexists. reflexivity. }
  assert (Hp : base64_char "=") by (right; reflexivity).
  induction bs as [|a|a b|a b c rest IH] using triples_ind; cbn [encode];
    repeat (constructor; try apply Hd; try exact Hp). exact IH.
Qed.

(** X4: the text [encodeBase64] returns has 4 * ceil(m / 3) characters,
    where m is the byte length of [input.buffer], all of them from the
    base64 alphabet or the padding character.  For an array of n elements
    that owns its buffer this is 4 * ceil(2n / 3); in particular the audio
    directive of a frame of n samples carries that many characters. *)
Theorem encodeBase64_shape (input : TypedArray.Int16Array) :
  String.length (TypedArray.encodeBase64 input)
  = encoded_length (length (TypedArray.buffer input))
  /\ Forall base64_char
       (list_ascii_of_string (TypedArray.encodeBase64 input))
  /\ (forall elements,
        String.length
          (TypedArray.encodeBase64 (TypedArray.allocated elements))
        = encoded_length (2 * length elements))
  /\ (forall samples : list Pcm.number,
        String.length
          (TypedArray.encodeBase64
             (TypedArray.allocated (Pcm.floatTo16BitPCM samples)))
        = encoded_length (2 * length samples)).
Proof.
  assert (H : forall a, String.length (TypedArray.encodeBase64 a)
                        = encoded_length (length (TypedArray.buffer a))).
  { intros a. rewrite encodeBase64_view, length_string_of_list_ascii,
      length_encode, length_map. reflexivity. }
  assert (H2 : forall xs,
             String.length (TypedArray.encodeBase64 (TypedArray.allocated xs))
             = encoded_length (2 * length xs)).
  { intros xs. rewrite H. simpl. rewrite length_buffer_bytes. reflexivity. }
  split; [apply H|]. split; [|split].
  - rewrite encodeBase64_view, list_ascii_of_string_of_list_ascii.
    apply encode_chars.
  - exact H2.
  - intros samples. rewrite H2, floatTo16BitPCM_map, length_map. reflexivity.
Qed.

End Base64Extra.

(** *** [processAudio], [handleUpload] and the language select *)
Section UploadExtra.
Import App Upload.
Variable JSON_parse : string -> option Js.value.
Variable decoder : Type.
Variable decoder_new : decoder.
Variable decode : decoder -> list Z -> string * decoder.
Variable net : network.

(** Reading any stream appends the texts decoded before its end. *)
Lemma read_all_outcome (s : stream) (d : decoder) (w : world) :
  read_all decoder decode s d w
  = (outcome_of (stream_error s),
     appended (concat_all (decoded decoder decode s d)) w).
Proof.
  revert d w. induction s as [|message|value rest IH]; intros d w.
  - simpl. rewrite appended_nil. reflexivity.
  - simpl. rewrite appended_nil. reflexivity.
  - destruct value as [value|]; simpl.
    + destruct (decode d value) as [chunk d'] eqn:Hd.
      unfold bind, update. simpl.
      rewrite (IH d' _). fold (appended chunk w).
      rewrite appended_appended. reflexivity.
    + apply IH.
Qed.

Ltac run_flow :=
  unfold handleUpload, select_language, targetLang_effect,
    processAudio, processAudio_v0, processAudio_try, processAudio_catch,
    processAudio_finally, parse_text, try_finally, try_catch, bind, gets,
    update, lift, fetch, throw, ret; cbn.

Ltac split_cases :=
  repeat match goal with
         | |- context [match ?x with _ => _ end] =>
             lazymatch x with
             | context [match _ with _ => _ end] => fail
             | _ => destruct x eqn:?; cbn
             end
         end.

Lemma processAudio_settles (file : File) (w : world) :
  let out := processAudio JSON_parse decoder decoder_new decode net
               (Some file) w in
  out.1 = Ok tt
  /\ loading (w_ui out.2) = None
  /\ status (w_ui out.2) = ""
  /\ transcript (w_ui out.2) = ""
  /\ audioFile (w_ui out.2) = audioFile (w_ui w)
  /\ targetLang (w_ui out.2) = targetLang (w_ui w).
Proof.
  run_flow. split_cases; 
    try (rewrite read_all_outcome in *; simplify_eq/=); auto 10.
Qed.

Lemma requests_of_processAudio (file : File) (w : world) :
  w_requests (processAudio JSON_parse decoder decoder_new decode net
                (Some file) w).2
  = w_requests w ++ Transcribe file
      :: translate_request JSON_parse net file (targetLang (w_ui w)).
Proof.
  unfold translate_request, transcribed_text. run_flow. split_cases;
    try (rewrite read_all_outcome in *; simplify_eq/=);
    rewrite <- ?app_assoc; try reflexivity; try discriminate.
Qed.

Lemma transcribed_text_Some (file : File) (text : string) :
  transcribed_text JSON_parse net file = Some text ->
  exists res body parsed v,
    net (Transcribe file) = Ok res /\ text_ res = Ok body /\ ok res = true
    /\ JSON_parse body = Some parsed /\ Js.get parsed "text" = Some v
    /\ text = Js.to_string (Js.or v (Js.Str "")).
Proof.
  unfold transcribed_text. intros Ht.
  destruct (net (Transcribe file)) as [res|] eqn:H1; [|discriminate].
  destruct (text_ res) as [body|] eqn:H2; [|discriminate].
  destruct (ok res) eqn:H3; [|discriminate].
  destruct (JSON_parse body) as [parsed|] eqn:H4; [|discriminate].
  destruct (Js.get parsed "text") as [v|] eqn:H5; [|discriminate].
  injection Ht as <-. exists res, body, parsed, v. auto 10.
Qed.

Ltac run_transcribed Ht :=
  apply transcribed_text_Some in Ht
    as (?res & ?body & ?parsed & ?v & Ht1 & Ht2 & Ht3 & Ht4 & Ht5 & ->);
  run_flow; rewrite Ht1; cbn; rewrite Ht2, Ht3; cbn; rewrite Ht4, Ht5; cbn.

(** X8: when the translate response is not ok, the translation stays
    empty and the error shown is the body of the response, or Translate
    followed by the status code when the body is empty. *)
Theorem processAudio_translate_failure
    (file : File) (w : world) (text errText : string) (res : response) :
  transcribed_text JSON_parse net file = Some text ->
  net (Translate text (targetLang (w_ui w))) = Ok res ->
  ok res = false ->
  text_ res = Ok errText ->
  let out := processAudio JSON_parse decoder decoder_new decode net
               (Some file) w in
  translation (w_ui out.2) = ""
  /\ error (w_ui out.2)
     = (if String.eqb errText "" then "Translate " +:+ show (status_code res)
        else errText).
Proof.
  intros Ht Hnet Hok Htext. run_transcribed Ht.
  rewrite Hnet. cbn. rewrite Hok. cbn. rewrite Htext. cbn. auto.
Qed.

(** X9: for an ok translate response with a stream reader, the displayed
    translation is the concatenation of what was decoded before the reads
    ended, also when they end in a failure; the error is then the message
    of the failure, and empty otherwise. *)
Theorem processAudio_stream_outcome
    (file : File) (w : world) (text : string) (res : response) (body : stream) :
  transcribed_text JSON_parse net file = Some text ->
  net (Translate text (targetLang (w_ui w))) = Ok res ->
  ok res = true ->
  reader res = Some body ->
  let out := processAudio JSON_parse decoder decoder_new decode net
               (Some file) w in
  translation (w_ui out.2)
  = concat_all (decoded decoder decode body decoder_new)
  /\ error (w_ui out.2) = default "" (stream_error body).
Proof.
  intros Ht Hnet Hok Hbody. run_transcribed Ht.
  rewrite Hnet. cbn. rewrite Hok. cbn. rewrite Hbody. cbn.
  rewrite read_all_outcome. destruct (stream_error body); cbn; auto.
Qed.

(** X10: when [fetch] rejects, for the transcribe or for the translate
    request, the error shown is the message of the rejection and the
    translation is empty. *)
Theorem processAudio_rejected_fetch (file : File) (w : world) (message : string) :
  let out := processAudio JSON_parse decoder decoder_new decode net
               (Some file) w in
  (net (Transcribe file) = Thrown message ->
   error (w_ui out.2) = message /\ translation (w_ui out.2) = "")
  /\ (forall text,
        transcribed_text JSON_parse net file = Some text ->
        net (Translate text (targetLang (w_ui w))) = Thrown message ->
        error (w_ui out.2) = message /\ translation (w_ui out.2) = "").
Proof.
  split.
  - intros Hnet. run_flow. rewrite Hnet. cbn. auto.
  - intros text Ht Hnet. run_transcribed Ht.
    rewrite Hnet. cbn. auto.
Qed.

(** X6: whatever the server does (rejected requests, error statuses,
    malformed bodies, broken streams), [processAudio] on a file does not
    throw and ends with loading null, status empty and transcript empty,
    and leaves the stored file and the target language as they were. *)
Theorem processAudio_always_settles (file : File) (w : world) :
  let out := processAudio JSON_parse decoder decoder_new decode net
               (Some file) w in
  out.1 = Ok tt
  /\ loading (w_ui out.2) = None
  /\ status (w_ui out.2) = ""
  /\ transcript (w_ui out.2) = ""
  /\ audioFile (w_ui out.2) = audioFile (w_ui w)
  /\ targetLang (w_ui out.2) = targetLang (w_ui w).
Proof. exact (processAudio_settles file w). Qed.

Lemma get_Some (parsed v : Js.value) (k : string) :
  Js.get parsed k = Some v
  <-> parsed <> Js.Null /\ parsed <> Js.Undefined /\ v = Js.prop parsed k.
Proof.
  unfold Js.prop. destruct parsed; simpl; split;
    try (intros [= <-]; repeat split; discriminate);
    try (intros (_ & _ & ->); reflexivity);
    try discriminate; intros (H1 & H2 & _); congruence.
Qed.

Lemma transcribed_text_iff (file : File) (text : string) :
  transcribed_text JSON_parse net file = Some text
  <-> exists res body parsed,
        net (Transcribe file) = Ok res /\ text_ res = Ok body
        /\ ok res = true /\ JSON_parse body = Some parsed
        /\ parsed <> Js.Null /\ parsed <> Js.Undefined
        /\ text = Js.to_string (Js.or (Js.prop parsed "text") (Js.Str "")).
Proof.
  split.
  - intros Ht. apply transcribed_text_Some in Ht
      as (res & body & parsed & v & H1 & H2 & H3 & H4 & H5 & ->).
    apply get_Some in H5 as (H5 & H6 & ->).
    exists res, body, parsed. auto 10.
  - intros (res & body & parsed & H1 & H2 & H3 & H4 & H5 & H6 & ->).
    unfold transcribed_text. rewrite H1, H2, H3, H4.
    destruct (Js.get parsed "text") as [v|] eqn:Hg.
    + apply get_Some in Hg as (_ & _ & ->). reflexivity.
    + destruct parsed; simpl in Hg; congruence.
Qed.

(** X7: [processAudio] on a file issues the transcribe request first and
    at most one translate request after it.  The translate request is
    issued exactly when the transcribe request is answered, the body of
    the answer can be read, the answer is ok and the body parses to a
    value other than null.  It carries [String(text || "")] of the [text]
    member of that value and the target language of the call; for a value
    without a [text] member, such as an empty object or a number, that is
    the empty text. *)
Theorem processAudio_requests (file : File) (w : world) :
  let requests :=
    w_requests (processAudio JSON_parse decoder decoder_new decode net
                  (Some file) w).2 in
  let lang := targetLang (w_ui w) in
  (requests = w_requests w ++ [Transcribe file]
   \/ exists text,
        requests = w_requests w ++ [Transcribe file; Translate text lang])
  /\ (forall text,
        requests = w_requests w ++ [Transcribe file; Translate text lang]
        <-> exists res body parsed,
              net (Transcribe file) = Ok res /\ text_ res = Ok body
              /\ ok res = true /\ JSON_parse body = Some parsed
              /\ parsed <> Js.Null /\ parsed <> Js.Undefined
              /\ text = Js.to_string
                          (Js.or (Js.prop parsed "text") (Js.Str "")))
  /\ (forall res body parsed,
        net (Transcribe file) = Ok res -> text_ res = Ok body ->
        ok res = true -> JSON_parse body = Some parsed ->
        parsed <> Js.Null -> parsed <> Js.Undefined ->
        Js.prop parsed "text" = Js.Undefined ->
        requests = w_requests w ++ [Transcribe file; Translate "" lang]).
Proof.
  intros requests lang. subst requests lang.
  rewrite requests_of_processAudio. unfold translate_request.
  assert (Hiff : forall text,
    w_requests w ++ Transcribe file
      :: match transcribed_text JSON_parse net file with
         | Some t => [Translate t (targetLang (w_ui w))]
         | None => []
         end
    = w_requests w ++ [Transcribe file; Translate text (targetLang (w_ui w))]
    <-> transcribed_text JSON_parse net file = Some text).
  { intros text. split.
    - intros E. apply app_inv_head in E.
      destruct (transcribed_text JSON_parse net file); congruence.
    - intros ->. reflexivity. }
  split; [|split].
  - destruct (transcribed_text JSON_parse net file) as [t|];
      [right; exists t|left]; reflexivity.
  - intros text. rewrite Hiff. apply transcribed_text_iff.
  - intros res body parsed H1 H2 H3 H4 H5 H6 H7. apply Hiff.
    apply transcribed_text_iff. exists res, body, parsed.
    rewrite H7. auto 10.
Qed.

Lemma setTargetLang_same (u : ui) : setTargetLang (targetLang u) u = u.
Proof. destruct u. reflexivity. Qed.

(** X11: choosing a language when no file is stored, or while the
    component is processing or recording, issues no request; it only
    stores the language, and while recording (the control is disabled)
    nothing changes. *)
Theorem select_language_when_busy (l : string) (w : world) :
  audioFile (w_ui w) = None \/ loading (w_ui w) <> None ->
  select_language JSON_parse decoder decoder_new decode net l w
  = (Ok tt,
     {| w_ui := setTargetLang
                  (match loading (w_ui w) with
                   | Some recording => targetLang (w_ui w)
                   | _ => l
                   end) (w_ui w);
        w_requests := w_requests w |}).
Proof.
  intros H. destruct w as [u reqs]. cbn in H.
  unfold select_language, targetLang_effect, bind, gets, update, ret. cbn.
  destruct (loading u) as [[|]|] eqn:Hl.
  - destruct (String.eqb_spec l (targetLang u)) as [->|Hne].
    + rewrite setTargetLang_same. reflexivity.
    + cbn. rewrite Hl. destruct (audioFile u); reflexivity.
  - rewrite setTargetLang_same. reflexivity.
  - destruct H as [H|H]; [|congruence].
    destruct (String.eqb_spec l (targetLang u)) as [->|Hne].
    + rewrite setTargetLang_same. reflexivity.
    + cbn. rewrite H. reflexivity.
Qed.

Lemma select_language_runs (l : string) (file : File) (w : world) :
  audioFile (w_ui w) = Some file ->
  loading (w_ui w) = None ->
  l <> targetLang (w_ui w) ->
  select_language JSON_parse decoder decoder_new decode net l w
  = processAudio JSON_parse decoder decoder_new decode net (Some file)
      {| w_ui := setTranslation (put "") (setTargetLang l (w_ui w));
         w_requests := w_requests w |}.
Proof.
  intros Hf Hl Hne. destruct w as [u reqs]. cbn in *.
  unfold select_language, targetLang_effect, bind, gets, update, ret. cbn.
  rewrite Hl. destruct (String.eqb_spec l (targetLang u)); [contradiction|].
  cbn. rewrite Hf, Hl. reflexivity.
Qed.

(** X12: choosing another language while a file is stored and the
    component is idle runs the whole flow again: the stored file is
    transcribed again and the translate request carries the new language;
    the file stays stored and the component ends idle. *)
Theorem select_language_reruns (l : string) (file : File) (w : world) :
  audioFile (w_ui w) = Some file ->
  loading (w_ui w) = None ->
  l <> targetLang (w_ui w) ->
  let out := select_language JSON_parse decoder decoder_new decode net l w in
  w_requests out.2
  = w_requests w ++ Transcribe file :: translate_request JSON_parse net file l
  /\ targetLang (w_ui out.2) = l
  /\ audioFile (w_ui out.2) = Some file
  /\ loading (w_ui out.2) = None.
Proof.
  intros Hf Hl Hne. cbv zeta.
  rewrite (select_language_runs l file w Hf Hl Hne).
  rewrite requests_of_processAudio.
  destruct (processAudio_settles file
              {| w_ui := setTranslation (put "") (setTargetLang l (w_ui w));
                 w_requests := w_requests w |})
    as (_ & H2 & _ & _ & H5 & H6).
  cbn in *. rewrite H5, H6. auto.
Qed.

Lemma handleUpload_runs (file : File) (w : world) :
  handleUpload JSON_parse decoder decoder_new decode net (Some file) w
  = processAudio JSON_parse decoder decoder_new decode net (Some file)
      {| w_ui := setAudioFile (Some file)
                   (setTranslation (put "")
                      (setTranscript (put "") (setError "" (w_ui w))));
         w_requests := w_requests w |}.
Proof. reflexivity. Qed.

(** X13: after [handleUpload] of a file, the file is stored, and choosing
    another language then sends the same file to the transcribe endpoint a
    second time; the requests are, in order, those of the upload with the
    old language and those of a run with the new one. *)
Theorem upload_then_select_language (l : string) (file : File) (w : world) :
  l <> targetLang (w_ui w) ->
  let uploaded :=
    (handleUpload JSON_parse decoder decoder_new decode net (Some file) w).2 in
  let out :=
    (select_language JSON_parse decoder decoder_new decode net l uploaded).2 in
  audioFile (w_ui uploaded) = Some file
  /\ w_requests out
     = w_requests w
       ++ (Transcribe file :: translate_request JSON_parse net file (targetLang (w_ui w)))
       ++ (Transcribe file :: translate_request JSON_parse net file l).
Proof.
  intros Hne. cbv zeta. rewrite handleUpload_runs.
  set (w0 := {| w_ui := _; w_requests := _ |}).
  destruct (processAudio_settles file w0) as (_ & H2 & _ & _ & H5 & H6).
  pose proof (requests_of_processAudio file w0) as Hr.
  set (w1 := (processAudio _ _ _ _ _ (Some file) w0).2) in *.
  cbn in H5, H6, Hr. split; [exact H5|].
  rewrite (select_language_runs l file w1 H5 H2) by (rewrite H6; exact Hne).
  rewrite requests_of_processAudio. cbn. rewrite Hr, <- app_assoc. reflexivity.
Qed.

End UploadExtra.

(** *** The streaming session: stopping and closing *)
Section StreamExtra.
Import App Stream Session.

Lemma stopRecording_refs (c : client) : c_refs (stopRecording c) = no_refs.
Proof.
  unfold stopRecording.
  destruct (ws_is_open c); cbn;
    repeat match goal with
           | |- context [match ?r with Some _ => _ | None => _ end] =>
               destruct r; cbn
           | |- context [on_ref ?r ?f ?c] => destruct r; cbn
           end; reflexivity.
Qed.

Lemma stopRecording_ui (c : client) :
  c_ui (stopRecording c) = setStatus "" (setLoading None (c_ui c)).
Proof.
  unfold stopRecording.
  destruct (ws_is_open c); cbn;
    repeat match goal with
           | |- context [match ?r with Some _ => _ | None => _ end] =>
               destruct r; cbn
           | |- context [on_ref ?r ?f ?c] => destruct r; cbn
           end; reflexivity.
Qed.

Lemma stopRecording_detached (c : client) :
  c_refs c = no_refs ->
  stopRecording c = with_ui (fun u => setStatus "" (setLoading None u)) c.
Proof.
  destruct c as [u ss ps r]. cbn. intros ->. reflexivity.
Qed.

Lemma client_eq (c c' : client) :
  c_ui c = c_ui c' -> sockets c = sockets c' -> pipelines c = pipelines c' ->
  c_refs c = c_refs c' -> c = c'.
Proof. destruct c, c'. cbn. congruence. Qed.

(** X14: [stopRecording] is idempotent: a second call, as made by the close
    handler after the button, changes nothing and sends nothing. *)
Theorem stopRecording_idempotent (c : client) :
  stopRecording (stopRecording c) = stopRecording c.
Proof.
  rewrite (stopRecording_detached (stopRecording c)) by apply stopRecording_refs.
  apply client_eq; reflexivity.
Qed.

Variable JSON_parse : string -> option Js.value.

Lemma length_sockets_alter (f : socket -> socket) (id : nat) (c : client) :
  length (sockets (with_sockets (alter f id) c)) = length (sockets c).
Proof. cbn. apply length_alter. Qed.

Lemma on_payload_frame (payload : option Js.value) (u : ui) :
  audioFile (on_payload payload u) = audioFile u
  /\ targetLang (on_payload payload u) = targetLang u
  /\ loading (on_payload payload u) = loading u.
Proof.
  unfold on_payload. destruct payload as [payload|]; [|auto].
  destruct (Js.get payload "type") as [type|]; [|auto].
  repeat (destruct (Js.is_str type _); [cbn; auto|]). auto.
Qed.

Lemma stopRecording_length_sockets (c : client) :
  length (sockets (stopRecording c)) = length (sockets c).
Proof.
  rewrite stopRecording_sockets.
  destruct (wsRef (c_refs c)); [|reflexivity].
  destruct (ws_is_open c); apply length_alter.
Qed.

Lemma unmount_frame (c : client) :
  c_refs (unmount c) = c_refs c /\ c_ui (unmount c) = c_ui c
  /\ length (sockets (unmount c)) = length (sockets c).
Proof.
  destruct c as [u ss ps [w a p s m]]. unfold unmount. cbn.
  destruct w, p, s, a, m; cbn; rewrite ?length_alter; auto.
Qed.

(** Nothing more is sent on a socket once it is closing or closed. *)
Lemma alter_silent (f : socket -> socket) (i id : nat) (l : list socket)
    (s : socket) :
  (closing_or_closed s ->
   calls (f s) = calls s /\ closing_or_closed (f s)) ->
  l !! id = Some s -> closing_or_closed s ->
  exists s', alter f i l !! id = Some s'
             /\ calls s' = calls s /\ closing_or_closed s'.
Proof.
  intros Hf Hl Hs. rewrite list_lookup_alter.
  destruct (decide (i = id)) as [->|].
  - rewrite Hl. cbn. exists (f s). split; [reflexivity|]. apply Hf, Hs.
  - exists s. auto.
Qed.

Lemma closing_silent (s : socket) :
  closing_or_closed s -> calls (closing s) = calls s /\ closing_or_closed (closing s).
Proof.
  intros H. unfold closing. destruct H as [H|H]; rewrite H; auto.
  - split; [reflexivity|left; exact H].
  - split; [reflexivity|right; exact H].
Qed.

Lemma closed_silent (s : socket) :
  closing_or_closed s ->
  calls (set_state CLOSED s) = calls s /\ closing_or_closed (set_state CLOSED s).
Proof. intros _. split; [reflexivity|right; reflexivity]. Qed.

Lemma awaiting_silent (b : bool) (s : socket) :
  closing_or_closed s ->
  calls (set_awaiting b s) = calls s /\ closing_or_closed (set_awaiting b s).
Proof. intros H. split; [reflexivity|exact H]. Qed.

Lemma not_open_silent (c : client) (i id : nat) (s : socket) (f : socket -> socket) :
  (exists s0, sockets c !! i = Some s0 /\ readyState s0 = OPEN) ->
  sockets c !! id = Some s -> closing_or_closed s ->
  exists s', alter f i (sockets c) !! id = Some s'
             /\ calls s' = calls s /\ closing_or_closed s'.
Proof.
  intros (s0 & H0 & Hr) Hl Hs. rewrite list_lookup_alter_ne; [exists s; auto|].
  intros ->. rewrite Hl in H0. injection H0 as ->.
  destruct Hs as [Hs|Hs]; congruence.
Qed.

Lemma stopRecording_silent (c : client) (id : nat) (s : socket) :
  sockets c !! id = Some s -> closing_or_closed s ->
  exists s', sockets (stopRecording c) !! id = Some s'
             /\ calls s' = calls s /\ closing_or_closed s'.
Proof.
  intros Hl Hs. rewrite stopRecording_sockets.
  destruct (wsRef (c_refs c)) as [i|] eqn:Hw; [|exists s; auto].
  destruct (ws_is_open c) as [i'|] eqn:Ho.
  - destruct (ws_is_open_Some c i' Ho) as (Hw' & Hopen).
    assert (i' = i) as -> by congruence.
    apply not_open_silent; assumption.
  - apply alter_silent; [apply closing_silent|assumption|assumption].
Qed.

Lemma step_silent (c : client) (e : event) (id : nat) (s : socket) :
  sockets c !! id = Some s -> closing_or_closed s ->
  exists s', sockets (step JSON_parse c e) !! id = Some s'
             /\ calls s' = calls s /\ closing_or_closed s'.
Proof.
  intros Hl Hs.
  assert (Hsame : exists s', sockets c !! id = Some s'
                             /\ calls s' = calls s /\ closing_or_closed s')
    by (exists s; auto).
  destruct e as [ctor| |i|i rate|i msg|p input|i data|i|i|]; simpl.
  - destruct ctor as [msg|]; [apply stopRecording_silent; assumption|].
    cbn. rewrite lookup_app_l by (apply lookup_lt_Some in Hl; exact Hl).
    exact Hsame.
  - apply stopRecording_silent; assumption.
  - unfold state_of. destruct (sockets c !! i) as [s0|] eqn:H0; cbn; [|exact Hsame].
    destruct (readyState s0) eqn:Hr; try exact Hsame.
    assert (i <> id).
    { intros ->. rewrite Hl in H0. injection H0 as ->.
      destruct Hs as [Hs|Hs]; congruence. }
    unfold ws_onopen. cbn. rewrite list_lookup_alter_eq, H0. cbn.
    rewrite !list_lookup_alter_ne by assumption. exact Hsame.
  - destruct (sockets c !! i) as [s0|]; cbn; [|exact Hsame].
    destruct (awaiting_media s0); [|exact Hsame]. cbn.
    apply alter_silent; [apply awaiting_silent|assumption|assumption].
  - destruct (sockets c !! i) as [s0|] eqn:H0; cbn; [|exact Hsame].
    destruct (awaiting_media s0); [|exact Hsame].
    destruct (alter_silent (set_awaiting false) i id (sockets c) s
                (awaiting_silent false s) Hl Hs) as (s1 & H1 & H2 & H3).
    destruct (stopRecording_silent
                (with_ui (setError ("Mic error: " +:+ msg))
                   (with_sockets (alter (set_awaiting false) i) c)) id s1 H1 H3)
      as (s2 & H4 & H5 & H6).
    exists s2. split; [exact H4|]. split; [congruence|exact H6].
  - destruct (pipelines c !! p) as [pl|]; cbn; [|exact Hsame].
    destruct (processor_connected pl); [|exact Hsame].
    unfold onaudioprocess. destruct (ws_is_open c) as [i|] eqn:Ho; [|exact Hsame].
    destruct (ws_is_open_Some c i Ho) as (_ & Hopen).
    cbn. apply not_open_silent; assumption.
  - destruct (state_of i c); exact Hsame.
  - destruct (state_of i c); [|exact Hsame].
    destruct (alter_silent (set_state CLOSED) i id (sockets c) s
                (closed_silent s) Hl Hs) as (s1 & H1 & H2 & H3).
    destruct (stopRecording_silent
                (with_ui (setError "WebSocket connection failed.")
                   (with_sockets (alter (set_state CLOSED) i) c)) id s1 H1 H3)
      as (s2 & H4 & H5 & H6).
    exists s2. split; [exact H4|]. split; [congruence|exact H6].
  - destruct (state_of i c); [|exact Hsame].
    destruct (alter_silent (set_state CLOSED) i id (sockets c) s
                (closed_silent s) Hl Hs) as (s1 & H1 & H2 & H3).
    destruct (stopRecording_silent
                (with_sockets (alter (set_state CLOSED) i) c) id s1 H1 H3)
      as (s2 & H4 & H5 & H6).
    exists s2. split; [exact H4|]. split; [congruence|exact H6].
  - assert (Hu : sockets (unmount c)
                 = match wsRef (c_refs c) with
                   | Some i => alter closing i (sockets c)
                   | None => sockets c
                   end).
    { destruct c as [u ss ps [w a p0 s0 m]]. unfold unmount. cbn.
      destruct w, p0, s0, a, m; reflexivity. }
    rewrite Hu. destruct (wsRef (c_refs c)); [|exact Hsame].
    apply alter_silent; [apply closing_silent|assumption|assumption].
Qed.

(** X16: once a socket is closing or closed, no later event sends
    anything on it nor reopens it. *)
Theorem closed_socket_stays_silent
    (c : client) (events : list event) (id : nat) (s : socket) :
  sockets c !! id = Some s ->
  closing_or_closed s ->
  exists s', sockets (fold_left (step JSON_parse) events c) !! id = Some s'
             /\ calls s' = calls s /\ closing_or_closed s'.
Proof.
  revert c s. induction events as [|e events IH]; intros c s Hl Hs.
  - exists s. auto.
  - simpl. destruct (step_silent c e id s Hl Hs) as (s1 & H1 & H2 & H3).
    destruct (IH _ s1 H1 H3) as (s2 & H4 & H5 & H6).
    exists s2. split; [exact H4|]. split; [congruence|exact H6].
Qed.

End StreamExtra.

(** *** The whole component: release of the audio graph, and the button *)
Section ComponentFacts.
Import App Stream Session Component.
Variable JSON_parse : string -> option Js.value.

Lemma faded_refl (x : pipeline) : faded x x.
Proof. unfold faded. auto. Qed.

Lemma faded_trans (x y z : pipeline) : faded x y -> faded y z -> faded x z.
Proof. unfold faded. intros (?&?&?&?) (?&?&?&?). auto 10. Qed.

Lemma alter_faded (f : pipeline -> pipeline) (q p : nat) (l : list pipeline)
    (x : pipeline) :
  (forall x, faded x (f x)) -> l !! p = Some x ->
  exists y, alter f q l !! p = Some y /\ faded x y.
Proof.
  intros Hf Hp. rewrite list_lookup_alter.
  destruct (decide (q = p)) as [->|].
  - rewrite Hp. cbn. exists (f x). split; [reflexivity|apply Hf].
  - exists x. split; [exact Hp|apply faded_refl].
Qed.

Lemma alter_at_faded (f : pipeline -> pipeline) (r : option nat) (p : nat)
    (l : list pipeline) (x : pipeline) :
  (forall x, faded x (f x)) -> l !! p = Some x ->
  exists y, alter_at f r l !! p = Some y /\ faded x y.
Proof.
  intros Hf Hp. destruct r as [q|]; cbn.
  - apply alter_faded; assumption.
  - exists x. split; [exact Hp|apply faded_refl].
Qed.

Lemma disconnect_processor_faded (x : pipeline) :
  faded x (disconnect_processor x).
Proof. unfold faded. cbn. repeat split; auto; discriminate. Qed.
Lemma disconnect_source_faded (x : pipeline) : faded x (disconnect_source x).
Proof. unfold faded. cbn. repeat split; auto; discriminate. Qed.
Lemma close_context_faded (x : pipeline) : faded x (close_context x).
Proof. unfold faded. cbn. repeat split; auto; discriminate. Qed.
Lemma stop_tracks_faded (x : pipeline) : faded x (stop_tracks x).
Proof. unfold faded. cbn. repeat split; auto; discriminate. Qed.

(** Releasing switches parts off only. *)
Lemma release_faded (r : refs) (l : list pipeline) (p : nat) (x : pipeline) :
  l !! p = Some x -> exists y, release r l !! p = Some y /\ faded x y.
Proof.
  intros H0. unfold release.
  destruct (alter_at_faded disconnect_processor (processorRef r) p l x
              disconnect_processor_faded H0) as (x1 & H1 & F1).
  destruct (alter_at_faded disconnect_source (sourceRef r) p _ x1
              disconnect_source_faded H1) as (x2 & H2 & F2).
  destruct (alter_at_faded close_context (audioContextRef r) p _ x2
              close_context_faded H2) as (x3 & H3 & F3).
  destruct (alter_at_faded stop_tracks (mediaStreamRef r) p _ x3
              stop_tracks_faded H3) as (x4 & H4 & F4).
  exists x4. split; [exact H4|].
  eapply faded_trans; [|exact F4]. eapply faded_trans; [|exact F3].
  eapply faded_trans; [exact F1|exact F2].
Qed.

Lemma length_alter_at (f : pipeline -> pipeline) (r : option nat)
    (l : list pipeline) :
  length (alter_at f r l) = length l.
Proof. destruct r; cbn; [apply length_alter|reflexivity]. Qed.

Lemma length_release (r : refs) (l : list pipeline) :
  length (release r l) = length l.
Proof. unfold release. rewrite !length_alter_at. reflexivity. Qed.

(** Releasing switches off the part each ref names. *)
Lemma release_off (r : refs) (l : list pipeline) (p : nat) :
  (p < length l)%nat ->
  exists y, release r l !! p = Some y
    /\ (processorRef r = Some p -> processor_connected y = false)
    /\ (sourceRef r = Some p -> source_connected y = false)
    /\ (audioContextRef r = Some p -> context_open y = false)
    /\ (mediaStreamRef r = Some p -> tracks_live y = false).
Proof.
  intros Hp. destruct (lookup_lt_is_Some_2 l p Hp) as [x Hx].
  unfold release.
  assert (H1 : exists x1,
             alter_at disconnect_processor (processorRef r) l !! p = Some x1
             /\ (processorRef r = Some p -> processor_connected x1 = false)).
  { destruct (processorRef r) as [q|]; cbn.
    - rewrite list_lookup_alter. destruct (decide (q = p)) as [->|Hne].
      + rewrite Hx. cbn. eexists. split; [reflexivity|reflexivity].
      + exists x. split; [exact Hx|]. intros [= E]. contradiction.
    - exists x. split; [exact Hx|discriminate]. }
  destruct H1 as (x1 & H1 & P1).
  assert (H2 : exists x2,
             alter_at disconnect_source (sourceRef r)
               (alter_at disconnect_processor (processorRef r) l) !! p
             = Some x2
             /\ faded x1 x2
             /\ (sourceRef r = Some p -> source_connected x2 = false)).
  { destruct (sourceRef r) as [q|]; cbn.
    - rewrite list_lookup_alter. destruct (decide (q = p)) as [->|Hne].
      + rewrite H1. cbn. eexists. split; [reflexivity|].
        split; [apply disconnect_source_faded|reflexivity].
      + exists x1. split; [exact H1|]. split; [apply faded_refl|].
        intros [= E]. contradiction.
    - exists x1. split; [exact H1|]. split; [apply faded_refl|discriminate]. }
  destruct H2 as (x2 & H2 & F2 & P2).
  assert (H3 : exists x3,
             alter_at close_context (audioContextRef r)
               (alter_at disconnect_source (sourceRef r)
                  (alter_at disconnect_processor (processorRef r) l)) !! p
             = Some x3
             /\ faded x2 x3
             /\ (audioContextRef r = Some p -> context_open x3 = false)).
  { destruct (audioContextRef r) as [q|]; cbn.
    - rewrite list_lookup_alter. destruct (decide (q = p)) as [->|Hne].
      + rewrite H2. cbn. eexists. split; [reflexivity|].
        split; [apply close_context_faded|reflexivity].
      + exists x2. split; [exact H2|]. split; [apply faded_refl|].
        intros [= E]. contradiction.
    - exists x2. split; [exact H2|]. split; [apply faded_refl|discriminate]. }
  destruct H3 as (x3 & H3 & F3 & P3).
  assert (H4 : exists x4,
             alter_at stop_tracks (mediaStreamRef r)
               (alter_at close_context (audioContextRef r)
                  (alter_at disconnect_source (sourceRef r)
                     (alter_at disconnect_processor (processorRef r) l))) !! p
             = Some x4
             /\ faded x3 x4
             /\ (mediaStreamRef r = Some p -> tracks_live x4 = false)).
  { destruct (mediaStreamRef r) as [q|]; cbn.
    - rewrite list_lookup_alter. destruct (decide (q = p)) as [->|Hne].
      + rewrite H3. cbn. eexists. split; [reflexivity|].
        split; [apply stop_tracks_faded|reflexivity].
      + exists x3. split; [exact H3|]. split; [apply faded_refl|].
        intros [= E]. contradiction.
    - exists x3. split; [exact H3|]. split; [apply faded_refl|discriminate]. }
  destruct H4 as (x4 & H4 & F4 & P4).
  exists x4. split; [exact H4|].
  pose proof (faded_trans _ _ _ F3 F4) as F34.
  pose proof (faded_trans _ _ _ F2 F34) as F24.
  unfold faded in *.
  repeat split; intros Hr.
  - specialize (P1 Hr). destruct (processor_connected x4) eqn:E; [|reflexivity].
    destruct F24 as (_ & _ & _ & F). rewrite F in P1 by reflexivity. discriminate.
  - specialize (P2 Hr). destruct (source_connected x4) eqn:E; [|reflexivity].
    destruct F34 as (_ & _ & F & _). rewrite F in P2 by reflexivity. discriminate.
  - specialize (P3 Hr). destruct (context_open x4) eqn:E; [|reflexivity].
    destruct F4 as (_ & F & _ & _). rewrite F in P3 by reflexivity. discriminate.
  - exact (P4 Hr).
Qed.

Lemma stopRecording_release (c : client) :
  pipelines (stopRecording c) = release (c_refs c) (pipelines c).
Proof.
  destruct c as [u ss ps [w a p s m]].
  unfold stopRecording, release, ws_is_open, state_of. cbn.
  destruct w as [id|]; cbn;
    [destruct (ss !! id) as [sock|]; cbn; [destruct (readyState sock)|]; cbn|];
    destruct p, s, a, m; reflexivity.
Qed.

Lemma unmount_release (c : client) :
  pipelines (unmount c) = release (c_refs c) (pipelines c).
Proof.
  destruct c as [u ss ps [w a p s m]]. unfold unmount, release. cbn.
  destruct w, p, s, a, m; reflexivity.
Qed.

Lemma stream_step_pipelines (c : client) (e : Stream.event) :
  pipelines (Stream.step JSON_parse c e) = pipelines c
  \/ pipelines (Stream.step JSON_parse c e) = release (c_refs c) (pipelines c)
  \/ exists x, pipelines (Stream.step JSON_parse c e) = pipelines c ++ [x].
Proof.
  destruct e as [ctor| |id|id rate|id msg|p input|id data|id|id|]; simpl.
  - destruct ctor as [msg|]; [|left; reflexivity].
    right; left. unfold startRecording. rewrite stopRecording_release. reflexivity.
  - right; left. apply stopRecording_release.
  - left. destruct (state_of id c) as [[]|]; try reflexivity.
    unfold ws_onopen. cbn. destruct (_ !! id); reflexivity.
  - destruct (sockets c !! id) as [s|]; cbn; [|left; reflexivity].
    destruct (awaiting_media s); [|left; reflexivity].
    right; right. eexists. reflexivity.
  - destruct (sockets c !! id) as [s|]; cbn; [|left; reflexivity].
    destruct (awaiting_media s); [|left; reflexivity].
    right; left. unfold media_failed. rewrite stopRecording_release. reflexivity.
  - left. destruct (pipelines c !! p) as [pl|]; cbn; [|reflexivity].
    destruct (processor_connected pl); [|reflexivity].
    unfold onaudioprocess. destruct (ws_is_open c); reflexivity.
  - left. destruct (state_of id c); reflexivity.
  - destruct (state_of id c); [|left; reflexivity].
    right; left. unfold ws_onerror. rewrite stopRecording_release. reflexivity.
  - destruct (state_of id c); [|left; reflexivity].
    right; left. unfold ws_onclose. rewrite stopRecording_release. reflexivity.
  - right; left. apply unmount_release.
Qed.

(** No event switches a part of an existing pipeline on. *)
Lemma step_faded (c : client) (e : event) (p : nat) (x : pipeline) :
  pipelines c !! p = Some x ->
  exists y, pipelines (step JSON_parse c e) !! p = Some y /\ faded x y.
Proof.
  intros Hp.
  assert (Hsame : exists y, pipelines c !! p = Some y /\ faded x y)
    by (exists x; split; [exact Hp|apply faded_refl]).
  destruct e as [e|id rate stage message|w]; cbn.
  - destruct (stream_step_pipelines c e) as [->|[->|[x' ->]]].
    + exact Hsame.
    + apply release_faded, Hp.
    + rewrite lookup_app_l by (apply lookup_lt_Some in Hp; exact Hp). exact Hsame.
  - destruct (sockets c !! id) as [s|]; cbn; [|exact Hsame].
    destruct (awaiting_media s); [|exact Hsame].
    unfold setup_failed, media_failed. rewrite stopRecording_release.
    apply release_faded.
    destruct (1 <=? completed stage)%nat; cbn;
      (rewrite lookup_app_l by (apply lookup_lt_Some in Hp; exact Hp));
      exact Hp.
  - exact Hsame.
Qed.

Lemma run_faded (events : list event) (c : client) (p : nat) (x : pipeline) :
  pipelines c !! p = Some x ->
  exists y, pipelines (fold_left (step JSON_parse) events c) !! p = Some y
            /\ faded x y.
Proof.
  revert c x. induction events as [|e events IH]; intros c x Hp.
  - exists x. split; [exact Hp|apply faded_refl].
  - cbn. destruct (step_faded c e p x Hp) as (y & Hy & F).
    destruct (IH _ y Hy) as (z & Hz & G).
    exists z. split; [exact Hz|]. eapply faded_trans; eassumption.
Qed.

Lemma refs_bounded_detached (c : client) : c_refs c = no_refs -> refs_bounded c.
Proof.
  intros H p. rewrite H. cbn. intros [|[|[|]]]; discriminate.
Qed.

Lemma refs_bounded_frame (c c' : client) :
  audioContextRef (c_refs c') = audioContextRef (c_refs c) ->
  processorRef (c_refs c') = processorRef (c_refs c) ->
  sourceRef (c_refs c') = sourceRef (c_refs c) ->
  mediaStreamRef (c_refs c') = mediaStreamRef (c_refs c) ->
  (length (pipelines c) <= length (pipelines c'))%nat ->
  refs_bounded c -> refs_bounded c'.
Proof.
  unfold refs_bounded. intros -> -> -> -> Hl H p Hp. specialize (H p Hp). lia.
Qed.

Lemma stream_step_bounded (c : client) (e : Stream.event) :
  refs_bounded c -> refs_bounded (Stream.step JSON_parse c e).
Proof.
  intros H.
  assert (Hs : forall c0, refs_bounded (stopRecording c0))
    by (intros c0; apply refs_bounded_detached, stopRecording_refs).
  destruct e as [ctor| |id|id rate|id msg|p input|id data|id|id|]; simpl;
    try apply Hs.
  - destruct ctor; [apply Hs|].
    eapply refs_bounded_frame; [| | | | |exact H]; reflexivity.
  - destruct (state_of id c) as [[]|]; try exact H.
    unfold ws_onopen. cbn. rewrite list_lookup_alter_eq.
    destruct (sockets c !! id); cbn;
      eapply refs_bounded_frame; [| | | | |exact H| | | | | |exact H]; reflexivity.
  - destruct (sockets c !! id) as [s|]; cbn; [|exact H].
    destruct (awaiting_media s); [|exact H].
    unfold refs_bounded, media_granted. cbn. rewrite length_app. cbn.
    intros p [[= <-]|[[= <-]|[[= <-]|[= <-]]]]; lia.
  - destruct (sockets c !! id) as [s|]; cbn; [|exact H].
    destruct (awaiting_media s); [|exact H]. apply Hs.
  - destruct (pipelines c !! p) as [pl|]; cbn; [|exact H].
    destruct (processor_connected pl); [|exact H].
    unfold onaudioprocess. destruct (ws_is_open c); [|exact H].
    eapply refs_bounded_frame; [| | | | |exact H]; reflexivity.
  - destruct (state_of id c); [|exact H].
    eapply refs_bounded_frame; [| | | | |exact H]; reflexivity.
  - destruct (state_of id c); [|exact H]. apply Hs.
  - destruct (state_of id c); [|exact H]. apply Hs.
  - destruct (unmount_frame c) as (H1 & _ & _).
    eapply refs_bounded_frame; [| | | | |exact H]; try (rewrite H1; reflexivity).
    rewrite unmount_release, length_release. lia.
Qed.

Lemma step_bounded (c : client) (e : event) :
  refs_bounded c -> refs_bounded (step JSON_parse c e).
Proof.
  intros H. destruct e as [e|id rate stage message|w]; cbn.
  - apply stream_step_bounded, H.
  - destruct (sockets c !! id) as [s|]; cbn; [|exact H].
    destruct (awaiting_media s); [|exact H].
    apply refs_bounded_detached, stopRecording_refs.
  - exact H.
Qed.

Lemma run_bounded (events : list event) : refs_bounded (run JSON_parse events).
Proof.
  unfold run.
  assert (H : forall c, refs_bounded c ->
                        refs_bounded (fold_left (step JSON_parse) events c)).
  { induction events as [|e events IH]; intros c Hc; [exact Hc|].
    simpl. apply IH, step_bounded, Hc. }
  apply H, refs_bounded_detached. reflexivity.
Qed.

(** X15: in every state the component can reach, also after a setup that
    failed half way or an upload, [stopRecording] releases the part each
    ref names (it disconnects the processor of [processorRef] and the
    source of [sourceRef], closes the context of [audioContextRef] and
    stops the tracks of [mediaStreamRef]) and no later event switches such
    a part on again; when the four refs name one pipeline, all of it is
    released. *)
Theorem stopRecording_releases_pipeline (events later : list event) :
  let c := run JSON_parse events in
  let after := fold_left (step JSON_parse) later (stopRecording c) in
  (forall p, processorRef (c_refs c) = Some p ->
     processor_connected <$> pipelines after !! p = Some false)
  /\ (forall p, sourceRef (c_refs c) = Some p ->
        source_connected <$> pipelines after !! p = Some false)
  /\ (forall p, audioContextRef (c_refs c) = Some p ->
        context_open <$> pipelines after !! p = Some false)
  /\ (forall p, mediaStreamRef (c_refs c) = Some p ->
        tracks_live <$> pipelines after !! p = Some false)
  /\ (forall p,
        processorRef (c_refs c) = Some p -> sourceRef (c_refs c) = Some p ->
        audioContextRef (c_refs c) = Some p ->
        mediaStreamRef (c_refs c) = Some p ->
        pipelines after !! p = Some released).
Proof.
  intros c after. pose proof (run_bounded events) as Hb. fold c in Hb.
  assert (H : forall p, (p < length (pipelines c))%nat ->
            exists z, pipelines after !! p = Some z
              /\ (processorRef (c_refs c) = Some p -> processor_connected z = false)
              /\ (sourceRef (c_refs c) = Some p -> source_connected z = false)
              /\ (audioContextRef (c_refs c) = Some p -> context_open z = false)
              /\ (mediaStreamRef (c_refs c) = Some p -> tracks_live z = false)).
  { intros p Hp.
    destruct (release_off (c_refs c) (pipelines c) p Hp)
      as (y & Hy & P1 & P2 & P3 & P4).
    rewrite <- stopRecording_release in Hy.
    destruct (run_faded later (stopRecording c) p y Hy) as (z & Hz & F).
    exists z. split; [exact Hz|]. destruct F as (F1 & F2 & F3 & F4).
    repeat split; intros Hr.
    - destruct (processor_connected z); [|reflexivity].
      rewrite F4 in P1 by reflexivity. exact (P1 Hr).
    - destruct (source_connected z); [|reflexivity].
      rewrite F3 in P2 by reflexivity. exact (P2 Hr).
    - destruct (context_open z); [|reflexivity].
      rewrite F2 in P3 by reflexivity. exact (P3 Hr).
    - destruct (tracks_live z); [|reflexivity].
      rewrite F1 in P4 by reflexivity. exact (P4 Hr). }
  repeat split; intros p Hr.
  - destruct (H p) as (z & -> & P & _); [apply Hb; auto|].
    cbn. rewrite (P Hr). reflexivity.
  - destruct (H p) as (z & -> & _ & P & _); [apply Hb; auto|].
    cbn. rewrite (P Hr). reflexivity.
  - destruct (H p) as (z & -> & _ & _ & P & _); [apply Hb; auto|].
    cbn. rewrite (P Hr). reflexivity.
  - destruct (H p) as (z & -> & _ & _ & _ & P); [apply Hb; auto|].
    cbn. rewrite (P Hr). reflexivity.
  - intros Hs Ha Hm.
    destruct (H p) as (z & -> & P1 & P2 & P3 & P4); [apply Hb; auto|].
    destruct z as [t o s q]. cbn in *.
    rewrite (P1 Hr), (P2 Hs), (P3 Ha), (P4 Hm). reflexivity.
Qed.

Lemma has_socket_frame (c c' : client) :
  wsRef (c_refs c') = wsRef (c_refs c) ->
  loading (c_ui c') = loading (c_ui c) ->
  length (sockets c') = length (sockets c) -> has_socket c -> has_socket c'.
Proof. unfold has_socket. intros -> -> ->. auto. Qed.

Lemma stopRecording_has_socket (c : client) : has_socket (stopRecording c).
Proof.
  unfold has_socket. rewrite stopRecording_ui. cbn. discriminate.
Qed.

Lemma stream_step_has_socket (c : client) (e : Stream.event) :
  has_socket c -> has_socket (Stream.step JSON_parse c e).
Proof.
  intros H. destruct e as [ctor| |id|id rate|id msg|p input|id data|id|id|]; simpl.
  - destruct ctor as [msg|]; [apply stopRecording_has_socket|].
    intros _. cbn. eexists. split; [reflexivity|]. rewrite length_app. cbn. lia.
  - apply stopRecording_has_socket.
  - destruct (state_of id c) as [[]|]; try exact H.
    unfold ws_onopen. cbn. rewrite list_lookup_alter_eq.
    destruct (sockets c !! id); cbn; [|eapply has_socket_frame; [| | |exact H]; cbn;
      [reflexivity|reflexivity|apply length_alter]].
    eapply has_socket_frame; [| | |exact H]; cbn; try reflexivity.
    rewrite !length_alter. reflexivity.
  - destruct (sockets c !! id) as [s|]; cbn; [|exact H].
    destruct (awaiting_media s); [|exact H].
    eapply has_socket_frame; [| | |exact H]; cbn; try reflexivity.
    apply length_alter.
  - destruct (sockets c !! id) as [s|]; cbn; [|exact H].
    destruct (awaiting_media s); [|exact H]. apply stopRecording_has_socket.
  - destruct (pipelines c !! p) as [pl|]; cbn; [|exact H].
    destruct (processor_connected pl); [|exact H].
    unfold onaudioprocess. destruct (ws_is_open c); [|exact H].
    eapply has_socket_frame; [| | |exact H]; cbn; try reflexivity.
    apply length_alter.
  - destruct (state_of id c); [|exact H].
    eapply has_socket_frame; [| | |exact H]; cbn; try reflexivity.
    apply on_payload_frame.
  - destruct (state_of id c); [|exact H]. apply stopRecording_has_socket.
  - destruct (state_of id c); [|exact H]. apply stopRecording_has_socket.
  - destruct (unmount_frame c) as (H1 & H2 & H3).
    eapply has_socket_frame; [| | |exact H]; [rewrite H1|rewrite H2|exact H3];
      reflexivity.
Qed.

Lemma step_has_socket (c : client) (e : event) :
  has_socket c -> has_socket (step JSON_parse c e).
Proof.
  intros H. destruct e as [e|id rate stage message|w]; cbn.
  - apply stream_step_has_socket, H.
  - destruct (sockets c !! id) as [s|]; cbn; [|exact H].
    destruct (awaiting_media s); [|exact H].
    apply stopRecording_has_socket.
  - intros Hl. apply H. destruct w; cbn in Hl; try exact Hl.
    destruct busy; discriminate.
Qed.

(** X17: across every sequence of streaming events, failed setups and
    upload writes, whenever [loading] is recording (the button shows Stop)
    a socket that [startRecording] created is attached to [wsRef]. *)
Theorem recording_has_socket (events : list event) :
  loading (c_ui (run JSON_parse events)) = Some recording ->
  exists id s,
    wsRef (c_refs (run JSON_parse events)) = Some id
    /\ sockets (run JSON_parse events) !! id = Some s.
Proof.
  assert (H : has_socket (run JSON_parse events)).
  { unfold run.
    assert (H : forall c, has_socket c ->
                          has_socket (fold_left (step JSON_parse) events c)).
    { induction events as [|e events IH]; intros c Hc; [exact Hc|].
      simpl. apply IH, step_has_socket, Hc. }
    apply H. intros Hl. discriminate. }
  intros Hl. destruct (H Hl) as (id & Hw & Hlt).
  destruct (lookup_lt_is_Some_2 _ _ Hlt) as [s Hs].
  exists id, s. auto.
Qed.

End ComponentFacts.

(** *** The upload flow writes state cells only as upload writes *)
Section UploadWrites.
Import App Upload Component.
Variable JSON_parse : string -> option Js.value.
Variable decoder : Type.
Variable decoder_new : decoder.
Variable decode : decoder -> list Z -> string * decoder.
Variable net : network.

Lemma writes_same {A : Type} (m : M A) :
  (forall w, w_ui (m w).2 = w_ui w) -> writes_only m.
Proof. intros H w. exists []. apply H. Qed.

Lemma writes_update (x : upload_write) : writes_only (update (apply_write x)).
Proof. intros w. exists [x]. reflexivity. Qed.

Lemma writes_bind {A B : Type} (m : M A) (k : A -> M B) :
  writes_only m -> (forall a, writes_only (k a)) -> writes_only (bind m k).
Proof.
  intros Hm Hk w. unfold bind. destruct (Hm w) as [ws1 H1].
  destruct (m w) as [[a|e] w1]; cbn in *.
  - destruct (Hk a w1) as [ws2 H2]. exists (ws1 ++ ws2).
    unfold apply_writes in *. rewrite fold_left_app, <- H1. exact H2.
  - exists ws1. exact H1.
Qed.

Lemma writes_try_catch {A : Type} (m : M A) (h : string -> M A) :
  writes_only m -> (forall e, writes_only (h e)) -> writes_only (try_catch m h).
Proof.
  intros Hm Hh w. unfold try_catch. destruct (Hm w) as [ws1 H1].
  destruct (m w) as [[a|e] w1]; cbn in *.
  - exists ws1. exact H1.
  - destruct (Hh e w1) as [ws2 H2]. exists (ws1 ++ ws2).
    unfold apply_writes in *. rewrite fold_left_app, <- H1. exact H2.
Qed.

Lemma writes_try_finally {A : Type} (m : M A) (f : M unit) :
  writes_only m -> writes_only f -> writes_only (try_finally m f).
Proof.
  intros Hm Hf w. unfold try_finally. destruct (Hm w) as [ws1 H1].
  destruct (m w) as [r w1]; cbn in *.
  destruct (Hf w1) as [ws2 H2]. exists (ws1 ++ ws2).
  unfold apply_writes in *. rewrite fold_left_app, <- H1.
  destruct (f w1) as [[[]|e] w2]; exact H2.
Qed.

Lemma writes_read_all (s : stream) (d : decoder) :
  writes_only (read_all decoder decode s d).
Proof.
  revert d. induction s as [|message|value rest IH]; intros d.
  - apply writes_same. reflexivity.
  - apply writes_same. reflexivity.
  - destruct value as [value|]; cbn; [|apply IH].
    destruct (decode d value) as [chunk d'].
    apply writes_bind; [|intros _; apply IH].
    exact (writes_update (WriteTranslation (fun prev => prev +:+ chunk))).
Qed.

Lemma writes_parse_text (s : string) : writes_only (parse_text JSON_parse s).
Proof.
  unfold parse_text. destruct (JSON_parse s) as [v|];
    [destruct (Js.get v "text")|]; apply writes_same; reflexivity.
Qed.

Lemma writes_processAudio_try (file : File) (lang : string) :
  writes_only (processAudio_try JSON_parse decoder decoder_new decode net
                 file lang).
Proof.
  unfold processAudio_try.
  apply writes_bind; [apply writes_same; reflexivity|]. intros transcribeRes.
  apply writes_bind; [apply writes_same; reflexivity|]. intros transcribeText.
  destruct (negb (ok transcribeRes)); [apply writes_same; reflexivity|].
  apply writes_bind; [apply writes_parse_text|]. intros text.
  apply writes_bind; [apply writes_same; reflexivity|]. intros translateRes.
  destruct (negb (ok translateRes)).
  - apply writes_bind; [apply writes_same; reflexivity|]. intros errText.
    apply writes_same. reflexivity.
  - destruct (reader translateRes) as [body|].
    + apply writes_bind;
        [exact (writes_update (WriteTranslation (put "")))|]. intros _.
      apply writes_bind; [apply writes_read_all|]. intros _.
      exact (writes_update (WriteStatus "")).
    + apply writes_bind; [apply writes_same; reflexivity|]. intros fallbackText.
      apply writes_bind;
        [exact (writes_update
                  (WriteTranslation (put (Js.or_str fallbackText ""))))|].
      intros _. exact (writes_update (WriteStatus "")).
Qed.

Lemma writes_processAudio (file : option File) :
  writes_only (processAudio JSON_parse decoder decoder_new decode net file).
Proof.
  destruct file as [f|]; cbn;
    [|exact (writes_update (WriteError "Record something first."))].
  apply writes_bind; [apply writes_same; reflexivity|]. intros lang.
  apply writes_bind; [exact (writes_update (WriteError ""))|]. intros _.
  apply writes_bind; [exact (writes_update (WriteTranscript (put "")))|].
  intros _.
  apply writes_bind; [exact (writes_update (WriteTranslation (put "")))|].
  intros _.
  apply writes_bind; [exact (writes_update (WriteStatus "Translating..."))|].
  intros _.
  apply writes_bind; [exact (writes_update (WriteLoading true))|]. intros _.
  apply writes_try_finally.
  - apply writes_try_catch; [apply writes_processAudio_try|].
    intros e. exact (writes_update (WriteError e)).
  - apply writes_bind; [exact (writes_update (WriteLoading false))|].
    intros _. exact (writes_update (WriteStatus "")).
Qed.

(** The handlers of the upload flow and of the language select change the
    state cells by upload writes only: whatever the server answers, they
    never set [loading] to recording. *)
Lemma upload_flow_writes (file : option File) (l : string) :
  writes_only (handleUpload JSON_parse decoder decoder_new decode net file)
  /\ writes_only (targetLang_effect JSON_parse decoder decoder_new decode net)
  /\ writes_only (select_language JSON_parse decoder decoder_new decode net l).
Proof.
  assert (He : writes_only
                 (targetLang_effect JSON_parse decoder decoder_new decode net)).
  { unfold targetLang_effect.
    apply writes_bind; [apply writes_same; reflexivity|]. intros f.
    apply writes_bind; [apply writes_same; reflexivity|]. intros busy.
    destruct f as [f|]; [destruct busy|]; try (apply writes_same; reflexivity).
    apply writes_bind; [exact (writes_update (WriteTranslation (put "")))|].
    intros _. apply (writes_processAudio (Some f)). }
  split; [|split; [exact He|]].
  - destruct file as [f|]; unfold handleUpload;
      [|apply writes_same; reflexivity].
    apply writes_bind; [exact (writes_update (WriteError ""))|]. intros _.
    apply writes_bind; [exact (writes_update (WriteTranscript (put "")))|].
    intros _.
    apply writes_bind; [exact (writes_update (WriteTranslation (put "")))|].
    intros _.
    apply writes_bind; [exact (writes_update (WriteAudioFile f))|]. intros _.
    apply (writes_processAudio (Some f)).
  - unfold select_language.
    apply writes_bind; [apply writes_same; reflexivity|]. intros busy.
    apply writes_bind; [apply writes_same; reflexivity|]. intros current.
    destruct busy as [[|]|]; try (apply writes_same; reflexivity);
      (destruct (String.eqb l current); [apply writes_same; reflexivity|]);
      (apply writes_bind; [exact (writes_update (WriteTargetLang l))|]);
      intros _; exact He.
Qed.

End UploadWrites.

(** *** Message events and audio frames in sequence *)
Section SequenceFacts.
Import App Stream Atob Deltas.
Variable JSON_parse : string -> option Js.value.

Lemma ui_eq (u v : ui) :
  audioFile u = audioFile v -> targetLang u = targetLang v ->
  transcript u = transcript v -> translation u = translation v ->
  loading u = loading v -> error u = error v -> status u = status v -> u = v.
Proof. destruct u, v. cbn. congruence. Qed.

Lemma receive_all_deltas (frames : list string) (ds : list delta) (u : ui) :
  Forall2 (fun data d => exists payload,
             JSON_parse data = Some payload /\ carries payload d) frames ds ->
  receive_all JSON_parse frames u
  = setTranslation (fun prev => prev +:+ concat_all (translation_texts ds))
      (setTranscript (fun prev => prev +:+ concat_all (transcript_texts ds)) u).
Proof.
  intros H. revert u. unfold receive_all.
  induction H as [|data d frames ds (payload & Hp & Hc) _ IH]; intros u.
  - apply ui_eq; cbn; try reflexivity; symmetry; apply append_nil_r.
  - cbn [fold_left]. rewrite IH. unfold ws_onmessage, on_payload. rewrite Hp.
    destruct d as [text|text]; destruct Hc as [Ht Hx]; rewrite Ht, Hx; cbn;
      apply ui_eq; cbn; try reflexivity;
      unfold concat_all; cbn; rewrite ?append_assoc; reflexivity.
Qed.

Lemma convert_all_in_int16 (input : list Pcm.number) :
  Forall Pcm.in_int16 (Pcm.floatTo16BitPCM input).
Proof.
  rewrite floatTo16BitPCM_map. apply Forall_fmap, Forall_forall.
  intros x _. apply convert_in_range.
Qed.

Lemma sent_closing (s : socket) : sent (closing s) = sent s.
Proof. unfold closing. destruct (readyState s); reflexivity. Qed.

Lemma alter_sent (P : Js.value -> Prop) (f : socket -> socket) (id : nat)
    (l : list socket) :
  (forall s, Forall P (sent s) -> Forall P (sent (f s))) ->
  Forall (fun s => Forall P (sent s)) l ->
  Forall (fun s => Forall P (sent s)) (alter f id l).
Proof.
  intros Hf H. apply Forall_alter; [exact H|]. intros s _. apply Hf.
Qed.

Lemma record_call_sent (P : Js.value -> Prop) (msg : Js.value) (s : socket) :
  P msg -> Forall P (sent s) -> Forall P (sent (record_call msg s)).
Proof.
  intros Hm H. rewrite sent_record_call. apply Forall_app.
  split; [exact H|]. constructor; [exact Hm|constructor].
Qed.

Lemma stopRecording_sent (P : Js.value -> Prop) (c : client) :
  P stop_msg ->
  Forall (fun s => Forall P (sent s)) (sockets c) ->
  Forall (fun s => Forall P (sent s)) (sockets (stopRecording c)).
Proof.
  intros Hp H. rewrite stopRecording_sockets.
  destruct (wsRef (c_refs c)) as [id|]; [|exact H].
  destruct (ws_is_open c); apply alter_sent; try exact H; intros s Hs.
  - rewrite sent_closing. apply record_call_sent; assumption.
  - rewrite sent_closing. exact Hs.
Qed.

Lemma unmount_sockets (c : client) :
  sockets (unmount c)
  = match wsRef (c_refs c) with
    | Some id => alter closing id (sockets c)
    | None => sockets c
    end.
Proof.
  unfold unmount. destruct (wsRef (c_refs c)); cbn;
    repeat match goal with
           | |- context [on_ref ?r ?f ?c] => destruct r; cbn
           end; reflexivity.
Qed.

(** One event sends nothing but a start directive, a stop directive or,
    when it is an audio event, the directive of its frame. *)
Lemma step_sent (P : Js.value -> Prop) (c : client) (e : event) :
  (forall l, P (start_msg l)) -> P stop_msg ->
  (forall p input, e = AudioProcess p input -> P (frame_msg input)) ->
  Forall (fun s => Forall P (sent s)) (sockets c) ->
  Forall (fun s => Forall P (sent s)) (sockets (step JSON_parse c e)).
Proof.
  intros Hstart Hstop Haudio H.
  destruct e as [ctor| |id|id rate|id msg|p input|id data|id|id|]; simpl.
  - unfold startRecording. destruct ctor as [msg|].
    + apply stopRecording_sent; assumption.
    + simpl. apply Forall_app. split; [exact H|].
      constructor; [constructor|constructor].
  - apply stopRecording_sent; assumption.
  - unfold state_of. destruct (sockets c !! id) as [s|] eqn:Hs; simpl; [|exact H].
    destruct (readyState s) eqn:Hr; try exact H.
    unfold ws_onopen. simpl. rewrite list_lookup_alter_eq, Hs. simpl.
    unfold send. simpl. rewrite !list_alter_alter_eq.
    apply alter_sent; [|exact H]. intros s' Hs'.
    apply (record_call_sent P _ (set_state OPEN s')); [apply Hstart|exact Hs'].
  - destruct (sockets c !! id) as [s|]; simpl; [|exact H].
    destruct (awaiting_media s); [|exact H].
    simpl. apply alter_sent; [|exact H]. intros s' Hs'. exact Hs'.
  - destruct (sockets c !! id) as [s|]; simpl; [|exact H].
    destruct (awaiting_media s); [|exact H].
    apply stopRecording_sent; [exact Hstop|]. simpl.
    apply alter_sent; [|exact H]. intros s' Hs'. exact Hs'.
  - destruct (pipelines c !! p) as [pl|]; simpl; [|exact H].
    destruct (processor_connected pl); [|exact H].
    unfold onaudioprocess. destruct (ws_is_open c) as [id|]; [|exact H].
    simpl. apply alter_sent; [|exact H]. intros s' Hs'.
    apply record_call_sent; [|exact Hs']. apply (Haudio p input). reflexivity.
  - destruct (state_of id c); exact H.
  - destruct (state_of id c); [|exact H].
    apply stopRecording_sent; [exact Hstop|]. simpl.
    apply alter_sent; [|exact H]. intros s' Hs'. exact Hs'.
  - destruct (state_of id c); [|exact H].
    apply stopRecording_sent; [exact Hstop|]. simpl.
    apply alter_sent; [|exact H]. intros s' Hs'. exact Hs'.
  - rewrite unmount_sockets. destruct (wsRef (c_refs c)); [|exact H].
    apply alter_sent; [|exact H]. intros s' Hs'. rewrite sent_closing. exact Hs'.
Qed.

Lemma run_sent (events : list event) :
  Forall (fun s =>
            Forall (fun msg =>
                      (exists l, msg = start_msg l) \/ msg = stop_msg
                      \/ exists p input,
                           In (AudioProcess p input) events
                           /\ msg = frame_msg input)
                   (sent s))
         (sockets (run JSON_parse events)).
Proof.
  induction events as [|e events IH] using rev_ind; [constructor|].
  unfold run. rewrite fold_left_app. cbn [fold_left].
  apply step_sent.
  - intros l. left. exists l. reflexivity.
  - right; left. reflexivity.
  - intros p input ->. right; right. exists p, input.
    split; [apply in_or_app; right; left; reflexivity|reflexivity].
  - eapply Forall_impl; [exact IH|]. intros s Hs.
    eapply Forall_impl; [exact Hs|]. intros msg [Hm|[Hm|(p & input & Hin & Hm)]].
    + left. exact Hm.
    + right; left. exact Hm.
    + right; right. exists p, input. split; [|exact Hm].
      apply in_or_app. left. exact Hin.
Qed.

(** X20: in every run, every audio directive sent on any socket carries
    the frame of an audio event of that run: its data is the base64 text
    of the 16-bit conversion of the samples of that event, and decodes
    back to that conversion. *)
Theorem audio_directives_decode (events : list event) :
  Forall (fun s =>
            Forall (fun msg =>
                      forall data, msg = audio_msg data ->
                        exists (p : nat) (input : list Pcm.number),
                          In (AudioProcess p input) events
                          /\ data = Base64.encodeBase64
                                      (Pcm.floatTo16BitPCM input)
                          /\ decodeBase64 data
                             = Some (Pcm.floatTo16BitPCM input))
                   (sent s))
         (sockets (run JSON_parse events)).
Proof.
  eapply Forall_impl; [apply run_sent|]. intros s Hs.
  eapply Forall_impl; [exact Hs|].
  intros msg [[l Hm]|[Hm|(p & input & Hin & Hm)]] data Hd; subst msg;
    try discriminate.
  injection Hd as <-. exists p, input. split; [exact Hin|].
  split; [reflexivity|].
  rewrite decodeBase64_encodeBase64, map_wrap16_id; [reflexivity|].
  apply convert_all_in_int16.
Qed.

(** X18: a sequence of [transcript_delta] and [translation_delta] events
    appends the transcript texts to the transcript and the translation
    texts to the translation, each in arrival order, and changes nothing
    else; since [startRecording] clears both, what a session displays is
    the concatenation of the deltas received since it started. *)
Theorem deltas_compose (frames : list string) (ds : list delta) (c : client) :
  Forall2 (fun data d => exists payload,
             JSON_parse data = Some payload /\ carries payload d) frames ds ->
  (forall u,
     receive_all JSON_parse frames u
     = setTranslation (fun prev => prev +:+ concat_all (translation_texts ds))
         (setTranscript
            (fun prev => prev +:+ concat_all (transcript_texts ds)) u))
  /\ (let shown :=
        receive_all JSON_parse frames (c_ui (startRecording None c)) in
      transcript shown = concat_all (transcript_texts ds)
      /\ translation shown = concat_all (translation_texts ds)).
Proof.
  intros H. split; [intros u; apply receive_all_deltas, H|].
  cbv zeta. rewrite (receive_all_deltas frames ds _ H). cbn. auto.
Qed.

Lemma audio_step (c : client) (id p : nat) (s : socket) (pl : pipeline)
    (input : list Pcm.number) :
  wsRef (c_refs c) = Some id -> sockets c !! id = Some s ->
  readyState s = OPEN ->
  pipelines c !! p = Some pl -> processor_connected pl = true ->
  step JSON_parse c (AudioProcess p input)
  = send id (frame_msg input) c.
Proof.
  intros Hw Hs Hr Hp Hc. cbn. rewrite Hp. cbn. rewrite Hc.
  unfold onaudioprocess, ws_is_open, state_of. rewrite Hw, Hs. cbn.
  rewrite Hr. reflexivity.
Qed.

(** X19: while the attached socket is open and the processor connected,
    every audio event sends exactly one audio directive, in capture order:
    after the events the socket has sent its earlier messages followed by
    one directive per frame, and is still open. *)
Theorem audio_frames_in_order (c : client) (id p : nat) (s : socket)
    (pl : pipeline) (inputs : list (list Pcm.number)) :
  wsRef (c_refs c) = Some id -> sockets c !! id = Some s ->
  readyState s = OPEN ->
  pipelines c !! p = Some pl -> processor_connected pl = true ->
  exists s',
    sockets (fold_left (step JSON_parse) (map (AudioProcess p) inputs) c) !! id
    = Some s'
    /\ sent s' = sent s ++ map frame_msg inputs
    /\ readyState s' = OPEN.
Proof.
  revert c s. induction inputs as [|input inputs IH]; intros c s Hw Hs Hr Hp Hc.
  - exists s. rewrite app_nil_r. auto.
  - cbn [map fold_left]. rewrite (audio_step c id p s pl input Hw Hs Hr Hp Hc).
    destruct (IH (send id (frame_msg input) c) (record_call (frame_msg input) s))
      as (s' & H1 & H2 & H3); try assumption.
    + cbn. rewrite list_lookup_alter_eq, Hs. reflexivity.
    + exists s'. split; [exact H1|]. split; [|exact H3].
      rewrite H2, sent_record_call, <- app_assoc. reflexivity.
Qed.

End SequenceFacts.

(** *** Concrete runs for the further properties *)
Section Runs2.
Import App Stream Upload Session Deltas Samples Samples2.

(** X1 at two frames of three samples. *)
Lemma floatTo16BitPCM_monotone_run :
  Forall2 Z.le (Pcm.floatTo16BitPCM quiet_frame) (Pcm.floatTo16BitPCM loud_frame).
Proof.
  apply (floatTo16BitPCM_monotone quiet_frame loud_frame).
  repeat constructor; vm_compute; discriminate.
Defined.

(** X8 at a server whose translate endpoint answers 500. *)
Lemma processAudio_translate_failure_run :
  let out := processAudio parse unit () ascii_decode server_overloaded
               (Some recording_file) world0 in
  translation (w_ui out.2) = ""
  /\ error (w_ui out.2)
     = (if String.eqb "model overloaded" "" then
          "Translate " +:+ show (status_code translate_overloaded)
        else "model overloaded").
Proof.
  exact (processAudio_translate_failure parse unit () ascii_decode
           server_overloaded recording_file world0 "good morning"
           "model overloaded" translate_overloaded
           eq_refl eq_refl eq_refl eq_refl).
Defined.

(** X9 at a server whose translation stream breaks after one chunk. *)
Lemma processAudio_stream_outcome_run :
  let out := processAudio parse unit () ascii_decode server_cut
               (Some recording_file) world0 in
  translation (w_ui out.2) = concat_all (decoded unit ascii_decode cut_stream ())
  /\ error (w_ui out.2) = default "" (stream_error cut_stream).
Proof.
  exact (processAudio_stream_outcome parse unit () ascii_decode server_cut
           recording_file world0 "good morning" translate_cut cut_stream
           eq_refl eq_refl eq_refl eq_refl).
Defined.

(** X11 at a component that is processing a file. *)
Lemma select_language_when_busy_run :
  select_language parse unit () ascii_decode server "English" world_processing
  = (Ok tt,
     {| w_ui := setTargetLang "English" (w_ui world_processing);
        w_requests := [] |}).
Proof.
  apply (select_language_when_busy parse unit () ascii_decode server
           "English" world_processing).
  right. discriminate.
Defined.

(** X12 at an idle component that holds a file. *)
Lemma select_language_reruns_run :
  let out := select_language parse unit () ascii_decode server
               "English" world_idle in
  w_requests out.2
  = [] ++ Transcribe recording_file
       :: translate_request parse server recording_file "English"
  /\ targetLang (w_ui out.2) = "English"
  /\ audioFile (w_ui out.2) = Some recording_file
  /\ loading (w_ui out.2) = None.
Proof.
  apply (select_language_reruns parse unit () ascii_decode server
           "English" recording_file world_idle).
  - reflexivity.
  - reflexivity.
  - discriminate.
Defined.

(** X13 at a fresh component: upload, then English. *)
Lemma upload_then_select_language_run :
  let uploaded :=
    (handleUpload parse unit () ascii_decode server
       (Some recording_file) world0).2 in
  let out :=
    (select_language parse unit () ascii_decode server "English" uploaded).2 in
  audioFile (w_ui uploaded) = Some recording_file
  /\ w_requests out
     = [] ++ (Transcribe recording_file
              :: translate_request parse server recording_file "Arabic")
          ++ (Transcribe recording_file
              :: translate_request parse server recording_file "English").
Proof.
  apply (upload_then_select_language parse unit () ascii_decode server
           "English" recording_file world0).
  discriminate.
Defined.

(** X15 at a session that is streaming: after [stopRecording], an audio
    event and a new session, the pipeline is still released. *)
Lemma stopRecording_releases_pipeline_run :
  pipelines (fold_left (Component.step parse)
               [Component.Streaming (AudioProcess 0 quiet_frame);
                Component.Streaming (ClickRecord None)]
               (stopRecording (Component.run parse streaming_session)))
    !! 0%nat
  = Some released.
Proof.
  apply (stopRecording_releases_pipeline parse streaming_session
           [Component.Streaming (AudioProcess 0 quiet_frame);
            Component.Streaming (ClickRecord None)]);
    reflexivity.
Defined.

(** A setup that fails at [new AudioContext] while the refs still name
    the pipeline of an earlier session (its microphone was granted after
    the session had been stopped): the catch block stops the tracks of the
    new stream and releases the nodes and the context of the old pipeline,
    whose tracks stay live. *)
Example setup_failed_with_old_refs :
  pipelines (Component.run parse late_grant_then_failed_setup)
  = [{| tracks_live := true; context_open := false;
        source_connected := false; processor_connected := false |};
     released].
Proof. reflexivity. Qed.

(** X17 at a session that has just been started. *)
Lemma recording_has_socket_run :
  exists id s,
    wsRef (c_refs (Component.run parse [Component.Streaming (ClickRecord None)]))
    = Some id
    /\ sockets (Component.run parse [Component.Streaming (ClickRecord None)])
         !! id = Some s.
Proof.
  apply (recording_has_socket parse [Component.Streaming (ClickRecord None)]).
  reflexivity.
Defined.

(** The converse fails: the writes of an upload made during a session
    leave [loading] null while the socket stays attached and open. *)
Example upload_during_session :
  loading (c_ui (Component.run parse upload_while_streaming)) = None
  /\ wsRef (c_refs (Component.run parse upload_while_streaming)) = Some 0%nat
  /\ state_of 0 (Component.run parse upload_while_streaming) = Some OPEN.
Proof. repeat split. Qed.

(** X16 at the socket of a stopped session, with later frames and clicks. *)
Lemma closed_socket_stays_silent_run :
  exists s',
    sockets (fold_left (step parse)
               [MediaGranted 0 16000; AudioProcess 0 quiet_frame;
                ClickRecord None; WsClose 0]
               (run parse stopped)) !! 0%nat = Some s'
    /\ calls s' = calls stopped_socket /\ closing_or_closed s'.
Proof.
  apply (closed_socket_stays_silent parse (run parse stopped)
           [MediaGranted 0 16000; AudioProcess 0 quiet_frame;
            ClickRecord None; WsClose 0] 0 stopped_socket).
  - reflexivity.
  - left. reflexivity.
Defined.

(** X18 at two transcript deltas. *)
Lemma deltas_compose_run :
  (forall u,
     receive_all parse [plain_frame; correction_frame] u
     = setTranslation
         (fun prev => prev +:+ concat_all
            (translation_texts
               [TranscriptDelta "the mat"; TranscriptDelta "the mat"]))
         (setTranscript
            (fun prev => prev +:+ concat_all
               (transcript_texts
                  [TranscriptDelta "the mat"; TranscriptDelta "the mat"])) u))
  /\ (let shown :=
        receive_all parse [plain_frame; correction_frame]
          (c_ui (startRecording None client0)) in
      transcript shown
      = concat_all (transcript_texts
                      [TranscriptDelta "the mat"; TranscriptDelta "the mat"])
      /\ translation shown
         = concat_all (translation_texts
                         [TranscriptDelta "the mat"; TranscriptDelta "the mat"])).
Proof.
  apply (deltas_compose parse [plain_frame; correction_frame]
           [TranscriptDelta "the mat"; TranscriptDelta "the mat"] client0).
  constructor; [|constructor; [|constructor]].
  - exists (transcript_delta "the mat" false). repeat split.
  - exists (transcript_delta "the mat" true). repeat split.
Defined.

(** X19 at a streaming session and two frames. *)
Lemma audio_frames_in_order_run :
  exists s',
    sockets (fold_left (step parse)
               (map (AudioProcess 0) [quiet_frame; loud_frame])
               (run parse streaming)) !! 0%nat = Some s'
    /\ sent s' = sent streaming_socket
                 ++ map frame_msg [quiet_frame; loud_frame]
    /\ readyState s' = OPEN.
Proof.
  apply (audio_frames_in_order parse (run parse streaming) 0 0
           streaming_socket live_pipeline [quiet_frame; loud_frame]);
    reflexivity.
Defined.

(** X7 at a transcribe response whose body is an empty object: the
    translate request is issued, with the empty text. *)
Example textless_transcript_is_translated :
  w_requests
    (processAudio parse_more unit tt ascii_decode server_textless
       (Some recording_file) world0).2
  = [Transcribe recording_file; Translate "" "Arabic"].
Proof. reflexivity. Qed.

(** A view of one element of a three-element array encodes the whole
    buffer: eight characters, not four. *)
Example encodeBase64_of_subarray :
  TypedArray.elements
    (TypedArray.subarray16 (TypedArray.allocated [1; 2; 3]) 1 2)
  = Some [2]
  /\ TypedArray.encodeBase64
       (TypedArray.subarray16 (TypedArray.allocated [1; 2; 3]) 1 2)
     = "AQACAAMA"
  /\ TypedArray.encodeBase64 (TypedArray.allocated [2]) = "AgA=".
Proof.
  split; [reflexivity|]. rewrite !encodeBase64_view. split; reflexivity.
Qed.

End Runs2.
